(** * A shallow embedding of [PathTracker] and [calculate_speed]
      from src/patitos/visionPatitos.py, and of the script around them.

    Modelling choices:
    - A Python [dict] keyed by integers is an association list kept in
      insertion order ([dict]); assignment to an existing key keeps its
      position, assignment to a new key appends it, [del] removes it and
      raises [KeyError] when the key is missing.
    - Exceptions ([KeyError], [IndexError], numpy's [ValueError] and
      [TypeError]) are the [None] of an option monad.
    - An observation (the tuple [(cx, cy, conf, cls)]) is a tuple of Python
      integers, a [list Z]; [detection[:2]] is [firstn 2].  The tracker
      stores observations as they are and reads them only to fill the
      distance matrix.
    - The float64 entries of the distance matrix, the computation of an
      entry by numpy, and the comparisons made on entries ([np.argmin] and
      the test [< 100]) are left abstract: they are the fields of a
      [DistModel], and the tracker is defined for every model.  Nothing
      below depends on how numpy converts, wraps around, rounds or
      overflows, nor on which operands make it raise.  Where a property
      needs the comparison to behave as IEEE 754 comparison does, the laws
      [DistLaws] are assumed; [exact_model] is an instance used to run
      examples. *)


From Stdlib Require Import List ZArith Lia Bool Arith Sorting.Sorted Reals Lra.
Import ListNotations.

Open Scope Z_scope.

(* ------------------------------------------------------------------ *)
(** ** Option monad for Python exceptions *)

Definition obind {A B} (m : option A) (f : A -> option B) : option B :=
  match m with Some x => f x | None => None end.

Notation "'let*' x ':=' m 'in' f" := (obind m (fun x => f))
  (at level 200, x name, m at level 100, f at level 200).

Fixpoint mapM {A B} (f : A -> option B) (l : list A) : option (list B) :=
  match l with
  | [] => Some []
  | x :: r => let* y := f x in let* ys := mapM f r in Some (y :: ys)
  end.

(* ------------------------------------------------------------------ *)
(** ** Python dicts with integer keys *)

Definition dict (V : Type) := list (nat * V).

(** [d[k]] *)
Fixpoint dict_get {V} (k : nat) (d : dict V) : option V :=
  match d with
  | [] => None
  | (k', v) :: r => if Nat.eqb k k' then Some v else dict_get k r
  end.

(** [d[k] = v] *)
Fixpoint dict_set {V} (k : nat) (v : V) (d : dict V) : dict V :=
  match d with
  | [] => [(k, v)]
  | (k', v') :: r => if Nat.eqb k k' then (k, v) :: r else (k', v') :: dict_set k v r
  end.

(** [del d[k]] *)
Fixpoint dict_del {V} (k : nat) (d : dict V) : option (dict V) :=
  match d with
  | [] => None
  | (k', v') :: r =>
      if Nat.eqb k k' then Some r
      else let* r' := dict_del k r in Some ((k', v') :: r')
  end.

Definition keys {V} (d : dict V) : list nat := map fst d.

(** [l[-1]] *)
Fixpoint last_opt {A} (l : list A) : option A :=
  match l with
  | [] => None
  | [x] => Some x
  | _ :: r => last_opt r
  end.

(** [l.pop(i)] for a valid index [i] *)
Fixpoint remove_at {A} (i : nat) (l : list A) : list A :=
  match l, i with
  | [], _ => []
  | _ :: r, O => r
  | x :: r, S i' => x :: remove_at i' r
  end.

(* ------------------------------------------------------------------ *)
(** ** Observations and distances *)

Definition obs := list Z.

(** What the matching phase takes from numpy. *)
Class DistModel := {
  (** the float64 values stored in [distances] *)
  fval : Type;
  (** the entry [distances[i, j] = np.linalg.norm(np.array(a) - np.array(b))]
      for [a = prev_centroid[:2]] and [b = detection[:2]]; [None] when numpy
      raises (operands whose lengths do not broadcast, values that give an
      object array, ...) *)
  fnorm : list Z -> list Z -> option fval;
  (** [x < y] on float64 values *)
  flt : fval -> fval -> bool;
  (** [np.isnan] *)
  fisnan : fval -> bool;
  (** the float64 [100.0] of the test [distances[row, col] < 100] *)
  fthreshold : fval;
  (** [0.0], the initial entries of [np.zeros] *)
  fzero : fval
}.

(** The laws of IEEE 754 comparison that the matching phase relies on: [<]
    is irreflexive and transitive, a value that is not nan lies on one side
    of every strict comparison, and no value is below a nan. *)
Class DistLaws {DM : DistModel} : Prop := {
  flt_irrefl : forall x, flt x x = false;
  flt_trans : forall x y z, flt x y = true -> flt y z = true -> flt x z = true;
  flt_split : forall x y z, fisnan y = false -> flt x z = true -> flt x y = true \/ flt y z = true;
  flt_nan : forall x y, fisnan y = true -> flt x y = false
}.

Definition sumsq (l : list Z) : Z := fold_right (fun x acc => x * x + acc) 0 l.

(** The exact squared norm of [np.array(a) - np.array(b)], with numpy's
    broadcasting: a one-element array is stretched to the other operand's
    length; two arrays of different lengths, neither of length one, raise
    [ValueError]. *)
Definition dist2 (a b : list Z) : option Z :=
  match a, b with
  | [x], _ => Some (sumsq (map (fun y => x - y) b))
  | _, [y] => Some (sumsq (map (fun x => x - y) a))
  | _, _ =>
      if Nat.eqb (length a) (length b)
      then Some (sumsq (map (fun '(x, y) => x - y) (combine a b)))
      else None
  end.

(** The model used to run examples: exact Euclidean geometry on integer
    points.  It stores squared distances and compares them with [100 * 100],
    which orders pairs and decides [< 100] as the distances themselves do;
    on the small integer positions of the examples numpy computes the same
    matching. *)
Definition exact_model : DistModel := {|
  fval := Z;
  fnorm := dist2;
  flt := Z.ltb;
  fisnan := fun _ => false;
  fthreshold := 100 * 100;
  fzero := 0
|}.

(* ------------------------------------------------------------------ *)
(** ** Tracker state *)

Record tracker := mk_tracker {
  paths : dict (list obs);
  disappeared : dict nat;
  next_id : nat;
  max_disappeared : nat
}.

(** [PathTracker()] *)
Definition tracker_new : tracker :=
  mk_tracker [] [] 0 10.

Definition set_paths (p : dict (list obs)) (s : tracker) : tracker :=
  mk_tracker p (disappeared s) (next_id s) (max_disappeared s).

Definition set_disappeared (d : dict nat) (s : tracker) : tracker :=
  mk_tracker (paths s) d (next_id s) (max_disappeared s).

(** One iteration of the loops over [self.disappeared.keys()] and over the
    unmatched rows:
<<
    self.disappeared[obj_id] += 1
    if self.disappeared[obj_id] > self.max_disappeared:
        del self.paths[obj_id]
        del self.disappeared[obj_id]
>> *)
Definition age_one (k : nat) (s : tracker) : option tracker :=
  let* c := dict_get k (disappeared s) in
  let dis := dict_set k (S c) (disappeared s) in
  if Nat.ltb (max_disappeared s) (S c) then
    let* p' := dict_del k (paths s) in
    let* d' := dict_del k dis in
    Some (mk_tracker p' d' (next_id s) (max_disappeared s))
  else Some (set_disappeared dis s).

Fixpoint age_ids (ks : list nat) (s : tracker) : option tracker :=
  match ks with
  | [] => Some s
  | k :: ks' => let* s' := age_one k s in age_ids ks' s'
  end.

(** The loops
<<
    for detection in detections:
        self.paths[self.next_id] = [detection]
        self.disappeared[self.next_id] = 0
        self.next_id += 1
>> *)
Fixpoint seed (ds : list obs) (s : tracker) : tracker :=
  match ds with
  | [] => s
  | d :: ds' =>
      seed ds'
        (mk_tracker (dict_set (next_id s) [d] (paths s))
                    (dict_set (next_id s) O (disappeared s))
                    (S (next_id s)) (max_disappeared s))
  end.

(* ------------------------------------------------------------------ *)
(** ** The matching phase *)

Section Matching.
Context {DM : DistModel}.

(** [distances[i][j]] *)
Definition ent (D : list (list fval)) (r c : nat) : fval := nth c (nth r D []) fzero.

(** [distances[rows_idx, :][:, cols_idx]] flattened in row-major order:
    entries [(i, j, value)] with [i], [j] positions in [rows_idx], [cols_idx]. *)
Definition submatrix (D : list (list fval)) (rows cols : list nat) : list (nat * nat * fval) :=
  flat_map (fun '(i, r) => map (fun '(j, c) => (i, j, ent D r c))
                             (combine (seq O (length cols)) cols))
           (combine (seq O (length rows)) rows).

(** [np.argmin] on float64 values, as numpy's loop computes it: the best
    value [mp] so far is replaced by the next value [x] when [!(x >= mp)],
    that is when [x < mp] or [x] is nan, and a nan ends the search.  The
    result is the first nan if there is one, else the first entry holding
    the minimum. *)
Fixpoint first_min (best : nat * nat * fval) (l : list (nat * nat * fval)) : nat * nat * fval :=
  match l with
  | [] => best
  | x :: r =>
      if fisnan (snd best) then best
      else first_min (if flt (snd x) (snd best) || fisnan (snd x) then x else best) r
  end.

Definition argmin (l : list (nat * nat * fval)) : option (nat * nat * fval) :=
  match l with
  | [] => None
  | x :: r => Some (first_min x r)
  end.

(** [self.paths[k].append(d); self.disappeared[k] = 0] *)
Definition assign (k : nat) (d : obs) (s : tracker) : option tracker :=
  let* h := dict_get k (paths s) in
  Some (mk_tracker (dict_set k (h ++ [d]) (paths s))
                   (dict_set k O (disappeared s))
                   (next_id s) (max_disappeared s)).

(** The [while] loop.  Each iteration pops a row or leaves the loop, so
    [length rows_idx] iterations suffice.  The last component logs the
    matched [(row, col)] pairs; the source keeps no such log. *)
Fixpoint match_loop (fuel : nat) (D : list (list fval)) (object_ids : list nat)
    (dets : list obs) (rows cols : list nat) (s : tracker)
    : option (tracker * list nat * list nat * list (nat * nat)) :=
  match fuel with
  | O => Some (s, rows, cols, [])
  | S fuel' =>
      match rows, cols with
      | _ :: _, _ :: _ =>
          let* m := argmin (submatrix D rows cols) in
          let '(i, j, _) := m in
          let row := nth i rows O in
          let col := nth j cols O in
          if flt (ent D row col) fthreshold then
            let* s' := assign (nth row object_ids O) (nth col dets []) s in
            let* res := match_loop fuel' D object_ids dets
                                   (remove_at i rows) (remove_at j cols) s' in
            let '(s'', rows', cols', log) := res in
            Some (s'', rows', cols', (row, col) :: log)
          else Some (s, rows, cols, [])
      | _, _ => Some (s, rows, cols, [])
      end
  end.

(** [distances] *)
Definition dist_matrix (prev : list obs) (dets : list obs) : option (list (list fval)) :=
  mapM (fun p => mapM (fun d => fnorm (firstn 2 p) (firstn 2 d)) dets) prev.

(** The [else] branch of [update], also returning the log of matches. *)
Definition update_general (s : tracker) (dets : list obs)
    : option (tracker * list (nat * nat)) :=
  let object_ids := keys (paths s) in
  let* previous_centroids :=
    mapM (fun k => let* h := dict_get k (paths s) in last_opt h) object_ids in
  let* D := dist_matrix previous_centroids dets in
  let rows_idx := seq O (length previous_centroids) in
  let cols_idx := seq O (length dets) in
  let* res := match_loop (length rows_idx) D object_ids dets rows_idx cols_idx s in
  let '(s1, rows', cols', log) := res in
  let s2 := seed (map (fun c => nth c dets []) cols') s1 in
  let* s3 := age_ids (map (fun r => nth r object_ids O) rows') s2 in
  Some (s3, log).

(** [PathTracker.update]; the returned mapping is [paths] of the new state. *)
Definition update (s : tracker) (dets : list obs) : option tracker :=
  if Nat.eqb (length dets) O then age_ids (keys (disappeared s)) s
  else if Nat.eqb (length (paths s)) O then Some (seed dets s)
  else let* r := update_general s dets in Some (fst r).

(** A sequence of [update] calls. *)
Fixpoint run (s : tracker) (dss : list (list obs)) : option tracker :=
  match dss with
  | [] => Some s
  | ds :: r => let* s' := update s ds in run s' r
  end.

(** The states visited by a sequence of [update] calls, the first one included. *)
Fixpoint run_trace (s : tracker) (dss : list (list obs)) : option (list tracker) :=
  match dss with
  | [] => Some [s]
  | ds :: r => let* s' := update s ds in let* sts := run_trace s' r in Some (s :: sts)
  end.

End Matching.

(** Identifiers present in the live mapping of [s'] but not in that of [s]:
    the ids issued by an update from [s] to [s']. *)
Definition fresh_ids (s s' : tracker) : list nat :=
  filter (fun k => match dict_get k (paths s) with None => true | Some _ => false end)
         (keys (paths s')).

(** The ids issued along a trace of states. *)
Fixpoint issued (sts : list tracker) : list nat :=
  match sts with
  | s :: ((s' :: _) as r) => fresh_ids s s' ++ issued r
  | _ => []
  end.

(* ------------------------------------------------------------------ *)
(** ** [calculate_speed] *)

(** Floating-point values are modelled by real numbers for finite results,
    plus the special values that numpy's [float64] division by zero
    produces.  Rounding, and the overflow of a finite result to [inf], are
    not modelled. *)
Module Speed.
Local Open Scope R_scope.

Inductive fresult := Fin (r : R) | PosInf | NegInf | NaN.

(** [np.float64 / float]: division by zero does not raise; numpy returns
    [inf], [-inf] or [nan] (with a RuntimeWarning). *)
Definition np_div (x t : R) : fresult :=
  if Req_dec_T t 0 then
    (if Rlt_dec 0 x then PosInf else if Rlt_dec x 0 then NegInf else NaN)
  else Fin (x / t).

(** [np.hypot(dx, dy)] *)
Definition hypot (dx dy : R) : R := sqrt (dx * dx + dy * dy).

(** [calculate_speed(points, time_diff)] *)
Definition calculate_speed (points : list (R * R)) (time_diff : R) : fresult :=
  if Nat.ltb (length points) 2%nat then Fin 0
  else
    let p1 := nth (length points - 2)%nat points (0, 0) in
    let p2 := nth (length points - 1)%nat points (0, 0) in
    np_div (hypot (fst p2 - fst p1) (snd p2 - snd p1)) time_diff.

End Speed.

(* ------------------------------------------------------------------ *)
(** ** The script around the tracker (lines 121-294) *)

(** The numbers of the script are reals, as in [Speed]; the observations
    handed to the tracker are the [obs] above.  Drawing, the video and the
    YOLO model are left out: the model starts from what they return. *)
Module Main.
Local Open Scope R_scope.

Definition AREA_THRESHOLD : R := 500.
Definition GRID_SQUARE_CM : R := 10.

(** ** Detections (lines 174-190) *)

(** A YOLO box: [box.xyxy[0]], [box.conf[0]] and [int(box.cls[0])]. *)
Record box := mk_box { bx1 : R; by1 : R; bx2 : R; by2 : R; bconf : R; bcls : Z }.

(** The body of [for box in boxes]: the detection it appends, if any. *)
Definition box_detection (b : box) : option (R * R * R * Z) :=
  if Z.eqb (bcls b) 0%Z then
    let cx := (bx1 b + bx2 b) / 2 in
    let cy := (by1 b + by2 b) / 2 in
    let w := bx2 b - bx1 b in
    let h := by2 b - by1 b in
    let area := w * h in
    if Rlt_dec AREA_THRESHOLD area then Some (cx, cy, bconf b, bcls b) else None
  else None.

(** [detections] after [for r in results: for box in r.boxes: ...] *)
Definition extract_detections (results : list (list box)) : list (R * R * R * Z) :=
  flat_map (fun boxes =>
              flat_map (fun b => match box_detection b with Some d => [d] | None => [] end)
                       boxes)
           results.

(** ** The scale from the grid (lines 154-164) *)

(** [int(round(r))]: Python rounds a float to the nearest integer, ties to
    the even one.  [Int_part] is the floor. *)
Definition py_round (r : R) : Z :=
  let f := Int_part r in
  let d := r - IZR f in
  if Rlt_dec d (1 / 2) then f
  else if Rlt_dec (1 / 2) d then (f + 1)%Z
  else if Z.even f then f else (f + 1)%Z.

(** Insertion of [x] into a strictly increasing list, dropping duplicates. *)
Fixpoint insert_uniq (x : Z) (l : list Z) : list Z :=
  match l with
  | [] => [x]
  | y :: r => if Z.ltb x y then x :: l else if Z.eqb x y then l else y :: insert_uniq x r
  end.

(** [sorted(set(xs))] *)
Definition sorted_set (xs : list Z) : list Z := fold_right insert_uniq [] xs.

(** [np.diff] *)
Fixpoint diff (l : list Z) : list Z :=
  match l with
  | x :: ((y :: _) as r) => (y - x)%Z :: diff r
  | _ => []
  end.

Fixpoint insert_sorted (x : Z) (l : list Z) : list Z :=
  match l with
  | [] => [x]
  | y :: r => if Z.leb x y then x :: l else y :: insert_sorted x r
  end.

(** The ascending sort [np.median] performs. *)
Definition sort (l : list Z) : list Z := fold_right insert_sorted [] l.

(** [np.median] of a non-empty integer array: the middle element of the
    sorted array, or the mean of the two middle ones for an even length. *)
Definition median (l : list Z) : R :=
  let s := sort l in
  let n := length s in
  if Nat.even n then (IZR (nth (n / 2 - 1) s 0%Z) + IZR (nth (n / 2) s 0%Z)) / 2
  else IZR (nth (n / 2) s 0%Z).

(** The body of [if pixel_per_cm is None:], given what [cv2.HoughLines]
    returns ([None], or the [(rho, theta)] of each line): the new value of
    [pixel_per_cm]. *)
Definition estimate_scale (lines : option (list (R * R))) : option R :=
  match lines with
  | None => None
  | Some ls =>
      let rhos := map fst (filter (fun l => if Rlt_dec (9 / 10) (Rabs (sin (snd l)))
                                            then true else false) ls) in
      let rhos_uniq := sorted_set (map py_round rhos) in
      if Nat.leb 2 (length rhos_uniq)
      then Some (median (diff rhos_uniq) / GRID_SQUARE_CM)
      else None
  end.

(** ** Trajectories and speeds during the video (lines 202-228) *)

(** [cx, cy = p[:2]]: a [ValueError] unless [p] has two fields or more. *)
Definition xy (p : obs) : option (R * R) :=
  match p with
  | x :: y :: _ => Some (IZR x, IZR y)
  | _ => None
  end.

(** The body of [for obj_id, points in paths.items()] for one track: the
    point appended to its trajectory in cm, with the frame number, and the
    speed displayed, when the track has two points or more. *)
Definition track_step (ppc dt : R) (frame : nat) (points : list obs)
    : option (option (R * R * nat * Speed.fresult)) :=
  if Nat.leb 2 (length points) then
    let* c1 := xy (nth (length points - 2) points []) in
    let* c2 := xy (nth (length points - 1) points []) in
    let '(cx1, cy1) := c1 in
    let '(cx2, cy2) := c2 in
    let x1_cm := cx1 / ppc in
    let y1_cm := cy1 / ppc in
    let x2_cm := cx2 / ppc in
    let y2_cm := cy2 / ppc in
    Some (Some (x2_cm, y2_cm, frame, Speed.calculate_speed [(x1_cm, y1_cm); (x2_cm, y2_cm)] dt))
  else Some None.

(** The loop over [paths.items()]: the new [trajectories_cm] and the
    speeds displayed, track by track. *)
Fixpoint record_frame (ppc dt : R) (frame : nat) (items : dict (list obs))
    (traj : dict (list (R * R * nat)))
    : option (dict (list (R * R * nat)) * list (nat * Speed.fresult)) :=
  match items with
  | [] => Some (traj, [])
  | (obj_id, points) :: rest =>
      let* st := track_step ppc dt frame points in
      match st with
      | None => record_frame ppc dt frame rest traj
      | Some (x, y, f, v) =>
          let old := match dict_get obj_id traj with Some t => t | None => [] end in
          let* res := record_frame ppc dt frame rest (dict_set obj_id (old ++ [(x, y, f)]) traj) in
          Some (fst res, (obj_id, v) :: snd res)
      end
  end.

(** [if pixel_per_cm: ...] *)
Definition main_step (ppc : option R) (dt : R) (frame : nat) (paths : dict (list obs))
    (traj : dict (list (R * R * nat)))
    : option (dict (list (R * R * nat)) * list (nat * Speed.fresult)) :=
  match ppc with
  | Some p => if Req_dec_T p 0 then Some (traj, []) else record_frame p dt frame paths traj
  | None => Some (traj, [])
  end.

Section Loop.
Context {DM : DistModel}.

(** The [while True] loop, one input per frame read: the result of
    [cv2.HoughLines] and the detections of the frame.  The state is the
    tracker, [pixel_per_cm], [frame_count] and [trajectories_cm]. *)
Fixpoint main_loop (s : tracker) (ppc : option R) (dt : R) (frame_count : nat)
    (traj : dict (list (R * R * nat)))
    (inputs : list (option (list (R * R)) * list obs))
    : option (tracker * option R * nat * dict (list (R * R * nat))) :=
  match inputs with
  | [] => Some (s, ppc, frame_count, traj)
  | (lines, detections) :: rest =>
      let frame := S frame_count in
      let ppc' := match ppc with None => estimate_scale lines | Some p => Some p end in
      let* s' := update s detections in
      let* res := main_step ppc' dt frame (paths s') traj in
      main_loop s' ppc' dt frame (fst res) rest
  end.

End Loop.

(** ** Speeds after the video (lines 264-283) *)

(** The loop [for i in range(1, len(traj))] from the sample [prev]: the
    (time, speed) pairs appended.  [df / fps] raises [ZeroDivisionError]
    when [fps] is zero; [dist / time] is a numpy division. *)
Fixpoint speed_loop (fps : R) (prev : R * R * nat) (rest : list (R * R * nat))
    : option (list (R * Speed.fresult)) :=
  match rest with
  | [] => Some []
  | cur :: r =>
      let '(x0, y0, f0) := prev in
      let '(x1, y1, f1) := cur in
      let df := (Z.of_nat f1 - Z.of_nat f0)%Z in
      if Z.ltb 0 df then
        if Req_dec_T fps 0 then None
        else
          let dist := Speed.hypot (x1 - x0) (y1 - y0) in
          let time := IZR df / fps in
          let* tl := speed_loop fps cur r in
          Some ((INR f1 / fps, Speed.np_div dist time) :: tl)
      else speed_loop fps cur r
  end.

(** One trajectory of [trajectories_cm.items()]: skipped with fewer than
    three samples. *)
Definition speed_series (fps : R) (traj : list (R * R * nat)) : option (list (R * Speed.fresult)) :=
  if Nat.ltb (length traj) 3 then Some []
  else match traj with
       | [] => Some []
       | p :: r => speed_loop fps p r
       end.

End Main.

(* ------------------------------------------------------------------ *)
(** ** The matching phase as section 4.1 of the spec describes it *)

Section Greedy.
Context {DM : DistModel}.

(** The distance between the most recent observation of the track of row
    [r] (histories [hist], track ids [ids]) and detection [c], as numpy
    computes it. *)
Definition track_dist (ids : list nat) (hist : dict (list obs)) (dets : list obs)
    (r c : nat) : fval :=
  match dict_get (nth r ids O) hist with
  | Some h =>
      match fnorm (firstn 2 (last h [])) (firstn 2 (nth c dets [])) with
      | Some v => v
      | None => fzero
      end
  | None => fzero
  end.

Variables (ids : list nat) (dets : list obs) (dist : nat -> nat -> fval).

(** [(r, c)] is a remaining pair. *)
Definition cand (rows cols : list nat) (r c : nat) : Prop :=
  In r rows /\ In c cols.

(** [(r, c)] is a smallest remaining pair: no remaining pair is at a
    smaller distance. *)
Definition is_min (rows cols : list nat) (r c : nat) : Prop :=
  In r rows /\ In c cols
  /\ forall r' c', In r' rows -> In c' cols -> flt (dist r' c') (dist r c) = false.

Variable sel : list nat -> list nat -> nat -> nat -> Prop.

(** Greedy matching over the remaining rows (tracks) and columns
    (detections), each step taking a pair allowed by [sel]: the pair is
    committed when its distance is below the threshold (history extended,
    counter reset, both removed from consideration); otherwise matching
    stops.  With [sel := is_min dist] this is greedy global matching. *)
Inductive greedy : list nat -> list nat -> tracker ->
                   list nat -> list nat -> tracker -> list (nat * nat) -> Prop :=
| greedy_exhausted rows cols s :
    rows = [] \/ cols = [] -> greedy rows cols s rows cols s []
| greedy_stop rows cols s r c :
    sel rows cols r c -> flt (dist r c) fthreshold = false ->
    greedy rows cols s rows cols s []
| greedy_match rows cols s r c h rows' cols' s' log :
    sel rows cols r c -> flt (dist r c) fthreshold = true ->
    dict_get (nth r ids O) (paths s) = Some h ->
    greedy (remove Nat.eq_dec r rows) (remove Nat.eq_dec c cols)
      (mk_tracker (dict_set (nth r ids O) (h ++ [nth c dets []]) (paths s))
                  (dict_set (nth r ids O) O (disappeared s))
                  (next_id s) (max_disappeared s))
      rows' cols' s' log ->
    greedy rows cols s rows' cols' s' ((r, c) :: log).

End Greedy.


(** A run of the main loop that sets the scale: the first frame's grid has
    two horizontal lines 10 pixels apart, and one object moves one pixel to
    the right per frame. *)
Definition scale_inputs : list (option (list (R * R)) * list obs) :=
  [(Some [(10%R, (PI / 2)%R); (20%R, (PI / 2)%R)], [[0; 0]%Z]);
   (None, [[1; 0]%Z]); (None, [[2; 0]%Z]); (None, [[3; 0]%Z])].

(* ------------------------------------------------------------------ *)
(** * Lemmas on dicts *)

Section DictLemmas.
Context {V : Type}.

Lemma dict_get_set (k k' : nat) (v : V) (d : dict V) :
  dict_get k' (dict_set k v d) = if Nat.eqb k' k then Some v else dict_get k' d.
Proof.
  induction d as [|[k0 v0] r IH]; simpl.
  - destruct (Nat.eqb k' k); reflexivity.
  - destruct (Nat.eqb k k0) eqn:E.
    + apply Nat.eqb_eq in E; subst k0. simpl. destruct (Nat.eqb k' k); reflexivity.
    + simpl. rewrite IH.
      destruct (Nat.eqb k' k0) eqn:E1, (Nat.eqb k' k) eqn:E2; auto.
      apply Nat.eqb_eq in E1, E2; subst. rewrite Nat.eqb_refl in E; discriminate.
Qed.

Lemma dict_get_in (k : nat) (d : dict V) :
  (exists v, dict_get k d = Some v) <-> In k (keys d).
Proof.
  induction d as [|[k0 v0] r IH]; simpl.
  - split; [intros [v H]; discriminate | tauto].
  - destruct (Nat.eqb k k0) eqn:E.
    + apply Nat.eqb_eq in E; subst. split; eauto.
    + apply Nat.eqb_neq in E. rewrite IH. split; [tauto|].
      intros [H|H]; [congruence|exact H].
Qed.

Lemma dict_get_notin (k : nat) (d : dict V) :
  ~ In k (keys d) -> dict_get k d = None.
Proof.
  intros H. destruct (dict_get k d) eqn:E; [|reflexivity].
  exfalso. apply H, dict_get_in. eauto.
Qed.

Lemma keys_set_in (k : nat) (v : V) (d : dict V) :
  In k (keys d) -> keys (dict_set k v d) = keys d.
Proof.
  induction d as [|[k0 v0] r IH]; simpl; [tauto|].
  intros H. destruct (Nat.eqb k k0) eqn:E.
  - apply Nat.eqb_eq in E; subst. reflexivity.
  - apply Nat.eqb_neq in E. simpl. f_equal. apply IH. destruct H; congruence.
Qed.

Lemma keys_set_notin (k : nat) (v : V) (d : dict V) :
  ~ In k (keys d) -> keys (dict_set k v d) = keys d ++ [k].
Proof.
  induction d as [|[k0 v0] r IH]; simpl; [reflexivity|].
  intros H. destruct (Nat.eqb k k0) eqn:E.
  - apply Nat.eqb_eq in E; subst. tauto.
  - simpl. f_equal. apply IH. tauto.
Qed.

Lemma dict_del_spec (k : nat) (d : dict V) :
  NoDup (keys d) -> In k (keys d) ->
  exists d', dict_del k d = Some d'
    /\ keys d' = remove Nat.eq_dec k (keys d)
    /\ forall k', dict_get k' d' = if Nat.eqb k' k then None else dict_get k' d.
Proof.
  induction d as [|[k0 v0] r IH]; simpl; [tauto|].
  intros Hnd Hin. inversion Hnd as [|? ? Hnot Hnd']; subst.
  destruct (Nat.eqb k k0) eqn:E.
  - apply Nat.eqb_eq in E; subst k0. exists r. split; [reflexivity|split].
    + destruct (Nat.eq_dec k k); [|congruence]. symmetry. apply notin_remove. exact Hnot.
    + intros k'. destruct (Nat.eqb k' k) eqn:E'; [|reflexivity].
      apply Nat.eqb_eq in E'; subst. apply dict_get_notin. exact Hnot.
  - apply Nat.eqb_neq in E. destruct Hin as [Hin|Hin]; [congruence|].
    destruct (IH Hnd' Hin) as (r' & Hdel & Hk & Hg).
    exists ((k0, v0) :: r'). rewrite Hdel. split; [reflexivity|split].
    + simpl. destruct (Nat.eq_dec k k0); [congruence|]. rewrite Hk. reflexivity.
    + intros k'. simpl. rewrite Hg.
      destruct (Nat.eqb k' k0) eqn:E1, (Nat.eqb k' k) eqn:E2; auto.
      apply Nat.eqb_eq in E1, E2; subst. congruence.
Qed.

End DictLemmas.

Lemma NoDup_remove_nat (x : nat) (l : list nat) :
  NoDup l -> NoDup (remove Nat.eq_dec x l).
Proof.
  induction 1 as [|y l Hy Hnd IH]; simpl; [constructor|].
  destruct (Nat.eq_dec x y); [exact IH|].
  constructor; [|exact IH]. intros Hin. apply in_remove in Hin. tauto.
Qed.

Lemma NoDup_app_single (l : list nat) (x : nat) :
  NoDup l -> ~ In x l -> NoDup (l ++ [x]).
Proof.
  intros Hnd Hx. apply NoDup_app; [exact Hnd|constructor; [tauto|constructor]|].
  intros y Hy [Hyx|[]]; subst. tauto.
Qed.

(* ------------------------------------------------------------------ *)
(** * The state invariant *)

(** What every reachable tracker satisfies: both dicts have the same keys
    in the same order, no key twice, every counter within
    [max_disappeared], and every key below [next_id]. *)
Record inv (s : tracker) : Prop := {
  inv_keys : keys (paths s) = keys (disappeared s);
  inv_nodup : NoDup (keys (paths s));
  inv_bound : forall k c, dict_get k (disappeared s) = Some c -> (c <= max_disappeared s)%nat;
  inv_fresh : forall k, In k (keys (paths s)) -> (k < next_id s)%nat
}.

Lemma inv_new : inv tracker_new.
Proof.
  constructor; simpl; try reflexivity; try constructor; intros; try discriminate; tauto.
Qed.

(** The counter after one more missed frame, or [None] once removed. *)
Definition aged (m c : nat) : option nat :=
  if Nat.ltb m (S c) then None else Some (S c).

Lemma age_one_spec (k c : nat) (s : tracker) :
  inv s -> dict_get k (disappeared s) = Some c ->
  exists s', age_one k s = Some s' /\ inv s'
    /\ next_id s' = next_id s /\ max_disappeared s' = max_disappeared s
    /\ dict_get k (disappeared s') = aged (max_disappeared s) c
    /\ dict_get k (paths s') =
         (if Nat.ltb (max_disappeared s) (S c) then None else dict_get k (paths s))
    /\ (forall k', k' <> k -> dict_get k' (paths s') = dict_get k' (paths s)
                           /\ dict_get k' (disappeared s') = dict_get k' (disappeared s))
    /\ incl (keys (paths s')) (keys (paths s)).
Proof.
  intros [Hk Hnd Hb Hf] Hc.
  assert (Hin : In k (keys (disappeared s))) by (apply dict_get_in; eauto).
  assert (Hkd : keys (dict_set k (S c) (disappeared s)) = keys (disappeared s))
    by (apply keys_set_in; exact Hin).
  unfold age_one, aged. rewrite Hc. cbn [obind].
  destruct (Nat.ltb (max_disappeared s) (S c)) eqn:Hlt.
  - destruct (dict_del_spec k (paths s) Hnd (eq_ind_r (fun l => In k l) Hin Hk))
      as (p' & Hp & Hpk & Hpg).
    assert (Hnd' : NoDup (keys (dict_set k (S c) (disappeared s)))) by congruence.
    destruct (dict_del_spec k _ Hnd' (eq_ind_r (fun l => In k l) Hin Hkd))
      as (d' & Hd & Hdk & Hdg).
    rewrite Hp, Hd. cbn [obind].
    eexists; split; [reflexivity|]. simpl.
    split; [constructor; simpl|].
    + rewrite Hpk, Hdk, Hkd, Hk. reflexivity.
    + rewrite Hpk. apply NoDup_remove_nat. exact Hnd.
    + intros k' c' H. rewrite Hdg, dict_get_set in H.
      destruct (Nat.eqb k' k) eqn:E; [discriminate|]. eapply Hb; exact H.
    + intros k' H. rewrite Hpk in H. apply in_remove in H. apply Hf. tauto.
    + split; [reflexivity|split; [reflexivity|split; [|split; [|split]]]].
      * rewrite Hdg, Nat.eqb_refl. reflexivity.
      * rewrite Hpg, Nat.eqb_refl. reflexivity.
      * intros k' Hne. apply Nat.eqb_neq in Hne.
        rewrite Hpg, Hdg, dict_get_set, Hne. split; reflexivity.
      * intros x H. rewrite Hpk in H. apply in_remove in H. tauto.
  - apply Nat.ltb_ge in Hlt.
    eexists; split; [reflexivity|]. unfold set_disappeared; simpl.
    split; [constructor; simpl|].
    + rewrite Hkd. exact Hk.
    + exact Hnd.
    + intros k' c' H. rewrite dict_get_set in H.
      destruct (Nat.eqb k' k); [injection H as <-; exact Hlt|]. eapply Hb; exact H.
    + exact Hf.
    + split; [reflexivity|split; [reflexivity|split; [|split; [|split]]]].
      * rewrite dict_get_set, Nat.eqb_refl. reflexivity.
      * reflexivity.
      * intros k' Hne. apply Nat.eqb_neq in Hne. rewrite dict_get_set, Hne. split; reflexivity.
      * intros x H. exact H.
Qed.

Lemma age_ids_spec (ks : list nat) (s : tracker) :
  inv s -> NoDup ks -> (forall k, In k ks -> In k (keys (paths s))) ->
  exists s', age_ids ks s = Some s' /\ inv s'
    /\ next_id s' = next_id s /\ max_disappeared s' = max_disappeared s
    /\ (forall k, ~ In k ks -> dict_get k (paths s') = dict_get k (paths s)
                          /\ dict_get k (disappeared s') = dict_get k (disappeared s))
    /\ (forall k, In k ks -> exists c, dict_get k (disappeared s) = Some c
          /\ dict_get k (disappeared s') = aged (max_disappeared s) c
          /\ dict_get k (paths s') =
               (if Nat.ltb (max_disappeared s) (S c) then None else dict_get k (paths s)))
    /\ incl (keys (paths s')) (keys (paths s)).
Proof.
  revert s. induction ks as [|k ks IH]; intros s Hinv Hnd Hks.
  - exists s. simpl. split; [reflexivity|split; [exact Hinv|]]. repeat split; auto; try tauto; try (intros x H; exact H).
  - inversion Hnd as [|? ? Hk Hnd']; subst.
    assert (Hin : In k (keys (disappeared s))) by (rewrite <- (inv_keys _ Hinv); apply Hks; left; reflexivity).
    apply dict_get_in in Hin. destruct Hin as [c Hc].
    destruct (age_one_spec k c s Hinv Hc)
      as (s1 & Ha & Hinv1 & Hn1 & Hm1 & Hd1 & Hp1 & Ho1 & Hi1).
    assert (Hks1 : forall k', In k' ks -> In k' (keys (paths s1))).
    { intros k' H'. assert (Hne : k' <> k) by (intro; subst; tauto).
      apply dict_get_in. rewrite (proj1 (Ho1 k' Hne)). apply dict_get_in. apply Hks. right. exact H'. }
    destruct (IH s1 Hinv1 Hnd' Hks1) as (s' & Ha' & Hinv' & Hn' & Hm' & Ho' & Hc' & Hi').
    exists s'. simpl. rewrite Ha. cbn [obind].
    split; [exact Ha'|split; [exact Hinv'|split; [congruence|split; [congruence|split; [|split]]]]].
    + intros k' Hn. assert (k' <> k) by (intro; subst; tauto).
      destruct (Ho' k' (fun H => Hn (or_intror H))) as [A B].
      destruct (Ho1 k' H) as [A1 B1]. split; congruence.
    + intros k' [<-|H].
      * exists c. destruct (Ho' k Hk) as [A B]. rewrite A, B, Hd1, Hp1. auto.
      * assert (k' <> k) by (intro; subst; tauto).
        destruct (Hc' k' H) as (c' & A & B & C). destruct (Ho1 k' H0) as [A1 B1].
        exists c'. rewrite <- B1, <- A1, <- Hm1. auto.
    + intros x H. apply Hi1, Hi', H.
Qed.

Lemma seed_spec (ds : list obs) (s : tracker) :
  inv s ->
  inv (seed ds s)
  /\ next_id (seed ds s) = (next_id s + length ds)%nat
  /\ max_disappeared (seed ds s) = max_disappeared s
  /\ forall k,
       dict_get k (paths (seed ds s)) =
         (if Nat.leb (next_id s) k && Nat.ltb k (next_id s + length ds)
          then Some [nth (k - next_id s) ds []] else dict_get k (paths s))
       /\ dict_get k (disappeared (seed ds s)) =
         (if Nat.leb (next_id s) k && Nat.ltb k (next_id s + length ds)
          then Some O else dict_get k (disappeared s)).
Proof.
  revert s. induction ds as [|d ds IH]; intros s Hinv.
  - simpl. rewrite Nat.add_0_r.
    split; [exact Hinv|split; [reflexivity|split; [reflexivity|]]].
    intros k. destruct (Nat.leb_spec (next_id s) k), (Nat.ltb_spec k (next_id s));
      simpl; try lia; split; reflexivity.
  - destruct Hinv as [Hk Hnd Hb Hf].
    set (s1 := mk_tracker (dict_set (next_id s) [d] (paths s))
                          (dict_set (next_id s) O (disappeared s))
                          (S (next_id s)) (max_disappeared s)).
    assert (Hnot : ~ In (next_id s) (keys (paths s))) by (intro H; apply Hf in H; lia).
    assert (Hinv1 : inv s1).
    { constructor; unfold s1; simpl.
      - rewrite keys_set_notin by exact Hnot. rewrite keys_set_notin by congruence. congruence.
      - rewrite keys_set_notin by exact Hnot. apply NoDup_app_single; assumption.
      - intros k c H. rewrite dict_get_set in H.
        destruct (Nat.eqb k (next_id s)); [injection H as <-; lia|]. eapply Hb; exact H.
      - intros k H. rewrite keys_set_notin in H by exact Hnot.
        apply in_app_or in H as [H|[H|[]]]; [apply Hf in H; lia|subst; lia]. }
    destruct (IH s1 Hinv1) as (Hinv' & Hn' & Hm' & Hg').
    simpl. fold s1. split; [exact Hinv'|split; [rewrite Hn'; simpl; lia|split; [exact Hm'|]]].
    intros k. destruct (Hg' k) as [A B]. rewrite A, B. unfold s1.
    cbn [next_id paths disappeared]. rewrite !dict_get_set.
    destruct (Nat.leb_spec (next_id s) k), (Nat.ltb_spec k (next_id s + S (length ds))),
             (Nat.leb_spec (S (next_id s)) k), (Nat.ltb_spec k (S (next_id s) + length ds)),
             (Nat.eqb_spec k (next_id s)); cbn [andb]; try lia; try (split; reflexivity).
    + replace (k - next_id s)%nat with (S (k - S (next_id s))) by lia. split; reflexivity.
    + rewrite e, Nat.sub_diag. split; reflexivity.
Qed.

(* ------------------------------------------------------------------ *)
(** * Lemmas on the matching phase *)

Section TrackerProofs.
Context {DM : DistModel}.

Lemma first_min_in (best : nat * nat * fval) (l : list (nat * nat * fval)) :
  first_min best l = best \/ In (first_min best l) l.
Proof.
  revert best. induction l as [|x r IH]; intros best; simpl; [left; reflexivity|].
  destruct (fisnan (snd best)); [left; reflexivity|].
  destruct (flt (snd x) (snd best) || fisnan (snd x)).
  - destruct (IH x) as [->|H]; right; [left; reflexivity|right; exact H].
  - destruct (IH best) as [->|H]; [left; reflexivity|right; right; exact H].
Qed.

Lemma argmin_in (l : list (nat * nat * fval)) (b : nat * nat * fval) :
  argmin l = Some b -> In b l.
Proof.
  destruct l as [|x r]; simpl; [discriminate|]. intros H. injection H as <-.
  destruct (first_min_in x r) as [->|H]; [left; reflexivity|right; exact H].
Qed.

Lemma first_min_nan (best : nat * nat * fval) (l : list (nat * nat * fval)) :
  fisnan (snd best) = true -> first_min best l = best.
Proof. destruct l; simpl; intros H; [reflexivity|]. rewrite H. reflexivity. Qed.

(** Under the comparison laws, nothing in the scanned list is strictly
    below the value [np.argmin] selects. *)
Lemma first_min_min {DL : DistLaws} (best : nat * nat * fval) (l : list (nat * nat * fval)) :
  forall y, In y (best :: l) -> flt (snd y) (snd (first_min best l)) = false.
Proof.
  revert best. induction l as [|x r IH]; intros best y Hy; simpl.
  - destruct Hy as [<-|[]]. apply flt_irrefl.
  - destruct (fisnan (snd best)) eqn:Eb.
    + destruct Hy as [<-|Hy]; [apply flt_irrefl|]. apply flt_nan, Eb.
    + destruct (flt (snd x) (snd best)) eqn:Ex; cbn [orb].
      * destruct Hy as [<-|Hy]; [|exact (IH x y Hy)].
        destruct (flt (snd best) (snd (first_min x r))) eqn:E; [|reflexivity].
        assert (H := flt_trans _ _ _ Ex E).
        rewrite (IH x x (or_introl eq_refl)) in H. discriminate.
      * destruct (fisnan (snd x)) eqn:En.
        -- destruct Hy as [<-|Hy]; [|exact (IH x y Hy)].
           rewrite first_min_nan by exact En. apply flt_nan, En.
        -- destruct Hy as [<-|[<-|Hy]];
             [exact (IH best best (or_introl eq_refl))| |exact (IH best y (or_intror Hy))].
           destruct (flt (snd x) (snd (first_min best r))) eqn:E; [|reflexivity].
           destruct (flt_split _ _ _ Eb E) as [H|H]; [congruence|].
           rewrite (IH best best (or_introl eq_refl)) in H. discriminate.
Qed.

Lemma argmin_min {DL : DistLaws} (l : list (nat * nat * fval)) (b : nat * nat * fval) :
  argmin l = Some b -> forall y, In y l -> flt (snd y) (snd b) = false.
Proof.
  destruct l as [|x r]; simpl; [discriminate|]. intros H. injection H as <-.
  exact (first_min_min x r).
Qed.

Lemma in_combine_seq (k i : nat) (r : nat) (l : list nat) :
  In (i, r) (combine (seq k (length l)) l) <->
  (k <= i < k + length l)%nat /\ nth (i - k) l O = r.
Proof.
  revert k. induction l as [|x l IH]; intros k; simpl.
  - split; [tauto|lia].
  - rewrite IH. split.
    + intros [H|(H1 & H2)].
      * injection H as <- <-. rewrite Nat.sub_diag. split; [lia|reflexivity].
      * split; [lia|]. replace (i - k)%nat with (S (i - S k)) by lia. exact H2.
    + intros (H1 & H2). destruct (Nat.eq_dec i k) as [->|Hne].
      * left. rewrite Nat.sub_diag in H2. subst. reflexivity.
      * right. split; [lia|]. replace (i - k)%nat with (S (i - S k)) in H2 by lia. exact H2.
Qed.

Lemma in_submatrix (D : list (list fval)) (rows cols : list nat) (i j : nat) (v : fval) :
  In (i, j, v) (submatrix D rows cols) <->
  (i < length rows)%nat /\ (j < length cols)%nat /\ v = ent D (nth i rows O) (nth j cols O).
Proof.
  unfold submatrix. rewrite in_flat_map. split.
  - intros ([i' r] & Hr & Hin). apply in_map_iff in Hin.
    destruct Hin as ([j' c] & He & Hc). injection He as -> -> <-.
    apply in_combine_seq in Hr, Hc. rewrite Nat.sub_0_r in Hr, Hc.
    destruct Hr as [Hr1 Hr2], Hc as [Hc1 Hc2]. subst. split; [lia|split; [lia|reflexivity]].
  - intros (H1 & H2 & ->). exists (i, nth i rows O). split.
    + apply in_combine_seq. rewrite Nat.sub_0_r. split; [lia|reflexivity].
    + apply in_map_iff. exists (j, nth j cols O). split; [reflexivity|].
      apply in_combine_seq. rewrite Nat.sub_0_r. split; [lia|reflexivity].
Qed.

Lemma remove_at_nodup (i : nat) (l : list nat) :
  NoDup l -> (i < length l)%nat -> remove_at i l = remove Nat.eq_dec (nth i l O) l.
Proof.
  revert i. induction l as [|x l IH]; intros i Hnd Hi; simpl in *; [lia|].
  inversion Hnd as [|? ? Hx Hnd']; subst.
  destruct i as [|i].
  - destruct (Nat.eq_dec x x); [|congruence]. symmetry. apply notin_remove, Hx.
  - destruct (Nat.eq_dec (nth i l O) x) as [He|He].
    + exfalso. apply Hx. rewrite <- He. apply nth_In. lia.
    + simpl. f_equal. apply IH; [exact Hnd'|lia].
Qed.

Lemma NoDup_map_nth (ids rows : list nat) :
  NoDup ids -> NoDup rows -> (forall r, In r rows -> (r < length ids)%nat) ->
  NoDup (map (fun r => nth r ids O) rows).
Proof.
  intros Hids. induction 1 as [|r rows Hr Hnd IH]; intros Hlt; simpl; constructor.
  - intros Hin. apply in_map_iff in Hin. destruct Hin as (r' & He & Hr').
    apply (proj1 (NoDup_nth ids O) Hids) in He; [subst; tauto| |]; apply Hlt; simpl; tauto.
  - apply IH. intros r' H. apply Hlt. right. exact H.
Qed.

(** The loop is a run of [greedy] for any selection rule [sel] that the
    pair chosen by [np.argmin] satisfies. *)
Lemma match_loop_greedy (sel : list nat -> list nat -> nat -> nat -> Prop)
    (fuel : nat) (D : list (list fval)) (ids : list nat) (dets : list obs)
    (dist : nat -> nat -> fval) (rows cols : list nat) (s s' : tracker)
    (rows' cols' : list nat) (log : list (nat * nat)) :
  (forall rows0 cols0 i j v,
     (forall r c, In r rows0 -> In c cols0 -> ent D r c = dist r c) ->
     argmin (submatrix D rows0 cols0) = Some (i, j, v) ->
     sel rows0 cols0 (nth i rows0 O) (nth j cols0 O)) ->
  (forall r c, In r rows -> In c cols -> ent D r c = dist r c) ->
  NoDup rows -> NoDup cols -> (length rows <= fuel)%nat ->
  match_loop fuel D ids dets rows cols s = Some (s', rows', cols', log) ->
  greedy ids dets dist sel rows cols s rows' cols' s' log.
Proof.
  intros Hsel. revert rows cols s s' rows' cols' log.
  induction fuel as [|fuel IH]; intros rows cols s s' rows' cols' log HD Hr Hc Hlen Hm.
  - cbn [match_loop] in Hm. injection Hm as <- <- <- <-.
    destruct rows; [|simpl in Hlen; lia]. apply greedy_exhausted. left; reflexivity.
  - destruct rows as [|r0 rs].
    { cbn [match_loop] in Hm. injection Hm as <- <- <- <-. apply greedy_exhausted. left; reflexivity. }
    destruct cols as [|c0 cs].
    { cbn [match_loop] in Hm. injection Hm as <- <- <- <-. apply greedy_exhausted. right; reflexivity. }
    cbn [match_loop] in Hm.
    set (rows := r0 :: rs) in *. set (cols := c0 :: cs) in *.
    destruct (argmin (submatrix D rows cols)) as [[[i j] v]|] eqn:Ea;
      cbn [obind] in Hm; [|discriminate].
    assert (Hsl := Hsel rows cols i j v HD Ea).
    apply argmin_in, in_submatrix in Ea. destruct Ea as (Hi & Hj & Hv).
    set (row := nth i rows O) in *. set (col := nth j cols O) in *.
    assert (HDrc : ent D row col = dist row col) by (apply HD; apply nth_In; assumption).
    destruct (flt (ent D row col) fthreshold) eqn:Ef.
    + unfold assign in Hm.
      destruct (dict_get (nth row ids O) (paths s)) as [h|] eqn:Eh; cbn [obind] in Hm; [|discriminate].
      destruct (match_loop fuel D ids dets (remove_at i rows) (remove_at j cols) _)
        as [[[[s2 r2] c2] l2]|] eqn:Eloop; cbn [obind] in Hm; [|discriminate].
      injection Hm as <- <- <- <-.
      rewrite (remove_at_nodup i rows Hr Hi), (remove_at_nodup j cols Hc Hj) in Eloop.
      fold row col in Eloop.
      eapply greedy_match; [exact Hsl| |exact Eh|].
      * rewrite <- HDrc. exact Ef.
      * eapply IH; [| | | |exact Eloop].
        -- intros r c H1 H2. apply in_remove in H1, H2. apply HD; tauto.
        -- apply NoDup_remove_nat, Hr.
        -- apply NoDup_remove_nat, Hc.
        -- assert (Hl := remove_length_lt Nat.eq_dec rows row (nth_In rows O Hi)). lia.
    + injection Hm as <- <- <- <-. eapply greedy_stop; [exact Hsl|].
      rewrite <- HDrc. exact Ef.
Qed.

Lemma cand_in (rows cols : list nat) (r c : nat) :
  cand rows cols r c -> In r rows /\ In c cols.
Proof. exact (fun H => H). Qed.

Lemma is_min_in (dist : nat -> nat -> fval) (rows cols : list nat) (r c : nat) :
  is_min dist rows cols r c -> In r rows /\ In c cols.
Proof. intros (H1 & H2 & _). split; assumption. Qed.

(** The loop commits, or stops at, remaining pairs. *)
Lemma match_loop_cand (fuel : nat) (D : list (list fval)) (ids : list nat) (dets : list obs)
    (rows cols : list nat) (s s' : tracker) (rows' cols' : list nat) (log : list (nat * nat)) :
  NoDup rows -> NoDup cols -> (length rows <= fuel)%nat ->
  match_loop fuel D ids dets rows cols s = Some (s', rows', cols', log) ->
  greedy ids dets (ent D) cand rows cols s rows' cols' s' log.
Proof.
  intros Hr Hc Hlen Hm. eapply match_loop_greedy; [|intros; reflexivity|exact Hr|exact Hc|exact Hlen|exact Hm].
  intros rows0 cols0 i j v _ Ea. apply argmin_in, in_submatrix in Ea.
  destruct Ea as (Hi & Hj & _). split; apply nth_In; assumption.
Qed.

(** Under the comparison laws, the loop commits, or stops at, smallest
    remaining pairs. *)
Lemma match_loop_min {DL : DistLaws} (fuel : nat) (D : list (list fval)) (ids : list nat)
    (dets : list obs) (dist : nat -> nat -> fval) (rows cols : list nat) (s s' : tracker)
    (rows' cols' : list nat) (log : list (nat * nat)) :
  (forall r c, In r rows -> In c cols -> ent D r c = dist r c) ->
  NoDup rows -> NoDup cols -> (length rows <= fuel)%nat ->
  match_loop fuel D ids dets rows cols s = Some (s', rows', cols', log) ->
  greedy ids dets dist (is_min dist) rows cols s rows' cols' s' log.
Proof.
  intros HD Hr Hc Hlen Hm. eapply match_loop_greedy; [|exact HD|exact Hr|exact Hc|exact Hlen|exact Hm].
  intros rows0 cols0 i j v HD0 Ea.
  assert (Hin := argmin_in _ _ Ea). apply in_submatrix in Hin. destruct Hin as (Hi & Hj & Hv).
  split; [apply nth_In; exact Hi|split; [apply nth_In; exact Hj|]].
  intros r' c' Hr' Hc'.
  destruct (In_nth rows0 r' O Hr') as (i' & Hi' & Er').
  destruct (In_nth cols0 c' O Hc') as (j' & Hj' & Ec').
  assert (Hy : In (i', j', ent D r' c') (submatrix D rows0 cols0)).
  { apply in_submatrix. rewrite Er', Ec'. split; [lia|split; [lia|reflexivity]]. }
  assert (H := argmin_min _ _ Ea _ Hy). simpl in H. rewrite Hv in H.
  rewrite <- (HD0 r' c' Hr' Hc'), <- HD0 by (apply nth_In; assumption). exact H.
Qed.

Lemma nth_ids_neq (ids : list nat) (r1 r2 : nat) :
  NoDup ids -> (r1 < length ids)%nat -> (r2 < length ids)%nat -> r1 <> r2 ->
  nth r1 ids O <> nth r2 ids O.
Proof.
  intros Hnd H1 H2 Hne He. apply Hne. exact (proj1 (NoDup_nth ids O) Hnd r1 r2 H1 H2 He).
Qed.

Lemma greedy_effect (sel : list nat -> list nat -> nat -> nat -> Prop)
    (ids : list nat) (dets : list obs) (dist : nat -> nat -> fval)
    (rows cols : list nat) (s : tracker) (rows' cols' : list nat) (s' : tracker)
    (log : list (nat * nat)) :
  (forall rows0 cols0 r c, sel rows0 cols0 r c -> In r rows0 /\ In c cols0) ->
  greedy ids dets dist sel rows cols s rows' cols' s' log ->
  NoDup rows -> NoDup cols -> NoDup ids -> (forall r, In r rows -> (r < length ids)%nat) ->
  keys (paths s) = keys (disappeared s) ->
  keys (paths s') = keys (paths s) /\ keys (disappeared s') = keys (disappeared s)
  /\ next_id s' = next_id s /\ max_disappeared s' = max_disappeared s
  /\ NoDup rows' /\ NoDup cols'
  /\ NoDup (map fst log) /\ NoDup (map snd log)
  /\ (forall r c, In (r, c) log -> In r rows /\ In c cols)
  /\ (forall r, In r rows' <-> In r rows /\ forall c, ~ In (r, c) log)
  /\ (forall c, In c cols' <-> In c cols /\ forall r, ~ In (r, c) log)
  /\ (forall k, (forall r c, In (r, c) log -> nth r ids O <> k) ->
        dict_get k (paths s') = dict_get k (paths s)
        /\ dict_get k (disappeared s') = dict_get k (disappeared s))
  /\ (forall r c, In (r, c) log -> exists h,
        dict_get (nth r ids O) (paths s) = Some h
        /\ dict_get (nth r ids O) (paths s') = Some (h ++ [nth c dets []])
        /\ dict_get (nth r ids O) (disappeared s') = Some O).
Proof.
  intros Hsel. induction 1 as [rows cols s Hex|rows cols s r c Hmin Hge
                 |rows cols s r c h rows' cols' s' log Hmin Hlt Eh Hg IH];
    intros Hr Hc Hids Hlen Hk.
  - repeat split; auto; simpl; try tauto; try constructor; simpl in *; tauto.
  - repeat split; auto; simpl; try tauto; try constructor; simpl in *; tauto.
  - destruct (Hsel _ _ _ _ Hmin) as [Hrin Hcin].
    set (k := nth r ids O) in *.
    assert (Hkp : In k (keys (paths s))) by (apply dict_get_in; eauto).
    assert (Hkd : In k (keys (disappeared s))) by congruence.
    destruct IH as (K1 & K2 & N1 & M1 & ND1 & ND2 & NF & NS & Lin & Rw & Cl & Unch & Mt).
    { apply NoDup_remove_nat, Hr. }
    { apply NoDup_remove_nat, Hc. }
    { exact Hids. }
    { intros x Hx. apply in_remove in Hx. apply Hlen. tauto. }
    { simpl. rewrite keys_set_in by exact Hkp. rewrite keys_set_in by exact Hkd. exact Hk. }
    simpl in K1, K2, N1, M1.
    rewrite keys_set_in in K1 by exact Hkp. rewrite keys_set_in in K2 by exact Hkd.
    assert (Hdist : forall r2 c2, In (r2, c2) log -> k <> nth r2 ids O).
    { intros r2 c2 H. destruct (Lin r2 c2 H) as [H1 _]. apply in_remove in H1.
      apply nth_ids_neq; [exact Hids|apply Hlen; exact Hrin|apply Hlen; tauto|intuition]. }
    split; [exact K1|split; [exact K2|split; [exact N1|split; [exact M1|]]]].
    split; [exact ND1|split; [exact ND2|]].
    split; [|split; [|split; [|split; [|split; [|split]]]]].
    + simpl. constructor; [|exact NF]. intros Hin. apply in_map_iff in Hin.
      destruct Hin as ([r2 c2] & Heq & Hin). simpl in Heq; subst r2.
      destruct (Lin r c2 Hin) as [H1 _]. apply (remove_In Nat.eq_dec rows r), H1.
    + simpl. constructor; [|exact NS]. intros Hin. apply in_map_iff in Hin.
      destruct Hin as ([r2 c2] & Heq & Hin). simpl in Heq; subst c2.
      destruct (Lin r2 c Hin) as [_ H1]. apply (remove_In Nat.eq_dec cols c), H1.
    + intros r2 c2 [He|H].
      * injection He as <- <-. tauto.
      * destruct (Lin r2 c2 H) as [H1 H2]. apply in_remove in H1, H2. tauto.
    + intros x. rewrite Rw. split.
      * intros [H1 H2]. apply in_remove in H1. split; [tauto|].
        intros c2 [He|H]; [injection He as -> ->; tauto|exact (H2 c2 H)].
      * intros [H1 H2]. assert (Hx : x <> r) by (intros ->; exact (H2 c (or_introl eq_refl))).
        split; [apply in_in_remove; assumption|]. intros c2 H3. exact (H2 c2 (or_intror H3)).
    + intros x. rewrite Cl. split.
      * intros [H1 H2]. apply in_remove in H1. split; [tauto|].
        intros r2 [He|H]; [injection He as -> ->; tauto|exact (H2 r2 H)].
      * intros [H1 H2]. assert (Hx : x <> c) by (intros ->; exact (H2 r (or_introl eq_refl))).
        split; [apply in_in_remove; assumption|]. intros r2 H3. exact (H2 r2 (or_intror H3)).
    + intros k' Hk'. assert (Hne : k' <> k) by (intros ->; exact (Hk' r c (or_introl eq_refl) eq_refl)).
      destruct (Unch k' (fun r2 c2 H => Hk' r2 c2 (or_intror H))) as [A B].
      simpl in A, B. rewrite dict_get_set in A. rewrite dict_get_set in B. apply Nat.eqb_neq in Hne. rewrite Hne in A, B.
      split; assumption.
    + intros r2 c2 [He|H].
      * injection He as <- <-. exists h. split; [exact Eh|].
        destruct (Unch k (fun r2 c2 H => not_eq_sym (Hdist r2 c2 H))) as [A B].
        simpl in A, B. rewrite dict_get_set, Nat.eqb_refl in A. rewrite dict_get_set, Nat.eqb_refl in B. fold k. split; assumption.
      * destruct (Mt r2 c2 H) as (h2 & A & B & C). exists h2. split; [|split; assumption].
        simpl in A. rewrite dict_get_set in A.
        destruct (Nat.eqb_spec (nth r2 ids O) k) as [E|E]; [exfalso; exact (Hdist r2 c2 H (eq_sym E))|].
        exact A.
Qed.

(* ------------------------------------------------------------------ *)
(** * Lemmas on [update] *)

Lemma mapM_length {A B} (f : A -> option B) (l : list A) (l' : list B) :
  mapM f l = Some l' -> length l' = length l.
Proof.
  revert l'. induction l as [|x l IH]; intros l' H; simpl in H.
  - injection H as <-. reflexivity.
  - destruct (f x); cbn [obind] in H; [|discriminate].
    destruct (mapM f l) eqn:E; cbn [obind] in H; [|discriminate].
    injection H as <-. simpl. f_equal. apply IH. reflexivity.
Qed.

Lemma mapM_nth {A B} (f : A -> option B) (l : list A) (l' : list B) (da : A) (db : B) (i : nat) :
  mapM f l = Some l' -> (i < length l)%nat -> f (nth i l da) = Some (nth i l' db).
Proof.
  revert l' i. induction l as [|x l IH]; intros l' i H Hi; simpl in *; [lia|].
  destruct (f x) eqn:Ef; cbn [obind] in H; [|discriminate].
  destruct (mapM f l) eqn:E; cbn [obind] in H; [|discriminate].
  injection H as <-. destruct i as [|i]; [exact Ef|]. simpl. apply (IH l0 i eq_refl). lia.
Qed.

Lemma update_general_decomp (s : tracker) (dets : list obs) (s3 : tracker)
    (log : list (nat * nat)) :
  update_general s dets = Some (s3, log) ->
  exists prev D rows' cols' s1,
    mapM (fun k => let* h := dict_get k (paths s) in last_opt h) (keys (paths s)) = Some prev
    /\ dist_matrix prev dets = Some D
    /\ match_loop (length prev) D (keys (paths s)) dets
         (seq O (length prev)) (seq O (length dets)) s = Some (s1, rows', cols', log)
    /\ age_ids (map (fun r => nth r (keys (paths s)) O) rows')
               (seed (map (fun c => nth c dets []) cols') s1) = Some s3.
Proof.
  unfold update_general. intros H.
  destruct (mapM _ (keys (paths s))) as [prev|] eqn:E1; cbn [obind] in H; [|discriminate].
  destruct (dist_matrix prev dets) as [D|] eqn:E2; cbn [obind] in H; [|discriminate].
  rewrite length_seq in H.
  destruct (match_loop _ _ _ _ _ _ _) as [[[[s1 rows'] cols'] log']|] eqn:E3;
    cbn [obind] in H; [|discriminate].
  destruct (age_ids _ _) as [s3'|] eqn:E4; cbn [obind] in H; [|discriminate].
  injection H as <- <-. exists prev, D, rows', cols', s1. repeat split; assumption.
Qed.

(** What an [update] in the general case does to the state, given the
    outcome of its matching loop. *)
Lemma post_loop (s : tracker) (dets : list obs) (D : list (list fval))
    (rows' cols' : list nat) (s1 s3 : tracker) (log : list (nat * nat)) :
  inv s ->
  match_loop (length (keys (paths s))) D (keys (paths s)) dets
    (seq O (length (keys (paths s)))) (seq O (length dets)) s = Some (s1, rows', cols', log) ->
  age_ids (map (fun r => nth r (keys (paths s)) O) rows')
          (seed (map (fun c => nth c dets []) cols') s1) = Some s3 ->
  inv s3
  /\ (next_id s <= next_id s3)%nat /\ max_disappeared s3 = max_disappeared s
  /\ (forall k, (k < next_id s)%nat -> dict_get k (paths s) = None -> dict_get k (paths s3) = None)
  /\ (forall k h, dict_get k (paths s) = Some h -> dict_get k (paths s3) = Some h ->
        exists c, dict_get k (disappeared s) = Some c /\ dict_get k (disappeared s3) = Some (S c))
  /\ NoDup (map fst log) /\ NoDup (map snd log)
  /\ (forall r c, In (r, c) log -> exists h,
        dict_get (nth r (keys (paths s)) O) (paths s) = Some h
        /\ dict_get (nth r (keys (paths s)) O) (paths s3) = Some (h ++ [nth c dets []])
        /\ dict_get (nth r (keys (paths s)) O) (disappeared s3) = Some O)
  /\ (forall k h, dict_get k (paths s) = Some h ->
        (forall r c, In (r, c) log -> nth r (keys (paths s)) O <> k) ->
        dict_get k (paths s3) = None \/ dict_get k (paths s3) = Some h)
  /\ next_id s3 = (next_id s + length cols')%nat
  /\ (forall i, (i < length cols')%nat ->
        dict_get (next_id s + i) (paths s3) = Some [nth (nth i cols' O) dets []]
        /\ dict_get (next_id s + i) (disappeared s3) = Some O).
Proof.
  intros Hinv Hloop Hage.
  set (ids := keys (paths s)) in *. set (n := length ids) in *.
  assert (Hg := match_loop_cand n D ids dets (seq O n) (seq O (length dets))
                  s s1 rows' cols' log (seq_NoDup n O) (seq_NoDup _ O)
                  (Nat.eq_le_incl _ _ (length_seq n O)) Hloop).
  assert (Hlen : forall r, In r (seq O n) -> (r < length ids)%nat)
    by (intros r Hr; apply in_seq in Hr; unfold n in Hr; lia).
  destruct (greedy_effect _ _ _ _ _ _ _ _ _ _ _ cand_in Hg (seq_NoDup _ _) (seq_NoDup _ _)
              (inv_nodup _ Hinv) Hlen (inv_keys _ Hinv))
    as (K1 & K2 & N1 & M1 & ND1 & ND2 & NF & NS & Lin & Rw & Cl & Unch & Mt).
  (* the state after the loop *)
  assert (Hinv1 : inv s1).
  { destruct Hinv as [Hk Hnd Hb Hf]. constructor.
    - rewrite K1, K2. exact Hk.
    - rewrite K1. exact Hnd.
    - intros k c H. rewrite M1.
      destruct (in_dec Nat.eq_dec k (map (fun rc => nth (fst rc) ids O) log)) as [Hin|Hin].
      + apply in_map_iff in Hin. destruct Hin as ([r c'] & Hr & Hin). simpl in Hr; subst k.
        destruct (Mt r c' Hin) as (h & _ & _ & C). rewrite C in H. injection H as <-. lia.
      + assert (Hnot : forall r c', In (r, c') log -> nth r ids O <> k).
        { intros r c' H' He. apply Hin, in_map_iff. exists (r, c'). split; [exact He|exact H']. }
        rewrite (proj2 (Unch k Hnot)) in H. eapply Hb; exact H.
    - intros k H. rewrite N1. apply Hf. rewrite <- K1. exact H. }
  set (ds := map (fun c => nth c dets []) cols') in *.
  destruct (seed_spec ds s1 Hinv1) as (Hinv2 & N2 & M2 & G2).
  set (s2 := seed ds s1) in *.
  set (ks := map (fun r => nth r ids O) rows') in *.
  assert (Hrows' : forall r, In r rows' -> (r < n)%nat).
  { intros r Hr. apply Rw in Hr. destruct Hr as [Hr _]. apply in_seq in Hr. lia. }
  assert (Hlog : forall r c, In (r, c) log -> (r < n)%nat).
  { intros r c H. destruct (Lin r c H) as [Hr _]. apply in_seq in Hr. lia. }
  assert (Hks_nd : NoDup ks)
    by (apply NoDup_map_nth; [exact (inv_nodup _ Hinv)|exact ND1|exact Hrows']).
  assert (Hid_lt : forall r, (r < n)%nat -> (nth r ids O < next_id s)%nat)
    by (intros r Hr; apply (inv_fresh _ Hinv), nth_In, Hr).
  assert (H21 : forall k, (k < next_id s)%nat ->
            dict_get k (paths s2) = dict_get k (paths s1)
            /\ dict_get k (disappeared s2) = dict_get k (disappeared s1)).
  { intros k Hk. destruct (G2 k) as [A B]. rewrite N1 in A, B.
    destruct (Nat.leb_spec (next_id s) k); [lia|]. cbn [andb] in A, B. split; assumption. }
  assert (Hks_in : forall k, In k ks -> In k (keys (paths s2))).
  { intros k Hk. apply in_map_iff in Hk. destruct Hk as (r & <- & Hr). apply Hrows' in Hr.
    apply dict_get_in. rewrite (proj1 (H21 _ (Hid_lt r Hr))). apply dict_get_in.
    rewrite K1. apply nth_In, Hr. }
  destruct (age_ids_spec ks s2 Hinv2 Hks_nd Hks_in)
    as (s3' & Ha & Hinv3 & N3 & M3 & Un3 & Ch3 & I3).
  rewrite Hage in Ha. injection Ha as <-.
  assert (H32 : forall k, dict_get k (paths s3) = None
                          \/ dict_get k (paths s3) = dict_get k (paths s2)).
  { intros k. destruct (in_dec Nat.eq_dec k ks) as [Hk|Hk].
    - destruct (Ch3 k Hk) as (c & _ & _ & C). rewrite C.
      destruct (Nat.ltb _ _); [left|right]; reflexivity.
    - right. apply (proj1 (Un3 k Hk)). }
  assert (Hks_lt : forall k, In k ks -> (k < next_id s)%nat).
  { intros k Hk. apply in_map_iff in Hk. destruct Hk as (r & <- & Hr). apply Hid_lt, Hrows', Hr. }
  split; [exact Hinv3|].
  split; [rewrite N3, N2, N1; lia|].
  split; [rewrite M3, M2, M1; reflexivity|].
  split; [|split; [|split; [exact NF|split; [exact NS|split; [|split]]]]].
  - (* identifiers absent below [next_id] stay absent *)
    intros k Hk Hnone.
    assert (Hnot : forall r c, In (r, c) log -> nth r ids O <> k).
    { intros r c H He. destruct (Mt r c H) as (h & A & _). rewrite He, Hnone in A. discriminate. }
    destruct (H32 k) as [A|A]; [exact A|].
    rewrite A, (proj1 (H21 k Hk)), (proj1 (Unch k Hnot)). exact Hnone.
  - (* an unmatched surviving track has one more missed frame *)
    intros k h Hh Hh3.
    assert (Hkin : In k ids) by (apply dict_get_in; eauto).
    assert (Hk : (k < next_id s)%nat) by (apply (inv_fresh _ Hinv), Hkin).
    assert (Hnot : forall r c, In (r, c) log -> nth r ids O <> k).
    { intros r c H He. destruct (Mt r c H) as (h' & A & B & _). rewrite He in A, B.
      rewrite Hh in A. injection A as <-.
      destruct (H32 k) as [C|C]; rewrite Hh3 in C; [discriminate|].
      rewrite (proj1 (H21 k Hk)), B in C. injection C as C.
      apply (f_equal (@length obs)) in C. rewrite length_app in C. simpl in C. lia. }
    destruct (In_nth ids k O Hkin) as (r & Hr & Er).
    assert (Hrin : In r rows').
    { apply Rw. split; [apply in_seq; unfold n; lia|].
      intros c H. exact (Hnot r c H Er). }
    assert (Hkks : In k ks) by (apply in_map_iff; exists r; split; assumption).
    destruct (Ch3 k Hkks) as (c & C1 & C2 & C3). exists c.
    rewrite (proj2 (H21 k Hk)), (proj2 (Unch k Hnot)) in C1. split; [exact C1|].
    rewrite C2. unfold aged. rewrite M2, M1 in *.
    destruct (Nat.ltb _ _); [rewrite Hh3 in C3; discriminate|reflexivity].
  - (* matched tracks *)
    intros r c H. destruct (Mt r c H) as (h & A & B & C). exists h. split; [exact A|].
    assert (Hr := Hlog r c H).
    assert (Hnk : ~ In (nth r ids O) ks).
    { intros Hin. apply in_map_iff in Hin. destruct Hin as (r2 & He & Hr2).
      assert (r2 = r).
      { apply (proj1 (NoDup_nth ids O) (inv_nodup _ Hinv)); [apply Hrows'; exact Hr2|exact Hr|exact He]. }
      subst r2. apply Rw in Hr2. exact (proj2 Hr2 c H). }
    rewrite (proj1 (Un3 _ Hnk)), (proj1 (H21 _ (Hid_lt r Hr))),
            (proj2 (Un3 _ Hnk)), (proj2 (H21 _ (Hid_lt r Hr))). split; assumption.
  - (* unmatched tracks keep their history or disappear *)
    intros k h Hh Hnot.
    assert (Hk : (k < next_id s)%nat) by (apply (inv_fresh _ Hinv), dict_get_in; eauto).
    destruct (H32 k) as [A|A]; [left; exact A|right].
    rewrite A, (proj1 (H21 k Hk)), (proj1 (Unch k Hnot)). exact Hh.
  - (* unmatched detections seed new tracks, under consecutive fresh ids *)
    assert (Hlds : length ds = length cols') by apply length_map.
    split; [rewrite N3, N2, N1, Hlds; reflexivity|].
    intros t Ht.
    assert (Hnk : ~ In (next_id s + t)%nat ks) by (intros Hin; apply Hks_lt in Hin; lia).
    rewrite (proj1 (Un3 _ Hnk)), (proj2 (Un3 _ Hnk)).
    destruct (G2 (next_id s + t)%nat) as [A B]. rewrite A, B, N1.
    destruct (Nat.leb_spec (next_id s) (next_id s + t)); [|lia].
    destruct (Nat.ltb_spec (next_id s + t) (next_id s + length ds)); [|lia].
    cbn [andb]. split; [|reflexivity].
    replace (next_id s + t - next_id s)%nat with t by lia.
    unfold ds. clear -Ht. revert t Ht.
    induction cols' as [|x l IH]; intros [|t] Ht; simpl in *; try lia; [reflexivity|].
    apply IH. lia.
Qed.

Lemma update_spec (s : tracker) (ds : list obs) (s' : tracker) :
  inv s -> update s ds = Some s' ->
  inv s' /\ (next_id s <= next_id s')%nat /\ max_disappeared s' = max_disappeared s
  /\ (forall k, (k < next_id s)%nat -> dict_get k (paths s) = None -> dict_get k (paths s') = None)
  /\ (forall k h, dict_get k (paths s) = Some h -> dict_get k (paths s') = Some h ->
        exists c, dict_get k (disappeared s) = Some c /\ dict_get k (disappeared s') = Some (S c)).
Proof.
  intros Hinv. unfold update.
  destruct (Nat.eqb_spec (length ds) O) as [Hd|Hd].
  - intros Ha.
    assert (Hks : forall k, In k (keys (disappeared s)) -> In k (keys (paths s)))
      by (rewrite (inv_keys _ Hinv); tauto).
    assert (Hnd : NoDup (keys (disappeared s)))
      by (rewrite <- (inv_keys _ Hinv); exact (inv_nodup _ Hinv)).
    destruct (age_ids_spec _ s Hinv Hnd Hks) as (s3 & Ha' & Hinv3 & N3 & M3 & Un3 & Ch3 & I3).
    rewrite Ha in Ha'. injection Ha' as <-.
    split; [exact Hinv3|split; [lia|split; [exact M3|split]]].
    + intros k Hk Hn. destruct (in_dec Nat.eq_dec k (keys (disappeared s))) as [Hin|Hin].
      * destruct (Ch3 k Hin) as (c & _ & _ & C). rewrite C, Hn. destruct (Nat.ltb _ _); reflexivity.
      * rewrite (proj1 (Un3 k Hin)). exact Hn.
    + intros k h Hh Hh'.
      assert (Hin : In k (keys (disappeared s)))
        by (rewrite <- (inv_keys _ Hinv); apply dict_get_in; eauto).
      destruct (Ch3 k Hin) as (c & C1 & C2 & C3). exists c. split; [exact C1|].
      rewrite C2. unfold aged.
      destruct (Nat.ltb _ _); [rewrite Hh' in C3; discriminate|reflexivity].
  - destruct (Nat.eqb_spec (length (paths s)) O) as [Hp|Hp].
    + intros Ha. injection Ha as <-. destruct (seed_spec ds s Hinv) as (Hinv2 & N2 & M2 & G2).
      split; [exact Hinv2|split; [lia|split; [exact M2|split]]].
      * intros k Hk Hn. destruct (G2 k) as [A _]. rewrite A.
        destruct (Nat.leb_spec (next_id s) k); [lia|]. exact Hn.
      * intros k h Hh. destruct (paths s); [simpl in Hh; discriminate|simpl in Hp; lia].
    + destruct (update_general s ds) as [[s3 log]|] eqn:Eg; cbn [obind]; [|discriminate].
      intros Ha. injection Ha as <-. simpl.
      destruct (update_general_decomp _ _ _ _ Eg)
        as (prev & D & rows' & cols' & s1 & E1 & E2 & E3 & E4).
      rewrite (mapM_length _ _ _ E1) in E3.
      destruct (post_loop s ds D rows' cols' s1 s3 log Hinv E3 E4)
        as (P1 & P2 & P3 & P4 & P5 & _).
      split; [exact P1|split; [exact P2|split; [exact P3|split; assumption]]].
Qed.

Lemma run_inv (s0 : tracker) (dss : list (list obs)) (s : tracker) :
  inv s0 -> run s0 dss = Some s -> inv s.
Proof.
  revert s0. induction dss as [|ds dss IH]; intros s0 Hinv H; simpl in H.
  - injection H as <-. exact Hinv.
  - destruct (update s0 ds) as [s1|] eqn:E; cbn [obind] in H; [|discriminate].
    apply (IH s1); [exact (proj1 (update_spec _ _ _ Hinv E))|exact H].
Qed.

Lemma run_trace_spec (s0 : tracker) (dss : list (list obs)) (sts : list tracker) :
  inv s0 -> run_trace s0 dss = Some sts ->
  length sts = S (length dss) /\ (forall d, nth O sts d = s0)
  /\ (forall i d, (i < length sts)%nat -> inv (nth i sts d))
  /\ (forall i d, (S i < length sts)%nat -> update (nth i sts d) (nth i dss []) = Some (nth (S i) sts d)).
Proof.
  revert s0 sts. induction dss as [|ds dss IH]; intros s0 sts Hinv H; simpl in H.
  - injection H as <-. simpl. split; [reflexivity|split; [reflexivity|split]].
    + intros [|i] d Hi; [exact Hinv|simpl in Hi; lia].
    + intros i d Hi. simpl in Hi. lia.
  - destruct (update s0 ds) as [s1|] eqn:E; cbn [obind] in H; [|discriminate].
    destruct (run_trace s1 dss) as [sts'|] eqn:E'; cbn [obind] in H; [|discriminate].
    injection H as <-.
    destruct (IH s1 sts' (proj1 (update_spec _ _ _ Hinv E)) E') as (L & H0 & Hi & Hs).
    simpl. split; [rewrite L; reflexivity|split; [reflexivity|split]].
    + intros [|i] d Hlt; [exact Hinv|apply Hi; simpl in Hlt; lia].
    + intros [|i] d Hlt.
      * simpl. rewrite H0. exact E.
      * simpl. apply Hs. simpl in Hlt. lia.
Qed.

Lemma run_trace_head (s0 : tracker) (dss : list (list obs)) (sts : list tracker) :
  run_trace s0 dss = Some sts -> exists rest, sts = s0 :: rest.
Proof.
  destruct dss as [|ds dss]; simpl; intros H.
  - injection H as <-. eauto.
  - destruct (update s0 ds); cbn [obind] in H; [|discriminate].
    destruct (run_trace _ dss); cbn [obind] in H; [|discriminate].
    injection H as <-. eauto.
Qed.

Lemma issued_spec (s0 : tracker) (dss : list (list obs)) (sts : list tracker) :
  inv s0 -> run_trace s0 dss = Some sts ->
  NoDup (issued sts)
  /\ (forall k, In k (issued sts) -> (next_id s0 <= k)%nat)
  /\ Sorted le (map next_id sts).
Proof.
  revert s0 sts. induction dss as [|ds dss IH]; intros s0 sts Hinv H; simpl in H.
  - injection H as <-. simpl. split; [constructor|split; [tauto|]].
    repeat constructor.
  - destruct (update s0 ds) as [s1|] eqn:E; cbn [obind] in H; [|discriminate].
    destruct (run_trace s1 dss) as [sts'|] eqn:E'; cbn [obind] in H; [|discriminate].
    injection H as <-.
    destruct (update_spec _ _ _ Hinv E) as (Hinv1 & N1 & _ & Habs & _).
    destruct (IH s1 sts' Hinv1 E') as (ND & Lo & So).
    destruct (run_trace_head _ _ _ E') as (rest & ->).
    assert (Hfr : forall k, In k (fresh_ids s0 s1) -> (next_id s0 <= k < next_id s1)%nat).
    { intros k Hk. unfold fresh_ids in Hk. apply filter_In in Hk. destruct Hk as [Hk Hn].
      destruct (dict_get k (paths s0)) eqn:Ek; [discriminate|].
      split; [|apply (inv_fresh _ Hinv1), Hk].
      destruct (Nat.lt_ge_cases k (next_id s0)) as [Hlt|]; [|assumption].
      exfalso. apply dict_get_in in Hk. destruct Hk as [v Hv].
      rewrite (Habs k Hlt Ek) in Hv. discriminate. }
    change (issued (s0 :: s1 :: rest)) with (fresh_ids s0 s1 ++ issued (s1 :: rest)).
    split; [|split].
    + apply NoDup_app; [apply NoDup_filter, (inv_nodup _ Hinv1)|exact ND|].
      intros k H1 H2. apply Hfr in H1. apply Lo in H2. lia.
    + intros k Hk. apply in_app_or in Hk as [Hk|Hk]; [apply Hfr in Hk; lia|apply Lo in Hk; lia].
    + simpl. constructor; [exact So|]. constructor. exact N1.
Qed.

Lemma dict_set_notin {V} (k : nat) (v : V) (d : dict V) :
  ~ In k (keys d) -> dict_set k v d = d ++ [(k, v)].
Proof.
  induction d as [|[k0 v0] r IH]; simpl; intros H; [reflexivity|].
  destruct (Nat.eqb_spec k k0); [subst; tauto|]. f_equal. apply IH. tauto.
Qed.

Lemma seed_fresh (ds : list obs) (p : dict (list obs)) (d : dict nat) (n m : nat) :
  (forall k, In k (keys p) -> (k < n)%nat) -> (forall k, In k (keys d) -> (k < n)%nat) ->
  seed ds (mk_tracker p d n m) =
  mk_tracker (p ++ map (fun '(k, o) => (k, [o])) (combine (seq n (length ds)) ds))
             (d ++ map (fun k => (k, O)) (seq n (length ds)))
             (n + length ds) m.
Proof.
  revert p d n. induction ds as [|o ds IH]; intros p d n Hp Hd; simpl.
  - rewrite !app_nil_r, Nat.add_0_r. reflexivity.
  - rewrite (dict_set_notin n [o] p) by (intros H; apply Hp in H; lia).
    rewrite (dict_set_notin n O d) by (intros H; apply Hd in H; lia).
    rewrite IH.
    + rewrite <- !app_assoc. simpl. f_equal. lia.
    + intros k Hk. unfold keys in Hk. rewrite map_app in Hk. apply in_app_or in Hk as [Hk|[<-|[]]];
        [apply Hp in Hk; lia|simpl; lia].
    + intros k Hk. unfold keys in Hk. rewrite map_app in Hk. apply in_app_or in Hk as [Hk|[<-|[]]];
        [apply Hd in Hk; lia|simpl; lia].
Qed.

Lemma run_new_inv (pre : list (list obs)) (s : tracker) :
  run tracker_new pre = Some s -> inv s.
Proof. intros H. exact (run_inv _ _ _ inv_new H). Qed.

Lemma last_opt_last {A} (l : list A) (x d : A) : last_opt l = Some x -> x = last l d.
Proof.
  induction l as [|y l IH]; intros H; [discriminate|].
  destruct l as [|z l]; [injection H as <-; reflexivity|].
  apply IH. exact H.
Qed.

(** Each entry of the distance matrix is numpy's distance between the
    last observation of a track and a detection. *)
Lemma dist_matrix_entry (s : tracker) (dets : list obs) (prev : list obs)
    (D : list (list fval)) (r c : nat) :
  mapM (fun k => let* h := dict_get k (paths s) in last_opt h) (keys (paths s)) = Some prev ->
  dist_matrix prev dets = Some D ->
  (r < length (keys (paths s)))%nat -> (c < length dets)%nat ->
  exists h, dict_get (nth r (keys (paths s)) O) (paths s) = Some h
    /\ fnorm (firstn 2 (last h [])) (firstn 2 (nth c dets [])) = Some (ent D r c).
Proof.
  intros Hprev HD Hr Hc.
  assert (Hp := mapM_nth _ _ _ O [] r Hprev Hr). cbv beta in Hp.
  destruct (dict_get (nth r (keys (paths s)) O) (paths s)) as [h|] eqn:Eh;
    cbn [obind] in Hp; [|discriminate].
  apply (last_opt_last _ _ []) in Hp.
  assert (Hrp : (r < length prev)%nat) by (rewrite (mapM_length _ _ _ Hprev); exact Hr).
  assert (Hrow := mapM_nth _ _ _ [] [] r HD Hrp). cbv beta in Hrow.
  assert (Hent := mapM_nth _ _ _ [] fzero c Hrow Hc). cbv beta in Hent.
  exists h. split; [reflexivity|]. unfold ent. rewrite Hp in Hent. exact Hent.
Qed.

(** The distance matrix of the source holds the distances of the spec's
    description, [track_dist]. *)
Lemma dist_matrix_track_dist (s : tracker) (dets : list obs) (prev : list obs)
    (D : list (list fval)) (r c : nat) :
  mapM (fun k => let* h := dict_get k (paths s) in last_opt h) (keys (paths s)) = Some prev ->
  dist_matrix prev dets = Some D ->
  (r < length (keys (paths s)))%nat -> (c < length dets)%nat ->
  ent D r c = track_dist (keys (paths s)) (paths s) dets r c.
Proof.
  intros Hprev HD Hr Hc.
  destruct (dist_matrix_entry s dets prev D r c Hprev HD Hr Hc) as (h & Eh & Hf).
  unfold track_dist. rewrite Eh, Hf. reflexivity.
Qed.

Lemma update_general_of_update (s : tracker) (dets : list obs) (s' : tracker) :
  paths s <> [] -> dets <> [] -> update s dets = Some s' ->
  exists log, update_general s dets = Some (s', log).
Proof.
  intros Hp Hd H. unfold update in H.
  destruct dets as [|d ds]; [congruence|]. destruct (paths s) as [|x l] eqn:E; [congruence|].
  cbn [length Nat.eqb] in H.
  destruct (update_general s (d :: ds)) as [[s3 log]|]; cbn [obind] in H; [|discriminate].
  injection H as <-. exists log. reflexivity.
Qed.

(** The general case of [update], summarised for the claims below. *)
Lemma update_general_effect (s s' : tracker) (dets : list obs) :
  inv s -> paths s <> [] -> dets <> [] -> update s dets = Some s' ->
  exists prev D rows' cols' s1 log,
    mapM (fun k => let* h := dict_get k (paths s) in last_opt h) (keys (paths s)) = Some prev
    /\ dist_matrix prev dets = Some D
    /\ match_loop (length (keys (paths s))) D (keys (paths s)) dets
         (seq O (length (keys (paths s)))) (seq O (length dets)) s = Some (s1, rows', cols', log)
    /\ NoDup (map fst log) /\ NoDup (map snd log)
    /\ (forall r c, In (r, c) log -> (r < length (keys (paths s)))%nat /\ (c < length dets)%nat)
    /\ (forall r c, In (r, c) log -> exists h,
          dict_get (nth r (keys (paths s)) O) (paths s) = Some h
          /\ dict_get (nth r (keys (paths s)) O) (paths s') = Some (h ++ [nth c dets []])
          /\ dict_get (nth r (keys (paths s)) O) (disappeared s') = Some O)
    /\ (forall k h, dict_get k (paths s) = Some h ->
          (forall r c, In (r, c) log -> nth r (keys (paths s)) O <> k) ->
          dict_get k (paths s') = None \/ dict_get k (paths s') = Some h)
    /\ next_id s' = (next_id s + length cols')%nat
    /\ (forall i, (i < length cols')%nat ->
          dict_get (next_id s + i) (paths s') = Some [nth (nth i cols' O) dets []]
          /\ dict_get (next_id s + i) (disappeared s') = Some O).
Proof.
  intros Hinv Hp Hd Hu.
  destruct (update_general_of_update _ _ _ Hp Hd Hu) as [log Hg].
  destruct (update_general_decomp _ _ _ _ Hg) as (prev & D & rows' & cols' & s1 & E1 & E2 & E3 & E4).
  rewrite (mapM_length _ _ _ E1) in E3.
  destruct (post_loop _ _ _ _ _ _ _ _ Hinv E3 E4) as (_ & _ & _ & _ & _ & NF & NS & Mt & Un & Sd).
  set (n := length (keys (paths s))) in *.
  assert (Hg' := match_loop_cand n D (keys (paths s)) dets (seq O n) (seq O (length dets))
                  s s1 rows' cols' log (seq_NoDup n O) (seq_NoDup _ O)
                  (Nat.eq_le_incl _ _ (length_seq n O)) E3).
  assert (Hlen : forall r, In r (seq O n) -> (r < length (keys (paths s)))%nat)
    by (intros r Hr; apply in_seq in Hr; unfold n in Hr; lia).
  destruct (greedy_effect _ _ _ _ _ _ _ _ _ _ _ cand_in Hg' (seq_NoDup _ _) (seq_NoDup _ _)
              (inv_nodup _ Hinv) Hlen (inv_keys _ Hinv))
    as (_ & _ & _ & _ & _ & _ & _ & _ & Lin & _).
  exists prev, D, rows', cols', s1, log.
  do 5 (split; [assumption|]). split; [|split; [exact Mt|split; [exact Un|exact Sd]]].
  intros r c H. destruct (Lin r c H) as [A B]. apply in_seq in A, B. unfold n in A. lia.
Qed.

(* ------------------------------------------------------------------ *)
(* ------------------------------------------------------------------ *)
(** * The claims *)

(** C10. After every sequence of [update] calls from a new tracker, the ids
    with a stored history ([paths]) are exactly the ids with a missed-frame
    counter ([disappeared]); the two key lists are even equal, order
    included. *)
Theorem paths_disappeared_same_keys (pre : list (list obs)) (s : tracker) :
  run tracker_new pre = Some s ->
  keys (paths s) = keys (disappeared s)
  /\ forall k, In k (keys (paths s)) <-> In k (keys (disappeared s)).
Proof.
  intros H. assert (Hk := inv_keys _ (run_new_inv _ _ H)).
  split; [exact Hk|]. intros k. rewrite Hk. reflexivity.
Qed.

(** C5. [update] with an empty detection list on a reachable tracker
    succeeds; it increments every live counter by one, removes the track
    (history and counter) whose counter then exceeds [max_disappeared],
    creates no track, keeps every surviving history, and leaves
    [next_id] unchanged.  The returned mapping is [paths] of the new state. *)
Theorem update_empty_detections (pre : list (list obs)) (s : tracker) :
  run tracker_new pre = Some s ->
  exists s', update s [] = Some s'
    /\ next_id s' = next_id s /\ max_disappeared s' = max_disappeared s
    /\ forall k,
         dict_get k (disappeared s') =
           match dict_get k (disappeared s) with
           | Some c => aged (max_disappeared s) c
           | None => None
           end
         /\ dict_get k (paths s') =
           match dict_get k (disappeared s') with
           | Some _ => dict_get k (paths s)
           | None => None
           end.
Proof.
  intros H. assert (Hinv := run_new_inv _ _ H).
  assert (Hks : forall k, In k (keys (disappeared s)) -> In k (keys (paths s)))
    by (rewrite (inv_keys _ Hinv); tauto).
  assert (Hnd : NoDup (keys (disappeared s)))
    by (rewrite <- (inv_keys _ Hinv); exact (inv_nodup _ Hinv)).
  destruct (age_ids_spec _ s Hinv Hnd Hks) as (s' & Ha & _ & N & M & Un & Ch & _).
  exists s'. split; [exact Ha|split; [exact N|split; [exact M|]]].
  intros k. destruct (in_dec Nat.eq_dec k (keys (disappeared s))) as [Hin|Hin].
  - destruct (Ch k Hin) as (c & C1 & C2 & C3). rewrite C1, C2, C3. unfold aged.
    destruct (Nat.ltb _ _); split; reflexivity.
  - destruct (Un k Hin) as [A B]. rewrite A, B, (dict_get_notin _ _ Hin). split; [reflexivity|].
    apply dict_get_notin. rewrite (inv_keys _ Hinv). exact Hin.
Qed.

(** C4. On a reachable tracker with no live track, [update] with [N]
    detections creates exactly [N] tracks, with the consecutive ids
    [next_id .. next_id + N - 1] ([0 .. N-1] on a new tracker), each with the
    one-element history of its detection and a counter of 0. *)
Theorem update_cold_start (pre : list (list obs)) (s : tracker) (dets : list obs) :
  run tracker_new pre = Some s -> paths s = [] ->
  exists s', update s dets = Some s'
    /\ paths s' = map (fun '(k, d) => (k, [d])) (combine (seq (next_id s) (length dets)) dets)
    /\ disappeared s' = map (fun k => (k, O)) (seq (next_id s) (length dets))
    /\ next_id s' = (next_id s + length dets)%nat.
Proof.
  intros H Hp. assert (Hinv := run_new_inv _ _ H).
  assert (Hd : disappeared s = []).
  { assert (Hk := inv_keys _ Hinv). rewrite Hp in Hk.
    destruct (disappeared s); [reflexivity|discriminate]. }
  unfold update. destruct dets as [|d ds].
  - simpl. rewrite Hd. simpl. eexists; split; [reflexivity|].
    rewrite Hp, Hd, Nat.add_0_r. repeat split.
  - cbn [length Nat.eqb]. rewrite Hp. cbn [length Nat.eqb].
    destruct s as [p dd n m]. cbn [paths disappeared next_id] in *. subst p dd.
    rewrite seed_fresh by (intros ? []). eexists; split; [reflexivity|].
    cbn [paths disappeared next_id]. repeat split.
Qed.

(** C2. Along every sequence of [update] calls from a new tracker
    ([max_disappeared = 10]): an id is live exactly when it has a counter
    and that counter is at most [max_disappeared]; and a live track that
    receives no detection (its history is not extended) during
    [max_disappeared + 1] consecutive calls is absent from the mapping
    after them and at every later call. *)
Theorem track_removed_after_max_disappeared (dss : list (list obs)) (sts : list tracker) :
  run_trace tracker_new dss = Some sts ->
  (forall s, In s sts -> forall k,
      In k (keys (paths s)) <->
      exists c, dict_get k (disappeared s) = Some c /\ (c <= max_disappeared s)%nat)
  /\ (forall i k h,
      dict_get k (paths (nth i sts tracker_new)) = Some h ->
      (forall j, (i <= j < i + S (max_disappeared tracker_new))%nat ->
         dict_get k (paths (nth (S j) sts tracker_new)) = None
         \/ dict_get k (paths (nth (S j) sts tracker_new))
            = dict_get k (paths (nth j sts tracker_new))) ->
      forall j, (i + S (max_disappeared tracker_new) <= j < length sts)%nat ->
      dict_get k (paths (nth j sts tracker_new)) = None).
Proof.
  intros H. destruct (run_trace_spec _ _ _ inv_new H) as (L & H0 & Hinv & Hstep).
  assert (Hmax : forall i, (i < length sts)%nat -> max_disappeared (nth i sts tracker_new) = 10%nat).
  { induction i as [|i IH]; intros Hi.
    - rewrite H0. reflexivity.
    - rewrite <- (IH ltac:(lia)).
      exact (proj1 (proj2 (proj2 (update_spec _ _ _ (Hinv i tracker_new ltac:(lia))
                                      (Hstep i tracker_new Hi))))). }
  split.
  - intros s Hs k. destruct (In_nth sts s tracker_new Hs) as (i & Hi & <-).
    destruct (Hinv i tracker_new Hi) as [Hk _ Hb _]. rewrite Hk, <- dict_get_in.
    split; [intros [c Hc]; exists c; split; [exact Hc|eapply Hb; exact Hc]|].
    intros (c & Hc & _). eauto.
  - intros i k h Hh Hun.
    set (M := max_disappeared tracker_new) in *.
    (* within the window: absent, or present with a counter of at least t *)
    assert (Hwin : forall t, (t <= S M)%nat -> (i + t < length sts)%nat ->
              dict_get k (paths (nth (i + t) sts tracker_new)) = None
              \/ (dict_get k (paths (nth (i + t) sts tracker_new)) = Some h
                  /\ exists c, dict_get k (disappeared (nth (i + t) sts tracker_new)) = Some c
                               /\ (t <= c)%nat)).
    { induction t as [|t IHt]; intros Ht Hlt.
      - right. rewrite Nat.add_0_r in *. split; [exact Hh|].
        assert (Hin : In k (keys (disappeared (nth i sts tracker_new)))).
        { rewrite <- (inv_keys _ (Hinv i tracker_new Hlt)). apply dict_get_in. eauto. }
        apply dict_get_in in Hin. destruct Hin as [c Hc]. exists c. split; [exact Hc|lia].
      - replace (i + S t)%nat with (S (i + t)) in * by lia.
        destruct (IHt ltac:(lia) ltac:(lia)) as [Hn|(Hs & c & Hc & Hct)].
        + left. destruct (Hun (i + t)%nat ltac:(unfold M in *; lia)) as [A|A]; [exact A|].
          rewrite A. exact Hn.
        + destruct (Hun (i + t)%nat ltac:(unfold M in *; lia)) as [A|A]; [left; exact A|right].
          rewrite Hs in A. split; [exact A|].
          destruct (proj2 (proj2 (proj2 (proj2 (update_spec _ _ _ (Hinv (i + t)%nat tracker_new ltac:(lia))
                      (Hstep (i + t)%nat tracker_new Hlt))))) k h Hs A) as (c' & C1 & C2).
          rewrite Hc in C1. injection C1 as <-. exists (S c). split; [exact C2|lia]. }
    (* after the window, the id stays absent *)
    assert (Hlt0 : (i < length sts)%nat).
    { destruct (Nat.lt_ge_cases i (length sts)) as [|Hge]; [assumption|].
      rewrite nth_overflow in Hh by exact Hh || lia. simpl in Hh. discriminate. }
    assert (Hknid : (k < next_id (nth i sts tracker_new))%nat).
    { apply (inv_fresh _ (Hinv i tracker_new Hlt0)), dict_get_in. eauto. }
    intros j Hj.
    assert (Hgone : dict_get k (paths (nth (i + S M) sts tracker_new)) = None).
    { destruct (Hwin (S M) ltac:(lia) ltac:(lia)) as [Hn|(_ & c & Hc & Hcm)]; [exact Hn|].
      exfalso. assert (Hb := inv_bound _ (Hinv (i + S M)%nat tracker_new ltac:(lia)) k c Hc).
      rewrite Hmax in Hb by lia. unfold M in Hcm. simpl in Hcm. lia. }
    assert (Hnid : forall t, (i + t < length sts)%nat ->
              (next_id (nth i sts tracker_new) <= next_id (nth (i + t) sts tracker_new))%nat).
    { induction t as [|t IHt]; intros Ht; [rewrite Nat.add_0_r; lia|].
      replace (i + S t)%nat with (S (i + t)) by lia.
      etransitivity; [apply IHt; lia|].
      exact (proj1 (proj2 (update_spec _ _ _ (Hinv (i + t)%nat tracker_new ltac:(lia))
                                      (Hstep (i + t)%nat tracker_new ltac:(lia))))). }
    assert (Hafter : forall u, (i + S M + u < length sts)%nat ->
              dict_get k (paths (nth (i + S M + u) sts tracker_new)) = None).
    { induction u as [|u IHu]; intros Hu; [rewrite Nat.add_0_r; exact Hgone|].
      replace (i + S M + S u)%nat with (S (i + S M + u)) in * by lia.
      apply (proj1 (proj2 (proj2 (proj2 (update_spec _ _ _ (Hinv (i + S M + u)%nat tracker_new ltac:(lia))
                (Hstep (i + S M + u)%nat tracker_new Hu)))))).
      + assert (Hn := Hnid (S M + u)%nat ltac:(lia)). rewrite Nat.add_assoc in Hn. lia.
      + apply IHu. lia. }
    replace j with (i + S M + (j - (i + S M)))%nat by lia.
    apply Hafter. lia.
Qed.

(** C3. Along every sequence of [update] calls from a new tracker, no id is
    issued twice: the ids that enter the live mapping, call after call,
    are pairwise distinct (also when their track was removed in between),
    and [next_id] never decreases. *)
Theorem ids_never_reissued (dss : list (list obs)) (sts : list tracker) :
  run_trace tracker_new dss = Some sts ->
  NoDup (issued sts) /\ Sorted le (map next_id sts).
Proof.
  intros H. destruct (issued_spec _ _ _ inv_new H) as (A & _ & B). split; assumption.
Qed.

Lemma greedy_log_below (ids : list nat) (dets : list obs) (dist : nat -> nat -> fval)
    (sel : list nat -> list nat -> nat -> nat -> Prop) (rows cols : list nat) (s : tracker)
    (rows' cols' : list nat) (s' : tracker) (log : list (nat * nat)) :
  greedy ids dets dist sel rows cols s rows' cols' s' log ->
  forall r c, In (r, c) log -> flt (dist r c) fthreshold = true.
Proof.
  induction 1 as [|? ? ? ? ? _ _|? ? ? r c h ? ? ? log _ Hlt _ _ IH];
    intros r0 c0 Hin; [destruct Hin|destruct Hin|].
  destruct Hin as [He|Hin]; [injection He as <- <-; exact Hlt|exact (IH _ _ Hin)].
Qed.

(** When greedy matching over non-nan distances ends, no remaining pair is
    strictly below the threshold. *)
Lemma greedy_rest_not_below {DL : DistLaws} (ids : list nat) (dets : list obs)
    (dist : nat -> nat -> fval) (rows cols : list nat) (s : tracker)
    (rows' cols' : list nat) (s' : tracker) (log : list (nat * nat)) :
  greedy ids dets dist (is_min dist) rows cols s rows' cols' s' log ->
  (forall r c, In r rows -> In c cols -> fisnan (dist r c) = false) ->
  forall r c, In r rows' -> In c cols' -> flt (dist r c) fthreshold = false.
Proof.
  induction 1 as [rows cols s Hex|rows cols s r0 c0 Hmin Hge
                 |rows cols s r0 c0 h rows' cols' s' log Hmin Hlt Eh Hg IH];
    intros Hnan r c Hr Hc.
  - destruct Hex as [E|E]; subst; [destruct Hr|destruct Hc].
  - destruct Hmin as (Hr0 & Hc0 & Hm).
    destruct (flt (dist r c) fthreshold) eqn:E; [|reflexivity].
    destruct (flt_split _ _ _ (Hnan r0 c0 Hr0 Hc0) E) as [H|H].
    + rewrite (Hm r c Hr Hc) in H. discriminate.
    + rewrite Hge in H. discriminate.
  - apply IH; [|exact Hr|exact Hc].
    intros r1 c1 H1 H2. apply in_remove in H1, H2. apply Hnan; tauto.
Qed.

(** C1. In the general case of [update] (live tracks and detections both
    present), the matching loop is the greedy global matching [greedy] over
    the distances numpy computes between each track's last observation and
    each detection ([track_dist]), for every float64 comparison obeying the
    IEEE laws [DistLaws]: it repeatedly takes a smallest remaining distance
    (no remaining pair strictly below it), commits the pair when the
    distance is strictly below the threshold (history extended by the
    detection, counter reset to 0, both removed from consideration) and
    stops for the frame at the first smallest distance that is not below
    it.  In the resulting state every committed match is in place, and the
    detections left unmatched ([cols'], pairwise distinct, exactly the
    detections absent from the log) seed one new track each, under the
    consecutive fresh ids [next_id s], [next_id s + 1], ..., each with the
    one-element history of its detection and a counter of 0. *)
Theorem update_general_is_greedy {DL : DistLaws} (pre : list (list obs)) (s s' : tracker)
    (dets : list obs) :
  run tracker_new pre = Some s -> paths s <> [] -> dets <> [] ->
  update s dets = Some s' ->
  exists rows' cols' s1 log,
    greedy (keys (paths s)) dets (track_dist (keys (paths s)) (paths s) dets)
      (is_min (track_dist (keys (paths s)) (paths s) dets))
      (seq O (length (keys (paths s)))) (seq O (length dets)) s rows' cols' s1 log
    /\ (forall r c, In (r, c) log -> exists h,
          dict_get (nth r (keys (paths s)) O) (paths s) = Some h
          /\ dict_get (nth r (keys (paths s)) O) (paths s') = Some (h ++ [nth c dets []])
          /\ dict_get (nth r (keys (paths s)) O) (disappeared s') = Some O)
    /\ NoDup cols'
    /\ (forall c, In c cols' <-> (c < length dets)%nat /\ forall r, ~ In (r, c) log)
    /\ next_id s' = (next_id s + length cols')%nat
    /\ (forall i, (i < length cols')%nat ->
          dict_get (next_id s + i) (paths s') = Some [nth (nth i cols' O) dets []]
          /\ dict_get (next_id s + i) (disappeared s') = Some O).
Proof.
  intros Hrun Hp Hd Hu. assert (Hinv := run_new_inv _ _ Hrun).
  destruct (update_general_effect _ _ _ Hinv Hp Hd Hu)
    as (prev & D & rows' & cols' & s1 & log & E1 & E2 & E3 & _ & _ & _ & Mt & _ & Nid & Sd).
  set (n := length (keys (paths s))) in *.
  assert (Hg := match_loop_cand n D (keys (paths s)) dets (seq O n) (seq O (length dets))
                  s s1 rows' cols' log (seq_NoDup n O) (seq_NoDup _ O)
                  (Nat.eq_le_incl _ _ (length_seq n O)) E3).
  assert (Hlen : forall r, In r (seq O n) -> (r < length (keys (paths s)))%nat)
    by (intros r Hr; apply in_seq in Hr; unfold n in Hr; lia).
  destruct (greedy_effect _ _ _ _ _ _ _ _ _ _ _ cand_in Hg (seq_NoDup _ _) (seq_NoDup _ _)
              (inv_nodup _ Hinv) Hlen (inv_keys _ Hinv))
    as (_ & _ & _ & _ & _ & ND2 & _ & _ & _ & _ & Cl & _).
  exists rows', cols', s1, log.
  split; [|split; [exact Mt|split; [exact ND2|split; [|split; [exact Nid|exact Sd]]]]].
  - apply (match_loop_min n D (keys (paths s)) dets _ _ _ s s1 rows' cols' log);
      [|apply seq_NoDup|apply seq_NoDup|rewrite length_seq; lia|exact E3].
    intros r c Hr Hc. apply in_seq in Hr, Hc.
    eapply dist_matrix_track_dist; [exact E1|exact E2|lia|lia].
  - intros c. rewrite Cl, in_seq. split; intros [H1 H2]; split; (lia || exact H2).
Qed.

(** C6. The threshold test is strict, for every float64 comparison obeying
    the IEEE laws [DistLaws] and distances that are never nan (numpy's norm
    of a difference of integer points).  In the general case of [update],
    matching is the greedy matching of C1, and: every committed pair is at
    a distance strictly below the threshold, hence never at a distance equal
    to it, and its track's history is extended by its detection; a smallest
    remaining pair strictly below the threshold is committed (constructor
    [greedy_match] of [greedy]); every track outside the log keeps its
    history or is removed; and when matching ends, no pair of a still
    unmatched track ([rows']) and a still unmatched detection ([cols']) is
    strictly below the threshold, so a detection at distance exactly 100
    from every unmatched track is not matched. *)
Theorem match_threshold_strict {DL : DistLaws} (pre : list (list obs)) (s s' : tracker)
    (dets : list obs) :
  (forall a b v, fnorm a b = Some v -> fisnan v = false) ->
  run tracker_new pre = Some s -> paths s <> [] -> dets <> [] ->
  update s dets = Some s' ->
  exists rows' cols' s1 log,
    greedy (keys (paths s)) dets (track_dist (keys (paths s)) (paths s) dets)
      (is_min (track_dist (keys (paths s)) (paths s) dets))
      (seq O (length (keys (paths s)))) (seq O (length dets)) s rows' cols' s1 log
    /\ (forall r c, In (r, c) log ->
          flt (track_dist (keys (paths s)) (paths s) dets r c) fthreshold = true
          /\ track_dist (keys (paths s)) (paths s) dets r c <> fthreshold
          /\ exists h, dict_get (nth r (keys (paths s)) O) (paths s) = Some h
             /\ dict_get (nth r (keys (paths s)) O) (paths s') = Some (h ++ [nth c dets []]))
    /\ (forall r c, In r rows' -> In c cols' ->
          flt (track_dist (keys (paths s)) (paths s) dets r c) fthreshold = false)
    /\ (forall k h, dict_get k (paths s) = Some h ->
          (forall r c, In (r, c) log -> nth r (keys (paths s)) O <> k) ->
          dict_get k (paths s') = None \/ dict_get k (paths s') = Some h)
    /\ (forall r, In r rows' <-> (r < length (keys (paths s)))%nat /\ forall c, ~ In (r, c) log)
    /\ (forall c, In c cols' <-> (c < length dets)%nat /\ forall r, ~ In (r, c) log).
Proof.
  intros Hnn Hrun Hp Hd Hu. assert (Hinv := run_new_inv _ _ Hrun).
  destruct (update_general_effect _ _ _ Hinv Hp Hd Hu)
    as (prev & D & rows' & cols' & s1 & log & E1 & E2 & E3 & _ & _ & _ & Mt & Un & _).
  set (n := length (keys (paths s))) in *.
  set (dist := track_dist (keys (paths s)) (paths s) dets).
  assert (HD : forall r c, In r (seq O n) -> In c (seq O (length dets)) -> ent D r c = dist r c).
  { intros r c Hr Hc. apply in_seq in Hr, Hc.
    eapply dist_matrix_track_dist; [exact E1|exact E2|lia|lia]. }
  assert (Hg := match_loop_min n D (keys (paths s)) dets dist _ _ s s1 rows' cols' log HD
                  (seq_NoDup _ _) (seq_NoDup _ _) (Nat.eq_le_incl _ _ (length_seq n O)) E3).
  assert (Hlen : forall r, In r (seq O n) -> (r < length (keys (paths s)))%nat)
    by (intros r Hr; apply in_seq in Hr; unfold n in Hr; lia).
  destruct (greedy_effect _ _ _ _ _ _ _ _ _ _ _ (is_min_in dist) Hg (seq_NoDup _ _)
              (seq_NoDup _ _) (inv_nodup _ Hinv) Hlen (inv_keys _ Hinv))
    as (_ & _ & _ & _ & _ & _ & _ & _ & _ & Rw & Cl & _).
  exists rows', cols', s1, log.
  split; [exact Hg|split; [|split; [|split; [exact Un|split]]]].
  - intros r c H. assert (Hb := greedy_log_below _ _ _ _ _ _ _ _ _ _ _ Hg r c H).
    split; [exact Hb|split].
    + intros E. fold dist in E. rewrite E, flt_irrefl in Hb. discriminate.
    + destruct (Mt r c H) as (h & A & B & _). exists h. split; assumption.
  - eapply greedy_rest_not_below; [exact Hg|].
    intros r c Hr Hc.
    rewrite <- HD by assumption. apply in_seq in Hr, Hc.
    destruct (dist_matrix_entry s dets prev D r c E1 E2 ltac:(lia) ltac:(lia)) as (h & _ & Hf).
    exact (Hnn _ _ _ Hf).
  - intros r. rewrite Rw, in_seq. split; intros [H1 H2]; split; (lia || exact H2).
  - intros c. rewrite Cl, in_seq. split; intros [H1 H2]; split; (lia || exact H2).
Qed.


(** C7. Within one [update], matching is one-to-one: the log of committed
    (track row, detection column) pairs has pairwise distinct rows and
    pairwise distinct columns, so distinct tracks receive distinct
    detections; each logged track receives exactly its detection appended
    once; and every other track keeps its history unchanged (or is
    removed), so no track receives more than one detection and no
    detection is appended to two tracks. *)
Theorem update_matching_one_to_one (pre : list (list obs)) (s s' : tracker) (dets : list obs) :
  run tracker_new pre = Some s -> update s dets = Some s' ->
  exists log : list (nat * nat),
    NoDup (map fst log) /\ NoDup (map snd log)
    /\ NoDup (map (fun rc => nth (fst rc) (keys (paths s)) O) log)
    /\ (forall r c, In (r, c) log -> (c < length dets)%nat /\ exists h,
          dict_get (nth r (keys (paths s)) O) (paths s) = Some h
          /\ dict_get (nth r (keys (paths s)) O) (paths s') = Some (h ++ [nth c dets []]))
    /\ (forall k h, dict_get k (paths s) = Some h ->
          (forall r c, In (r, c) log -> nth r (keys (paths s)) O <> k) ->
          dict_get k (paths s') = None \/ dict_get k (paths s') = Some h).
Proof.
  intros Hrun Hu. assert (Hinv := run_new_inv _ _ Hrun).
  destruct dets as [|d ds].
  - (* no detection: tracks are only aged *)
    exists []. split; [constructor|split; [constructor|split; [constructor|split; [intros ? ? []|]]]].
    intros k h Hh _. unfold update in Hu. cbn [length Nat.eqb] in Hu.
    assert (Hks : forall k, In k (keys (disappeared s)) -> In k (keys (paths s)))
      by (rewrite (inv_keys _ Hinv); tauto).
    assert (Hnd : NoDup (keys (disappeared s)))
      by (rewrite <- (inv_keys _ Hinv); exact (inv_nodup _ Hinv)).
    destruct (age_ids_spec _ s Hinv Hnd Hks) as (s3 & Ha & _ & _ & _ & Un3 & Ch3 & _).
    rewrite Hu in Ha. injection Ha as <-.
    destruct (in_dec Nat.eq_dec k (keys (disappeared s))) as [Hin|Hin].
    + destruct (Ch3 k Hin) as (c & _ & _ & C). rewrite C, Hh.
      destruct (Nat.ltb _ _); [left|right]; reflexivity.
    + right. rewrite (proj1 (Un3 k Hin)). exact Hh.
  - destruct (paths s) as [|x l] eqn:Ep.
    + (* cold start: no track to extend *)
      exists []. split; [constructor|split; [constructor|split; [constructor|split; [intros ? ? []|]]]].
      intros k h Hh. discriminate.
    + assert (Hp : paths s <> []) by (rewrite Ep; discriminate).
      rewrite <- Ep. assert (Hd : d :: ds <> []) by discriminate.
      destruct (update_general_effect _ _ _ Hinv Hp Hd Hu)
        as (prev & D & rows' & cols' & s1 & log & _ & _ & _ & NF & NS & Lr & Mt & Un & _).
      exists log. split; [exact NF|split; [exact NS|split; [|split; [|exact Un]]]].
      * clear -NF Lr Hinv. induction log as [|[r c] log IH]; [constructor|].
        simpl in NF |- *. inversion NF as [|? ? Hnin NF']; subst. constructor.
        -- intros Hin. apply in_map_iff in Hin. destruct Hin as ([r2 c2] & He & Hin). simpl in He.
           apply Hnin, in_map_iff. exists (r2, c2). split; [|exact Hin]. simpl.
           apply (proj1 (NoDup_nth _ O) (inv_nodup _ Hinv));
             [apply (Lr r2 c2 (or_intror Hin))|apply (Lr r c (or_introl eq_refl))|exact He].
        -- apply IH; [exact NF'|intros r2 c2 H; apply Lr; right; exact H].
      * intros r c H. split; [apply (Lr r c H)|].
        destruct (Mt r c H) as (h & A & B & _). exists h. split; assumption.
Qed.

Lemma mapM_none {A B} (f : A -> option B) (l : list A) (x : A) :
  In x l -> f x = None -> mapM f l = None.
Proof.
  induction l as [|y l IH]; intros Hin Hf; [destruct Hin|].
  simpl. destruct Hin as [<-|Hin].
  - rewrite Hf. reflexivity.
  - destruct (f y); cbn [obind]; [|reflexivity]. rewrite (IH Hin Hf). reflexivity.
Qed.

Lemma hypot_pos (a b c d : R) : (a, b) <> (c, d) -> (0 < Speed.hypot (c - a) (d - b))%R.
Proof.
  intros Hne. unfold Speed.hypot. apply sqrt_lt_R0.
  destruct (Req_dec (c - a) 0) as [E1|E1].
  - destruct (Req_dec (d - b) 0) as [E2|E2].
    + exfalso. apply Hne. f_equal; lra.
    + assert (0 < (d - b) * (d - b))%R by (apply Rsqr_pos_lt; exact E2).
      assert (0 <= (c - a) * (c - a))%R by apply Rle_0_sqr. lra.
  - assert (0 < (c - a) * (c - a))%R by (apply Rsqr_pos_lt; exact E1).
    assert (0 <= (d - b) * (d - b))%R by apply Rle_0_sqr. lra.
Qed.

(** C8 fails: with two distinct points and a zero time interval,
    [calculate_speed] divides a positive distance by zero and numpy returns
    [inf], not the sentinel 0. *)
Lemma calculate_speed_zero_time_inf :
  Speed.calculate_speed [(0%R, 0%R); (3%R, 4%R)] 0%R = Speed.PosInf
  /\ Speed.calculate_speed [(0%R, 0%R); (3%R, 4%R)] 0%R <> Speed.Fin 0%R.
Proof.
  assert (H : Speed.calculate_speed [(0%R, 0%R); (3%R, 4%R)] 0%R = Speed.PosInf).
  { unfold Speed.calculate_speed, Speed.np_div. simpl.
    destruct (Req_dec_T 0 0) as [_|E]; [|exfalso; apply E; reflexivity].
    destruct (Rlt_dec 0 (Speed.hypot (3 - 0) (4 - 0))) as [_|E]; [reflexivity|].
    exfalso. apply E. apply hypot_pos. intros He. injection He as He _. lra. }
  split; [exact H|]. rewrite H. discriminate.
Qed.

(** C8 (amended). [calculate_speed] returns 0 when fewer than two points
    are given; with at least two points and a zero time interval it does
    not return 0 but numpy's [inf] when the last two points differ, and
    [nan] when they coincide. *)
Theorem calculate_speed_degenerate (points : list (R * R)) (time_diff : R) :
  ((length points < 2)%nat -> Speed.calculate_speed points time_diff = Speed.Fin 0%R)
  /\ ((2 <= length points)%nat -> time_diff = 0%R ->
      (nth (length points - 2) points (0%R, 0%R) <> nth (length points - 1) points (0%R, 0%R) ->
         Speed.calculate_speed points time_diff = Speed.PosInf)
      /\ (nth (length points - 2) points (0%R, 0%R) = nth (length points - 1) points (0%R, 0%R) ->
         Speed.calculate_speed points time_diff = Speed.NaN)).
Proof.
  split.
  - intros H. unfold Speed.calculate_speed. apply Nat.ltb_lt in H. rewrite H. reflexivity.
  - intros H Ht. unfold Speed.calculate_speed.
    assert (Hb : Nat.ltb (length points) 2 = false) by (apply Nat.ltb_ge; exact H).
    rewrite Hb. cbv zeta. unfold Speed.np_div. subst time_diff.
    destruct (Req_dec_T 0 0) as [_|E]; [|exfalso; apply E; reflexivity].
    destruct (nth (length points - 2) points (0%R, 0%R)) as [a b].
    destruct (nth (length points - 1) points (0%R, 0%R)) as [c d]. simpl.
    split.
    + intros Hne. destruct (Rlt_dec 0 (Speed.hypot (c - a) (d - b))) as [_|E]; [reflexivity|].
      exfalso. apply E, hypot_pos, Hne.
    + intros He. injection He as -> ->.
      assert (Hz : Speed.hypot (c - c) (d - d) = 0%R).
      { unfold Speed.hypot. replace ((c - c) * (c - c) + (d - d) * (d - d))%R with 0%R by ring.
        apply sqrt_0. }
      rewrite Hz. destruct (Rlt_dec 0 0) as [E|_]; [lra|].
      destruct (Rlt_dec 0 0) as [E|_]; [lra|reflexivity].
Qed.

(* ------------------------------------------------------------------ *)
(** * Further properties of the tracker *)

Section DictList.
Context {V : Type}.

Lemma dict_get_In (k : nat) (v : V) (d : dict V) : dict_get k d = Some v -> In (k, v) d.
Proof.
  induction d as [|[k0 v0] r IH]; simpl; [discriminate|].
  destruct (Nat.eqb_spec k k0) as [->|_]; [intros H; injection H as <-; left; reflexivity|].
  intros H. right. apply IH, H.
Qed.

Lemma In_dict_get (k : nat) (v : V) (d : dict V) :
  NoDup (keys d) -> In (k, v) d -> dict_get k d = Some v.
Proof.
  induction d as [|[k0 v0] r IH]; simpl; [tauto|]. intros Hnd Hin.
  inversion Hnd as [|? ? Hnot Hnd']; subst.
  destruct Hin as [He|Hin].
  - injection He as -> ->. rewrite Nat.eqb_refl. reflexivity.
  - destruct (Nat.eqb_spec k k0) as [->|_]; [|apply IH; assumption].
    exfalso. apply Hnot. apply (in_map fst) in Hin. exact Hin.
Qed.

Lemma dict_set_In (k k' : nat) (v v' : V) (d : dict V) :
  In (k', v') (dict_set k v d) -> (k', v') = (k, v) \/ In (k', v') d.
Proof.
  induction d as [|[k0 v0] r IH]; simpl; [intros [H|[]]; left; symmetry; exact H|].
  destruct (Nat.eqb k k0); simpl; [intros [H|H]; [left; symmetry; exact H|right; right; exact H]|].
  intros [H|H]; [right; left; exact H|]. destruct (IH H) as [A|A]; [left; exact A|right; right; exact A].
Qed.

Lemma dict_del_incl (k : nat) (d d' : dict V) : dict_del k d = Some d' -> incl d' d.
Proof.
  revert d'. induction d as [|[k0 v0] r IH]; intros d' H; simpl in H; [discriminate|].
  destruct (Nat.eqb k k0).
  - injection H as <-. intros x Hx. right. exact Hx.
  - destruct (dict_del k r) as [r'|] eqn:E; cbn [obind] in H; [|discriminate].
    injection H as <-. intros x [Hx|Hx]; [left; exact Hx|right; exact (IH r' eq_refl x Hx)].
Qed.

End DictList.

Lemma age_ids_incl (ks : list nat) (s s' : tracker) :
  age_ids ks s = Some s' -> incl (paths s') (paths s) /\ next_id s' = next_id s.
Proof.
  revert s. induction ks as [|k ks IH]; intros s H; simpl in H.
  - injection H as <-. split; [intros x Hx; exact Hx|reflexivity].
  - destruct (age_one k s) as [s1|] eqn:E; cbn [obind] in H; [|discriminate].
    destruct (IH s1 H) as [A B]. rewrite B.
    unfold age_one in E.
    destruct (dict_get k (disappeared s)) as [c|]; cbn [obind] in E; [|discriminate].
    destruct (Nat.ltb _ _).
    + destruct (dict_del k (paths s)) as [p'|] eqn:Ep; cbn [obind] in E; [|discriminate].
      destruct (dict_del k (dict_set k (S c) (disappeared s))) as [d'|];
        cbn [obind] in E; [|discriminate].
      injection E as <-. simpl in A |- *. split; [|reflexivity].
      intros x Hx. apply (dict_del_incl _ _ _ Ep), A, Hx.
    + injection E as <-. simpl in A |- *. split; [exact A|reflexivity].
Qed.

Lemma nth_map_lt {A B} (f : A -> B) (l : list A) (i : nat) (da : A) (db : B) :
  (i < length l)%nat -> nth i (map f l) db = f (nth i l da).
Proof.
  revert i. induction l as [|x l IH]; intros [|i] Hi; simpl in *; try lia; [reflexivity|].
  apply IH. lia.
Qed.

Lemma seed_In (ds : list obs) (s : tracker) (k : nat) (h : list obs) :
  In (k, h) (paths (seed ds s)) ->
  In (k, h) (paths s)
  \/ exists i, (i < length ds)%nat /\ k = (next_id s + i)%nat /\ h = [nth i ds []].
Proof.
  revert s. induction ds as [|d ds IH]; intros s H; simpl in H; [left; exact H|].
  destruct (IH _ H) as [A|(i & Hi & Hk & Hh)]; simpl in *.
  - apply dict_set_In in A. destruct A as [A|A]; [|left; exact A].
    injection A as -> ->. right. exists O. split; [lia|split; [lia|reflexivity]].
  - right. exists (S i). split; [lia|split; [lia|exact Hh]].
Qed.

(** Every history after an [update] is an earlier history, unchanged or
    extended by one detection of the frame, or a new one-detection history
    under an id not below the earlier [next_id]. *)
Lemma update_origin (s : tracker) (dets : list obs) (s' : tracker) :
  inv s -> update s dets = Some s' ->
  forall k h', dict_get k (paths s') = Some h' ->
    (exists h, dict_get k (paths s) = Some h
       /\ (h' = h \/ exists c, (c < length dets)%nat /\ h' = h ++ [nth c dets []]))
    \/ (dict_get k (paths s) = None /\ (next_id s <= k)%nat
        /\ exists c, (c < length dets)%nat /\ h' = [nth c dets []]).
Proof.
  intros Hinv Hu k h' Hk.
  unfold update in Hu.
  destruct (Nat.eqb_spec (length dets) O) as [Hd|Hd].
  - (* no detection *)
    destruct (age_ids_incl _ _ _ Hu) as [Hi _].
    left. exists h'. split; [|left; reflexivity].
    apply In_dict_get; [exact (inv_nodup _ Hinv)|]. apply Hi, dict_get_In, Hk.
  - destruct (Nat.eqb_spec (length (paths s)) O) as [Hp|Hp].
    + (* cold start *)
      injection Hu as <-. destruct (seed_spec dets s Hinv) as (_ & _ & _ & G).
      destruct (G k) as [A _]. rewrite A in Hk.
      assert (Hs : paths s = []) by (destruct (paths s); [reflexivity|discriminate]).
      rewrite Hs in Hk. simpl in Hk.
      destruct (Nat.leb_spec (next_id s) k), (Nat.ltb_spec k (next_id s + length dets));
        cbn [andb] in Hk; try discriminate.
      right. rewrite Hs. split; [reflexivity|split; [exact H|]].
      exists (k - next_id s)%nat. split; [lia|]. injection Hk as <-. reflexivity.
    + (* general case *)
      destruct (update_general s dets) as [[s3 log]|] eqn:Eg; cbn [obind] in Hu; [|discriminate].
      injection Hu as <-. simpl in Hk.
      destruct (update_general_decomp _ _ _ _ Eg)
        as (prev & D & rows' & cols' & s1 & E1 & E2 & E3 & E4).
      rewrite (mapM_length _ _ _ E1) in E3.
      set (ids := keys (paths s)) in *. set (n := length ids) in *.
      assert (Hg := match_loop_cand n D ids dets (seq O n) (seq O (length dets))
                      s s1 rows' cols' log (seq_NoDup n O) (seq_NoDup _ O)
                      (Nat.eq_le_incl _ _ (length_seq n O)) E3).
      assert (Hlen : forall r, In r (seq O n) -> (r < length ids)%nat)
        by (intros r Hr; apply in_seq in Hr; unfold n in Hr; lia).
      destruct (greedy_effect _ _ _ _ _ _ _ _ _ _ _ cand_in Hg (seq_NoDup _ _) (seq_NoDup _ _)
                  (inv_nodup _ Hinv) Hlen (inv_keys _ Hinv))
        as (K1 & _ & N1 & _ & _ & _ & _ & _ & Lin & _ & Cl & Unch & Mt).
      destruct (age_ids_incl _ _ _ E4) as [Hi _].
      apply dict_get_In, Hi, seed_In in Hk.
      destruct Hk as [Hk|(i & Hi' & Hki & Hh)].
      * apply In_dict_get in Hk; [|rewrite K1; exact (inv_nodup _ Hinv)].
        left.
        destruct (in_dec Nat.eq_dec k (map (fun rc => nth (fst rc) ids O) log)) as [Hin|Hin].
        -- apply in_map_iff in Hin. destruct Hin as ([r c] & Hr & Hin). simpl in Hr. subst k.
           destruct (Mt r c Hin) as (h & A & B & _). exists h. split; [exact A|right].
           exists c. split; [|rewrite Hk in B; injection B as <-; reflexivity].
           destruct (Lin r c Hin) as [_ Hc]. apply in_seq in Hc. lia.
        -- assert (Hnot : forall r c, In (r, c) log -> nth r ids O <> k).
           { intros r c H He. apply Hin, in_map_iff. exists (r, c). split; [exact He|exact H]. }
           exists h'. split; [|left; reflexivity]. rewrite <- (proj1 (Unch k Hnot)). exact Hk.
      * right. rewrite length_map in Hi'. rewrite N1 in Hki. subst k.
        split; [|split; [lia|]].
        -- apply dict_get_notin. intros Hin. apply (inv_fresh _ Hinv) in Hin. lia.
        -- exists (nth i cols' O). split.
           ++ assert (Hc : In (nth i cols' O) cols') by (apply nth_In; exact Hi').
              apply Cl in Hc. destruct Hc as [Hc _]. apply in_seq in Hc. lia.
           ++ rewrite Hh. f_equal. exact (nth_map_lt (fun c => nth c dets []) cols' i O [] Hi').
Qed.

(** Histories stay non-empty and made of observations satisfying [P] when
    the detections of the frame do. *)
Lemma update_hist (P : obs -> Prop) (s : tracker) (dets : list obs) (s' : tracker) :
  inv s -> update s dets = Some s' ->
  (forall k h, dict_get k (paths s) = Some h -> h <> [] /\ Forall P h) ->
  Forall P dets ->
  forall k h, dict_get k (paths s') = Some h -> h <> [] /\ Forall P h.
Proof.
  intros Hinv Hu Hs Hd k h' Hk.
  assert (HP : forall c, (c < length dets)%nat -> P (nth c dets [])).
  { intros c Hc. exact (proj1 (Forall_nth P dets) Hd c [] Hc). }
  destruct (update_origin _ _ _ Hinv Hu k h' Hk) as [(h & Hh & [->|(c & Hc & ->)])|(_ & _ & c & Hc & ->)].
  - exact (Hs k h Hh).
  - destruct (Hs k h Hh) as [_ A]. split; [destruct h; discriminate|].
    apply Forall_app. split; [exact A|constructor; [apply HP, Hc|constructor]].
  - split; [discriminate|constructor; [apply HP, Hc|constructor]].
Qed.

Lemma run_hist (P : obs -> Prop) (pre : list (list obs)) (s0 s : tracker) :
  inv s0 -> (forall k h, dict_get k (paths s0) = Some h -> h <> [] /\ Forall P h) ->
  Forall (Forall P) pre -> run s0 pre = Some s ->
  forall k h, dict_get k (paths s) = Some h -> h <> [] /\ Forall P h.
Proof.
  revert s0. induction pre as [|ds pre IH]; intros s0 Hinv Hs Hpre Hrun; simpl in Hrun.
  - injection Hrun as <-. exact Hs.
  - destruct (update s0 ds) as [s1|] eqn:E; cbn [obind] in Hrun; [|discriminate].
    inversion Hpre as [|? ? Hds Hpre']; subst.
    apply (IH s1); [exact (proj1 (update_spec _ _ _ Hinv E))| |exact Hpre'|exact Hrun].
    exact (update_hist P _ _ _ Hinv E Hs Hds).
Qed.

Lemma mapM_some {A B} (f : A -> option B) (l : list A) :
  (forall x, In x l -> exists y, f x = Some y) -> exists l', mapM f l = Some l'.
Proof.
  induction l as [|x l IH]; intros H; simpl; [eexists; reflexivity|].
  destruct (H x (or_introl eq_refl)) as [y Hy]. rewrite Hy. cbn [obind].
  destruct IH as [l' Hl']; [intros z Hz; apply H; right; exact Hz|].
  rewrite Hl'. cbn [obind]. eexists; reflexivity.
Qed.

Lemma mapM_in {A B} (f : A -> option B) (l : list A) (l' : list B) (y : B) :
  mapM f l = Some l' -> In y l' -> exists x, In x l /\ f x = Some y.
Proof.
  revert l'. induction l as [|x l IH]; intros l' H Hy; simpl in H.
  - injection H as <-. destruct Hy.
  - destruct (f x) as [z|] eqn:Ef; cbn [obind] in H; [|discriminate].
    destruct (mapM f l) as [r|] eqn:Er; cbn [obind] in H; [|discriminate].
    injection H as <-. destruct Hy as [<-|Hy].
    + exists x. split; [left; reflexivity|exact Ef].
    + destruct (IH r eq_refl Hy) as (x' & Hx1 & Hx2). exists x'. split; [right; exact Hx1|exact Hx2].
Qed.

Lemma last_opt_in {A} (h : list A) (x : A) : last_opt h = Some x -> In x h.
Proof.
  induction h as [|y h IH]; intros H; [discriminate|].
  destruct h as [|z h]; [injection H as <-; left; reflexivity|]. right. apply IH, H.
Qed.

Lemma last_opt_some {A} (h : list A) : h <> [] -> exists x, last_opt h = Some x.
Proof.
  induction h as [|y h IH]; intros H; [congruence|].
  destruct h as [|z h]; [eexists; reflexivity|]. apply IH. discriminate.
Qed.

Lemma remove_at_incl {A} (i : nat) (l : list A) : incl (remove_at i l) l.
Proof.
  revert i. induction l as [|x l IH]; intros [|i] y Hy; simpl in Hy |- *; try tauto.
  destruct Hy as [<-|Hy]; [left; reflexivity|right; exact (IH i y Hy)].
Qed.

(** The matching loop raises no [KeyError] while the rows name live tracks. *)
Lemma match_loop_some (fuel : nat) (D : list (list fval)) (ids : list nat) (dets : list obs)
    (rows cols : list nat) (s : tracker) :
  (forall r, In r rows -> In (nth r ids O) (keys (paths s))) ->
  exists res, match_loop fuel D ids dets rows cols s = Some res.
Proof.
  revert rows cols s. induction fuel as [|fuel IH]; intros rows cols s Hr.
  - eexists; reflexivity.
  - destruct rows as [|r0 rs]; [eexists; reflexivity|].
    destruct cols as [|c0 cs]; [eexists; reflexivity|].
    cbn [match_loop].
    set (rows := r0 :: rs) in *. set (cols := c0 :: cs) in *.
    assert (Hne : In (O, O, ent D (nth O rows O) (nth O cols O)) (submatrix D rows cols))
      by (apply in_submatrix; simpl; split; [lia|split; [lia|reflexivity]]).
    destruct (argmin (submatrix D rows cols)) as [[[i j] v]|] eqn:Ea.
    2:{ destruct (submatrix D rows cols); [destruct Hne|discriminate]. }
    cbn [obind]. apply argmin_in, in_submatrix in Ea. destruct Ea as (Hi & Hj & _).
    destruct (flt _ _); [|eexists; reflexivity].
    unfold assign.
    assert (Hk := Hr _ (nth_In rows O Hi)). apply dict_get_in in Hk. destruct Hk as [h Hh].
    rewrite Hh. cbn [obind].
    edestruct IH as [[[[s2 r2] c2] l2] Hl].
    2:{ rewrite Hl. cbn [obind]. eexists; reflexivity. }
    intros r Hr'. simpl. rewrite keys_set_in.
    + apply Hr, (remove_at_incl i rows), Hr'.
    + apply dict_get_in. eauto.
Qed.

(** The final loop over unmatched rows raises no [KeyError]. *)
Lemma post_loop_age_some (s : tracker) (dets : list obs) (D : list (list fval))
    (rows' cols' : list nat) (s1 : tracker) (log : list (nat * nat)) :
  inv s ->
  match_loop (length (keys (paths s))) D (keys (paths s)) dets
    (seq O (length (keys (paths s)))) (seq O (length dets)) s = Some (s1, rows', cols', log) ->
  exists s3, age_ids (map (fun r => nth r (keys (paths s)) O) rows')
                     (seed (map (fun c => nth c dets []) cols') s1) = Some s3.
Proof.
  intros Hinv Hloop.
  set (ids := keys (paths s)) in *. set (n := length ids) in *.
  assert (Hg := match_loop_cand n D ids dets (seq O n) (seq O (length dets))
                  s s1 rows' cols' log (seq_NoDup n O) (seq_NoDup _ O)
                  (Nat.eq_le_incl _ _ (length_seq n O)) Hloop).
  assert (Hlen : forall r, In r (seq O n) -> (r < length ids)%nat)
    by (intros r Hr; apply in_seq in Hr; unfold n in Hr; lia).
  destruct (greedy_effect _ _ _ _ _ _ _ _ _ _ _ cand_in Hg (seq_NoDup _ _) (seq_NoDup _ _)
              (inv_nodup _ Hinv) Hlen (inv_keys _ Hinv))
    as (K1 & K2 & N1 & M1 & ND1 & ND2 & NF & NS & Lin & Rw & Cl & Unch & Mt).
  assert (Hinv1 : inv s1).
  { destruct Hinv as [Hk Hnd Hb Hf]. constructor.
    - rewrite K1, K2. exact Hk.
    - rewrite K1. exact Hnd.
    - intros k c H. rewrite M1.
      destruct (in_dec Nat.eq_dec k (map (fun rc => nth (fst rc) ids O) log)) as [Hin|Hin].
      + apply in_map_iff in Hin. destruct Hin as ([r c'] & Hr & Hin). simpl in Hr; subst k.
        destruct (Mt r c' Hin) as (h & _ & _ & C). rewrite C in H. injection H as <-. lia.
      + assert (Hnot : forall r c', In (r, c') log -> nth r ids O <> k).
        { intros r c' H' He. apply Hin, in_map_iff. exists (r, c'). split; [exact He|exact H']. }
        rewrite (proj2 (Unch k Hnot)) in H. eapply Hb; exact H.
    - intros k H. rewrite N1. apply Hf. rewrite <- K1. exact H. }
  set (ds := map (fun c => nth c dets []) cols') in *.
  destruct (seed_spec ds s1 Hinv1) as (Hinv2 & N2 & M2 & G2).
  assert (Hrows' : forall r, In r rows' -> (r < n)%nat).
  { intros r Hr. apply Rw in Hr. destruct Hr as [Hr _]. apply in_seq in Hr. lia. }
  assert (Hks_nd : NoDup (map (fun r => nth r ids O) rows'))
    by (apply NoDup_map_nth; [exact (inv_nodup _ Hinv)|exact ND1|exact Hrows']).
  assert (Hid_lt : forall r, (r < n)%nat -> (nth r ids O < next_id s)%nat)
    by (intros r Hr; apply (inv_fresh _ Hinv), nth_In, Hr).
  assert (Hks_in : forall k, In k (map (fun r => nth r ids O) rows') -> In k (keys (paths (seed ds s1)))).
  { intros k Hk. apply in_map_iff in Hk. destruct Hk as (r & <- & Hr). apply Hrows' in Hr.
    apply dict_get_in. destruct (G2 (nth r ids O)) as [A _]. rewrite A, N1.
    destruct (Nat.leb_spec (next_id s) (nth r ids O)) as [Hle|_];
      [assert (Hl := Hid_lt r Hr); lia|]. cbn [andb].
    apply dict_get_in. rewrite K1. apply nth_In, Hr. }
  destruct (age_ids_spec _ _ Hinv2 Hks_nd Hks_in) as (s3 & Ha & _). exists s3. exact Ha.
Qed.


(** [update] raises no exception when numpy's distance computation succeeds
    between the last observation of every live track and every detection. *)
Lemma update_total (s : tracker) (dets : list obs) :
  inv s ->
  (forall k h, dict_get k (paths s) = Some h -> h <> []) ->
  (forall k h d, dict_get k (paths s) = Some h -> In d dets ->
     exists v, fnorm (firstn 2 (last h [])) (firstn 2 d) = Some v) ->
  exists s', update s dets = Some s'.
Proof.
  intros Hinv Hs Hf. unfold update.
  destruct (Nat.eqb (length dets) O).
  { assert (Hnd : NoDup (keys (disappeared s))) by (rewrite <- (inv_keys _ Hinv); exact (inv_nodup _ Hinv)).
    destruct (age_ids_spec (keys (disappeared s)) s Hinv Hnd) as (s' & Ha & _).
    - intros k Hk. rewrite (inv_keys _ Hinv). exact Hk.
    - exists s'. exact Ha. }
  destruct (Nat.eqb (length (paths s)) O); [eexists; reflexivity|].
  unfold update_general.
  destruct (mapM_some (fun k => let* h := dict_get k (paths s) in last_opt h) (keys (paths s)))
    as [prev E1].
  { intros k Hk. apply dict_get_in in Hk. destruct Hk as [h Hh]. rewrite Hh. cbn [obind].
    apply last_opt_some, (Hs k h Hh). }
  rewrite E1. cbn [obind].
  destruct (mapM_some (fun p => mapM (fun d => fnorm (firstn 2 p) (firstn 2 d)) dets) prev)
    as [D E2].
  { intros p Hp. destruct (mapM_in _ _ _ _ E1 Hp) as (k & _ & Hk).
    destruct (dict_get k (paths s)) as [h|] eqn:Eh; cbn [obind] in Hk; [|discriminate].
    apply (last_opt_last _ _ []) in Hk. subst p.
    apply mapM_some. intros d Hdd. exact (Hf k h d Eh Hdd). }
  unfold dist_matrix. rewrite E2. cbn [obind].
  assert (Hlen : length prev = length (keys (paths s))) by exact (mapM_length _ _ _ E1).
  destruct (match_loop_some (length (seq O (length prev))) D (keys (paths s)) dets
              (seq O (length prev)) (seq O (length dets)) s) as [[[[s1 r'] c'] log] E3].
  { intros r Hr. apply in_seq in Hr. apply nth_In. lia. }
  rewrite E3. cbn [obind].
  rewrite length_seq, Hlen in E3.
  destruct (post_loop_age_some _ _ _ _ _ _ _ Hinv E3) as [s3 Ea].
  rewrite Ea. cbn [obind]. eexists; reflexivity.
Qed.

Lemma last_In_nonempty {A} (h : list A) (d : A) : h <> [] -> In (last h d) h.
Proof.
  intros Hne. destruct (last_opt_some h Hne) as [x Hx].
  rewrite <- (last_opt_last _ _ d Hx). exact (last_opt_in _ _ Hx).
Qed.

(** The same, when the observations stored and detected satisfy a property
    [P] under which numpy's distance computation succeeds. *)
Lemma update_total_P (P : obs -> Prop) (s : tracker) (dets : list obs) :
  inv s ->
  (forall k h, dict_get k (paths s) = Some h -> h <> [] /\ Forall P h) ->
  Forall P dets ->
  (forall a b, P a -> P b -> exists v, fnorm (firstn 2 a) (firstn 2 b) = Some v) ->
  exists s', update s dets = Some s'.
Proof.
  intros Hinv Hs Hd Hf. apply update_total; [exact Hinv|intros k h H; exact (proj1 (Hs k h H))|].
  intros k h d Hh Hdd. destruct (Hs k h Hh) as [Hne HP]. apply Hf.
  - exact (proj1 (Forall_forall _ _) HP _ (last_In_nonempty h [] Hne)).
  - exact (proj1 (Forall_forall _ _) Hd d Hdd).
Qed.

Lemma run_total (P : obs -> Prop) (pre : list (list obs)) (s0 : tracker) :
  inv s0 ->
  (forall k h, dict_get k (paths s0) = Some h -> h <> [] /\ Forall P h) ->
  Forall (Forall P) pre ->
  (forall a b, P a -> P b -> exists v, fnorm (firstn 2 a) (firstn 2 b) = Some v) ->
  exists s, run s0 pre = Some s.
Proof.
  intros Hinv0 Hs0 Hpre0 Hf. revert s0 Hinv0 Hs0 Hpre0.
  induction pre as [|ds pre IH]; intros s0 Hinv Hs Hpre; simpl; [eexists; reflexivity|].
  inversion Hpre as [|? ? Hds Hpre']; subst.
  destruct (update_total_P P s0 ds Hinv Hs Hds Hf) as [s1 E]. rewrite E. cbn [obind].
  apply IH; [exact (proj1 (update_spec _ _ _ Hinv E))| |exact Hpre'].
  exact (update_hist _ _ _ _ Hinv E Hs Hds).
Qed.

Lemma mapM_none_ex {A B} (f : A -> option B) (l : list A) :
  mapM f l = None -> exists x, In x l /\ f x = None.
Proof.
  induction l as [|x l IH]; simpl; [discriminate|].
  destruct (f x) eqn:Ef; cbn [obind].
  - destruct (mapM f l) eqn:E; cbn [obind]; [discriminate|].
    intros _. destruct (IH eq_refl) as (y & Hy & Hf). exists y. split; [right; exact Hy|exact Hf].
  - intros _. exists x. split; [left; reflexivity|exact Ef].
Qed.

Lemma mapM_in_fwd {A B} (f : A -> option B) (l : list A) (l' : list B) (x : A) :
  mapM f l = Some l' -> In x l -> exists y, f x = Some y /\ In y l'.
Proof.
  revert l'. induction l as [|z l IH]; intros l' H Hx; [destruct Hx|]. simpl in H.
  destruct (f z) as [y|] eqn:Ef; cbn [obind] in H; [|discriminate].
  destruct (mapM f l) as [r|] eqn:Er; cbn [obind] in H; [|discriminate].
  injection H as <-. destruct Hx as [<-|Hx].
  - exists y. split; [exact Ef|left; reflexivity].
  - destruct (IH r eq_refl Hx) as (y' & A1 & A2). exists y'. split; [exact A1|right; exact A2].
Qed.

(** Every live history of a reachable state is non-empty. *)
Lemma run_hist_nonempty (pre : list (list obs)) (s : tracker) :
  run tracker_new pre = Some s -> forall k h, dict_get k (paths s) = Some h -> h <> [].
Proof.
  intros Hr k h Hh.
  refine (proj1 (run_hist (fun _ => True) pre tracker_new s inv_new _ _ Hr k h Hh)).
  - intros k0 h0 H. discriminate H.
  - apply Forall_forall. intros ds _. apply Forall_forall. intros o _. exact I.
Qed.

(** C9 (amended). [update] performs no validation of observations and has no
    [InvalidInput] result.  On a reachable state: when no track is live,
    every detection, malformed or not, seeds a new track; an empty detection
    list never fails; and when tracks are live and detections are given,
    [update] fails exactly when numpy's distance computation raises for
    some pair of a live track's last observation and a detection (first
    two fields of each): a malformed detection numpy can process is matched
    or seeded without any error. *)
Theorem update_no_input_validation (pre : list (list obs)) (s : tracker) (dets : list obs) :
  run tracker_new pre = Some s ->
  (paths s = [] -> dets <> [] -> update s dets = Some (seed dets s))
  /\ (dets = [] -> exists s', update s dets = Some s')
  /\ (paths s <> [] -> dets <> [] ->
      (update s dets = None <->
       exists k h d, dict_get k (paths s) = Some h /\ In d dets
         /\ fnorm (firstn 2 (last h [])) (firstn 2 d) = None)).
Proof.
  intros Hrun. assert (Hinv := run_new_inv _ _ Hrun).
  assert (Hne := run_hist_nonempty _ _ Hrun).
  split; [|split].
  - intros Hp Hd. unfold update. rewrite Hp.
    destruct dets as [|d ds]; [congruence|]. reflexivity.
  - intros ->. apply update_total; [exact Hinv|exact Hne|intros k h d _ []].
  - intros Hp Hd.
    assert (Hl1 : Nat.eqb (length dets) O = false)
      by (destruct dets; [congruence|reflexivity]).
    assert (Hl2 : Nat.eqb (length (paths s)) O = false)
      by (destruct (paths s); [congruence|reflexivity]).
    unfold update. rewrite Hl1, Hl2. unfold update_general.
    destruct (mapM (fun k => let* h := dict_get k (paths s) in last_opt h) (keys (paths s)))
      as [prev|] eqn:E1; cbn [obind].
    2:{ exfalso. destruct (mapM_none_ex _ _ E1) as (k & Hk & Hn).
        apply dict_get_in in Hk. destruct Hk as [h Hh]. rewrite Hh in Hn. cbn [obind] in Hn.
        destruct (last_opt_some h (Hne k h Hh)) as [x Hx]. congruence. }
    split.
    + destruct (dist_matrix prev dets) as [D|] eqn:E2; cbn [obind].
      * assert (Hlen : length prev = length (keys (paths s))) by exact (mapM_length _ _ _ E1).
        destruct (match_loop_some (length (seq O (length prev))) D (keys (paths s)) dets
                    (seq O (length prev)) (seq O (length dets)) s) as [[[[s1 r'] c'] log] E3].
        { intros r Hr. apply in_seq in Hr. apply nth_In. lia. }
        rewrite E3. cbn [obind].
        rewrite length_seq, Hlen in E3.
        destruct (post_loop_age_some _ _ _ _ _ _ _ Hinv E3) as [s3 Ea].
        rewrite Ea. cbn [obind]. discriminate.
      * intros _. unfold dist_matrix in E2.
        destruct (mapM_none_ex _ _ E2) as (p & Hp' & Hrow).
        destruct (mapM_none_ex _ _ Hrow) as (d & Hdd & Hf).
        destruct (mapM_in _ _ _ _ E1 Hp') as (k & _ & Hk).
        destruct (dict_get k (paths s)) as [h|] eqn:Eh; cbn [obind] in Hk; [|discriminate].
        apply (last_opt_last _ _ []) in Hk. subst p.
        exists k, h, d. split; [exact Eh|split; [exact Hdd|exact Hf]].
    + intros (k & h & d & Hh & Hdd & Hf).
      assert (Hk : In k (keys (paths s))) by (apply dict_get_in; eauto).
      destruct (mapM_in_fwd _ _ _ _ E1 Hk) as (p & Ep & Hp').
      rewrite Hh in Ep. cbn [obind] in Ep. apply (last_opt_last _ _ []) in Ep. subst p.
      unfold dist_matrix. rewrite (mapM_none _ _ _ Hp'); [reflexivity|].
      exact (mapM_none _ _ _ Hdd Hf).
Qed.

Lemma SSorted_app_last (l : list nat) (n : nat) :
  StronglySorted lt l -> (forall y, In y l -> (y < n)%nat) -> StronglySorted lt (l ++ [n]).
Proof.
  induction l as [|x l IH]; intros Hs Hl; simpl.
  - repeat constructor.
  - inversion Hs as [|? ? Hs' Hf]; subst. constructor.
    + apply IH; [exact Hs'|intros y Hy; apply Hl; right; exact Hy].
    + apply Forall_app. split; [exact Hf|constructor; [apply Hl; left; reflexivity|constructor]].
Qed.

Lemma dict_del_sorted {V} (k : nat) (d d' : dict V) :
  dict_del k d = Some d' -> StronglySorted lt (keys d) -> StronglySorted lt (keys d').
Proof.
  revert d'. induction d as [|[k0 v0] r IH]; intros d' H Hs; simpl in H; [discriminate|].
  inversion Hs as [|? ? Hs' Hf]; subst.
  destruct (Nat.eqb k k0); [injection H as <-; exact Hs'|].
  destruct (dict_del k r) as [r'|] eqn:E; cbn [obind] in H; [|discriminate].
  injection H as <-. simpl. constructor; [exact (IH r' eq_refl Hs')|].
  apply Forall_forall. intros y Hy. apply in_map_iff in Hy. destruct Hy as ([y' v] & <- & Hy).
  apply (dict_del_incl k r r' E) in Hy.
  exact (proj1 (Forall_forall _ _) Hf y' (in_map fst _ _ Hy)).
Qed.

Lemma age_ids_sorted (ks : list nat) (s s' : tracker) :
  age_ids ks s = Some s' -> StronglySorted lt (keys (paths s)) -> StronglySorted lt (keys (paths s')).
Proof.
  revert s. induction ks as [|k ks IH]; intros s H Hs; simpl in H; [injection H as <-; exact Hs|].
  destruct (age_one k s) as [s1|] eqn:E; cbn [obind] in H; [|discriminate].
  apply (IH s1 H). unfold age_one in E.
  destruct (dict_get k (disappeared s)) as [c|]; cbn [obind] in E; [|discriminate].
  cbv zeta in E.
  destruct (Nat.ltb _ _).
  - destruct (dict_del k (paths s)) as [p'|] eqn:Ep; cbn [obind] in E; [|discriminate].
    destruct (dict_del k (dict_set k (S c) (disappeared s))) as [d'|]; cbn [obind] in E; [|discriminate].
    injection E as <-. exact (dict_del_sorted _ _ _ Ep Hs).
  - injection E as <-. exact Hs.
Qed.

Lemma seed_sorted (ds : list obs) (s : tracker) :
  StronglySorted lt (keys (paths s)) -> (forall k, In k (keys (paths s)) -> (k < next_id s)%nat) ->
  StronglySorted lt (keys (paths (seed ds s)))
  /\ (forall k, In k (keys (paths (seed ds s))) -> (k < next_id (seed ds s))%nat).
Proof.
  revert s. induction ds as [|d ds IH]; intros s Hs Hl; simpl; [split; assumption|].
  assert (Hn : ~ In (next_id s) (keys (paths s))) by (intros H; apply Hl in H; lia).
  apply IH; cbn [paths next_id]; rewrite (keys_set_notin _ _ _ Hn).
  - exact (SSorted_app_last _ _ Hs Hl).
  - intros k Hk. apply in_app_or in Hk. destruct Hk as [Hk|[<-|[]]]; [apply Hl in Hk|]; lia.
Qed.

(** [update] keeps the live ids in increasing order, all below [next_id]. *)
Lemma update_sorted (s : tracker) (dets : list obs) (s' : tracker) :
  inv s -> StronglySorted lt (keys (paths s)) -> update s dets = Some s' ->
  StronglySorted lt (keys (paths s')).
Proof.
  intros Hinv Hs Hu.
  destruct (Nat.eqb (length dets) O) eqn:Ed.
  { unfold update in Hu. rewrite Ed in Hu. exact (age_ids_sorted _ _ _ Hu Hs). }
  destruct (Nat.eqb (length (paths s)) O) eqn:Ep.
  { unfold update in Hu. rewrite Ed, Ep in Hu. injection Hu as <-.
    exact (proj1 (seed_sorted dets s Hs (inv_fresh _ Hinv))). }
  assert (Hp : paths s <> []) by (intros H; rewrite H in Ep; discriminate).
  assert (Hd : dets <> []) by (intros H; rewrite H in Ed; discriminate).
  destruct (update_general_of_update _ _ _ Hp Hd Hu) as [log Hg].
  destruct (update_general_decomp _ _ _ _ Hg) as (prev & D & rows' & cols' & s1 & E1 & E2 & E3 & E4).
  rewrite (mapM_length _ _ _ E1) in E3.
  set (n := length (keys (paths s))) in *.
  assert (Hg' := match_loop_cand n D (keys (paths s)) dets (seq O n) (seq O (length dets))
                  s s1 rows' cols' log (seq_NoDup n O) (seq_NoDup _ O)
                  (Nat.eq_le_incl _ _ (length_seq n O)) E3).
  assert (Hlen : forall r, In r (seq O n) -> (r < length (keys (paths s)))%nat)
    by (intros r Hr; apply in_seq in Hr; unfold n in Hr; lia).
  destruct (greedy_effect _ _ _ _ _ _ _ _ _ _ _ cand_in Hg' (seq_NoDup _ _) (seq_NoDup _ _)
              (inv_nodup _ Hinv) Hlen (inv_keys _ Hinv)) as (K1 & _ & N1 & _).
  apply (age_ids_sorted _ _ _ E4). apply seed_sorted; rewrite K1; [exact Hs|].
  rewrite N1. exact (inv_fresh _ Hinv).
Qed.

Lemma run_sorted (pre : list (list obs)) (s0 s : tracker) :
  inv s0 -> StronglySorted lt (keys (paths s0)) -> run s0 pre = Some s ->
  StronglySorted lt (keys (paths s)).
Proof.
  revert s0. induction pre as [|ds pre IH]; intros s0 Hinv Hs H; simpl in H;
    [injection H as <-; exact Hs|].
  destruct (update s0 ds) as [s1|] eqn:E; cbn [obind] in H; [|discriminate].
  exact (IH s1 (proj1 (update_spec _ _ _ Hinv E)) (update_sorted _ _ _ Hinv Hs E) H).
Qed.

(** Extra property: on a state reached from a fresh tracker, [update] gives
    each id either its old history, possibly extended by one detection of
    the frame, or, for an id not live before and not below [next_id], a
    history holding one detection of the frame. *)
Theorem update_history_origin (pre : list (list obs)) (s : tracker) (dets : list obs) (s' : tracker) :
  run tracker_new pre = Some s -> update s dets = Some s' ->
  forall k h', dict_get k (paths s') = Some h' ->
  (exists h, dict_get k (paths s) = Some h /\ (h' = h \/ exists c, (c < length dets)%nat /\ h' = h ++ [nth c dets []]))
  \/ (dict_get k (paths s) = None /\ (next_id s <= k)%nat /\ exists c, (c < length dets)%nat /\ h' = [nth c dets []]).
Proof.
  intros Hr Hu. exact (update_origin s dets s' (run_new_inv pre s Hr) Hu).
Qed.

(** Extra property: after any sequence of frames from a fresh tracker, every
    live history is non-empty and holds only detections given in those frames. *)
Theorem run_history_provenance (pre : list (list obs)) (s : tracker) :
  run tracker_new pre = Some s ->
  forall k h, dict_get k (paths s) = Some h -> h <> [] /\ Forall (fun o => In o (concat pre)) h.
Proof.
  intros Hr. apply (run_hist (fun o => In o (concat pre)) pre tracker_new s inv_new);
    [intros k h H; discriminate| |exact Hr].
  apply Forall_forall. intros ds Hds. apply Forall_forall. intros o Ho.
  apply in_concat. exists ds. split; assumption.
Qed.

(** Extra property: a fresh tracker processes any sequence of frames
    without raising when numpy's distance computation succeeds between any
    two of the detections given (first two fields of each). *)
Theorem run_no_error_on_wellformed (pre : list (list obs)) :
  (forall a b, In a (concat pre) -> In b (concat pre) ->
     exists v, fnorm (firstn 2 a) (firstn 2 b) = Some v) ->
  exists s, run tracker_new pre = Some s.
Proof.
  intros H. apply (run_total (fun o => In o (concat pre)) pre tracker_new inv_new).
  - intros k h E. discriminate.
  - apply Forall_forall. intros ds Hds. apply Forall_forall. intros o Ho.
    apply in_concat. exists ds. split; assumption.
  - exact H.
Qed.

(** Extra property: after any sequence of frames from a fresh tracker, the
    ids of the returned mapping appear in strictly increasing order, that is
    in order of creation. *)
Theorem run_ids_increasing (pre : list (list obs)) (s : tracker) :
  run tracker_new pre = Some s -> StronglySorted lt (keys (paths s)).
Proof.
  intros Hr. exact (run_sorted pre tracker_new s inv_new (SSorted_nil lt) Hr).
Qed.

(** * Further properties of the speed computations *)

Section SpeedProps.
Local Open Scope R_scope.

Lemma hypot_nonneg (dx dy : R) : 0 <= Speed.hypot dx dy.
Proof. unfold Speed.hypot. apply sqrt_pos. Qed.

Lemma hypot_scale (u v p : R) : 0 < p -> Speed.hypot (u / p) (v / p) = Speed.hypot u v / p.
Proof.
  intros Hp. unfold Speed.hypot.
  replace (u / p * (u / p) + v / p * (v / p)) with ((u * u + v * v) / (p * p)) by (field; lra).
  rewrite sqrt_div_alt by nra. rewrite sqrt_square by lra. reflexivity.
Qed.

Lemma np_div_pos (x t : R) : 0 < t -> Speed.np_div x t = Speed.Fin (x / t).
Proof.
  intros Ht. unfold Speed.np_div. destruct (Req_dec_T t 0); [lra|reflexivity].
Qed.

Lemma calculate_speed_pos_time (points : list (R * R)) (time_diff : R) :
  (2 <= length points)%nat -> 0 < time_diff ->
  exists v, Speed.calculate_speed points time_diff = Speed.Fin v /\ 0 <= v.
Proof.
  intros Hl Ht. unfold Speed.calculate_speed.
  destruct (Nat.ltb_spec (length points) 2); [lia|].
  rewrite np_div_pos by exact Ht. eexists. split; [reflexivity|].
  apply Rmult_le_pos; [apply hypot_nonneg|apply Rlt_le, Rinv_0_lt_compat, Ht].
Qed.

Lemma calculate_speed_last_two_aux (pre : list (R * R)) (p1 p2 : R * R) (time_diff : R) :
  Speed.calculate_speed (pre ++ [p1; p2]) time_diff = Speed.calculate_speed [p1; p2] time_diff.
Proof.
  unfold Speed.calculate_speed. rewrite length_app. cbn [length].
  destruct (Nat.ltb_spec (length pre + 2) 2); [lia|].
  replace (length pre + 2 - 2)%nat with (length pre + 0)%nat by lia.
  replace (length pre + 2 - 1)%nat with (length pre + 1)%nat by lia.
  rewrite !app_nth2_plus. reflexivity.
Qed.

End SpeedProps.

(** * Further properties of the script around the tracker *)

Section MainProps.
Local Open Scope R_scope.

Lemma track_step_cm_aux (ppc dt : R) (frame : nat) (pre : list obs) (x1 y1 x2 y2 : Z) (r1 r2 : list Z) :
  0 < ppc -> 0 < dt ->
  Main.track_step ppc dt frame (pre ++ [x1 :: y1 :: r1; x2 :: y2 :: r2])
  = Some (Some (IZR x2 / ppc, IZR y2 / ppc, frame,
                Speed.Fin (Speed.hypot (IZR x2 - IZR x1) (IZR y2 - IZR y1) / (ppc * dt)))).
Proof.
  intros Hp Hdt. unfold Main.track_step. rewrite length_app. cbn [length].
  destruct (Nat.leb_spec 2 (length pre + 2)) as [_|]; [|lia].
  replace (length pre + 2 - 2)%nat with (length pre + 0)%nat by lia.
  replace (length pre + 2 - 1)%nat with (length pre + 1)%nat by lia.
  rewrite !app_nth2_plus. cbn [nth Main.xy obind].
  unfold Speed.calculate_speed. cbn [length nth Nat.ltb Nat.leb fst snd Nat.sub].
  rewrite np_div_pos by exact Hdt.
  replace (IZR x2 / ppc - IZR x1 / ppc) with ((IZR x2 - IZR x1) / ppc) by (field; lra).
  replace (IZR y2 / ppc - IZR y1 / ppc) with ((IZR y2 - IZR y1) / ppc) by (field; lra).
  rewrite hypot_scale by exact Hp.
  replace (Speed.hypot (IZR x2 - IZR x1) (IZR y2 - IZR y1) / ppc / dt)
    with (Speed.hypot (IZR x2 - IZR x1) (IZR y2 - IZR y1) / (ppc * dt)) by (field; lra).
  reflexivity.
Qed.

Lemma track_step_edges_aux (ppc dt : R) (frame : nat) :
  (forall points, (length points < 2)%nat -> Main.track_step ppc dt frame points = Some None)
  /\ (forall pre p1 p2, (length p1 < 2 \/ length p2 < 2)%nat ->
        Main.track_step ppc dt frame (pre ++ [p1; p2]) = None).
Proof.
  split.
  - intros points H. unfold Main.track_step.
    destruct (Nat.leb_spec 2 (length points)); [lia|reflexivity].
  - intros pre p1 p2 H. unfold Main.track_step. rewrite length_app. cbn [length].
    destruct (Nat.leb_spec 2 (length pre + 2)) as [_|]; [|lia].
    replace (length pre + 2 - 2)%nat with (length pre + 0)%nat by lia.
    replace (length pre + 2 - 1)%nat with (length pre + 1)%nat by lia.
    rewrite !app_nth2_plus. cbn [nth].
    destruct H as [H|H].
    + destruct p1 as [|a [|b r]]; cbn [length] in H; try lia; reflexivity.
    + destruct (Main.xy p1); cbn [obind]; [|reflexivity].
      destruct p2 as [|a [|b r]]; cbn [length] in H; try lia; reflexivity.
Qed.

Lemma track_step_frame (ppc dt : R) (frame : nat) (points : list obs) x y f v :
  Main.track_step ppc dt frame points = Some (Some (x, y, f, v)) -> f = frame.
Proof.
  unfold Main.track_step. destruct (Nat.leb 2 (length points)); [|discriminate].
  destruct (Main.xy _) as [[a b]|]; cbn [obind]; [|discriminate].
  destruct (Main.xy _) as [[c d]|]; cbn [obind]; [|discriminate].
  intros H. injection H as _ _ <- _. reflexivity.
Qed.

Lemma record_frame_traj (ppc dt : R) (frame : nat) (items : dict (list obs))
    (traj traj' : dict (list (R * R * nat))) (sp : list (nat * Speed.fresult)) :
  Main.record_frame ppc dt frame items traj = Some (traj', sp) -> NoDup (keys items) ->
  (forall k t, dict_get k traj = Some t ->
     StronglySorted lt (map snd t) /\ Forall (fun q => (1 <= snd q <= frame)%nat) t
     /\ (In k (keys items) -> Forall (fun q => (snd q < frame)%nat) t)) ->
  (1 <= frame)%nat ->
  forall k t, dict_get k traj' = Some t ->
    StronglySorted lt (map snd t) /\ Forall (fun q => (1 <= snd q <= frame)%nat) t.
Proof.
  revert traj sp. induction items as [|[oid pts] rest IH]; intros traj sp Hrf Hnd Ht Hf;
    cbn [Main.record_frame] in Hrf.
  - injection Hrf as <- _. intros k t Hk. destruct (Ht k t Hk) as (A & B & _). split; assumption.
  - cbn [keys map fst] in Hnd, Ht. apply NoDup_cons_iff in Hnd. destruct Hnd as [Hni Hnd].
    destruct (Main.track_step ppc dt frame pts) as [st|] eqn:Et; cbn [obind] in Hrf; [|discriminate].
    destruct st as [[[[x y] f] v]|].
    + apply track_step_frame in Et. subst f.
      set (old := match dict_get oid traj with Some t => t | None => [] end) in *.
      destruct (Main.record_frame ppc dt frame rest (dict_set oid (old ++ [(x, y, frame)]) traj))
        as [[tr sp']|] eqn:Er; cbn [obind] in Hrf; [|discriminate].
      injection Hrf as <- _. apply (IH _ _ Er Hnd); [|exact Hf].
      intros k t Hk. rewrite dict_get_set in Hk.
      destruct (Nat.eqb_spec k oid) as [->|Hne].
      * injection Hk as <-.
        assert (Hold : StronglySorted lt (map snd old) /\ Forall (fun q => (1 <= snd q <= frame)%nat) old
                       /\ Forall (fun q => (snd q < frame)%nat) old).
        { unfold old. destruct (dict_get oid traj) as [t0|] eqn:E0.
          - destruct (Ht oid t0 E0) as (A & B & C). split; [exact A|split; [exact B|]].
            apply C. left. reflexivity.
          - repeat constructor. }
        destruct Hold as (A & B & C). rewrite map_app. cbn [map snd]. split.
        -- apply SSorted_app_last; [exact A|].
           intros y' Hy'. apply in_map_iff in Hy'. destruct Hy' as (q & <- & Hq).
           exact (proj1 (Forall_forall _ _) C q Hq).
        -- split.
           ++ apply Forall_app. split; [exact B|constructor; [cbn [snd]; lia|constructor]].
           ++ intros Hin. exfalso. exact (Hni Hin).
      * destruct (Ht k t Hk) as (A & B & C). split; [exact A|split; [exact B|]].
        intros Hin. apply C. right. exact Hin.
    + apply (IH _ _ Hrf Hnd); [|exact Hf].
      intros k t Hk. destruct (Ht k t Hk) as (A & B & C). split; [exact A|split; [exact B|]].
      intros Hin. apply C. right. exact Hin.
Qed.

Lemma traj_bound_weaken (traj : dict (list (R * R * nat))) (fc : nat) :
  (forall k t, dict_get k traj = Some t ->
     StronglySorted lt (map snd t) /\ Forall (fun q => (1 <= snd q <= fc)%nat) t) ->
  forall k t, dict_get k traj = Some t ->
     StronglySorted lt (map snd t) /\ Forall (fun q => (1 <= snd q <= S fc)%nat) t
     /\ (True -> Forall (fun q => (snd q < S fc)%nat) t).
Proof.
  intros H k t Hk. destruct (H k t Hk) as [A B]. split; [exact A|split].
  - eapply Forall_impl; [|exact B]. intros q Hq. cbn beta in Hq. lia.
  - intros _. eapply Forall_impl; [|exact B]. intros q Hq. cbn beta in Hq. lia.
Qed.

Lemma main_loop_traj (s : tracker) (ppc : option R) (dt : R) (fc : nat)
    (traj : dict (list (R * R * nat))) (inputs : list (option (list (R * R)) * list obs))
    (s' : tracker) (ppc' : option R) (fc' : nat) (traj' : dict (list (R * R * nat))) :
  inv s -> Main.main_loop s ppc dt fc traj inputs = Some (s', ppc', fc', traj') ->
  (forall k t, dict_get k traj = Some t ->
     StronglySorted lt (map snd t) /\ Forall (fun q => (1 <= snd q <= fc)%nat) t) ->
  fc' = (fc + length inputs)%nat
  /\ (forall k t, dict_get k traj' = Some t ->
        StronglySorted lt (map snd t) /\ Forall (fun q => (1 <= snd q <= fc')%nat) t).
Proof.
  revert s ppc fc traj. induction inputs as [|[lines dets] rest IH];
    intros s ppc fc traj Hinv Hm Ht; cbn [Main.main_loop] in Hm.
  - injection Hm as <- <- <- <-. split; [cbn [length]; lia|exact Ht].
  - destruct (update s dets) as [s1|] eqn:Eu; cbn [obind] in Hm; [|discriminate].
    assert (Hinv1 := proj1 (update_spec _ _ _ Hinv Eu)).
    set (ppc1 := match ppc with None => Main.estimate_scale lines | Some p => Some p end) in *.
    destruct (Main.main_step ppc1 dt (S fc) (paths s1) traj) as [[tr sp]|] eqn:Es;
      cbn [obind fst] in Hm; [|discriminate].
    assert (Htr : forall k t, dict_get k tr = Some t ->
              StronglySorted lt (map snd t) /\ Forall (fun q => (1 <= snd q <= S fc)%nat) t).
    { assert (Hw := traj_bound_weaken traj fc Ht).
      unfold Main.main_step in Es. destruct ppc1 as [p|].
      - destruct (Req_dec_T p 0).
        + injection Es as <- _. intros k t Hk. destruct (Hw k t Hk) as (A & B & _). split; assumption.
        + apply (record_frame_traj _ _ _ _ _ _ _ Es (inv_nodup _ Hinv1)); [|lia].
          intros k t Hk. destruct (Hw k t Hk) as (A & B & C). split; [exact A|split; [exact B|]].
          intros _. exact (C I).
      - injection Es as <- _. intros k t Hk. destruct (Hw k t Hk) as (A & B & _). split; assumption. }
    destruct (IH s1 ppc1 (S fc) tr Hinv1 Hm Htr) as [E H]. cbn [length]. split; [lia|exact H].
Qed.

Lemma speed_loop_sorted (fps : R) (prev : R * R * nat) (rest : list (R * R * nat)) :
  0 < fps -> StronglySorted lt (map snd (prev :: rest)) ->
  exists sp, Main.speed_loop fps prev rest = Some sp
    /\ map fst sp = map (fun q => INR (snd q) / fps) rest
    /\ Forall (fun tv => exists v, snd tv = Speed.Fin v /\ 0 <= v) sp.
Proof.
  intros Hfps. revert prev. induction rest as [|cur r IH]; intros prev Hs.
  - exists []. repeat split. constructor.
  - destruct prev as [[x0 y0] f0], cur as [[x1 y1] f1].
    inversion Hs as [|? ? Hs' Hf]; subst. inversion Hf as [|? ? Hlt _]; subst. cbn [snd] in Hlt.
    cbn [Main.speed_loop].
    destruct (Z.ltb_spec 0 (Z.of_nat f1 - Z.of_nat f0)) as [Hd|Hd]; [|lia].
    destruct (Req_dec_T fps 0) as [|_]; [lra|].
    destruct (IH (x1, y1, f1) Hs') as (sp & E & M & F). rewrite E. cbn [obind].
    assert (Ht : 0 < IZR (Z.of_nat f1 - Z.of_nat f0) / fps)
      by (apply Rdiv_lt_0_compat; [apply IZR_lt; exact Hd|exact Hfps]).
    rewrite np_div_pos by exact Ht.
    eexists. split; [reflexivity|]. cbn [map fst snd]. split; [f_equal; exact M|].
    constructor; [|exact F]. eexists. split; [reflexivity|].
    apply Rlt_le in Ht. apply Rmult_le_pos; [apply hypot_nonneg|].
    apply Rlt_le, Rinv_0_lt_compat. apply Rdiv_lt_0_compat; [apply IZR_lt; exact Hd|exact Hfps].
Qed.

Lemma speed_series_sorted (fps : R) (traj : list (R * R * nat)) :
  0 < fps -> StronglySorted lt (map snd traj) -> (3 <= length traj)%nat ->
  exists sp, Main.speed_series fps traj = Some sp
    /\ map fst sp = map (fun q => INR (snd q) / fps) (tl traj)
    /\ Forall (fun tv => exists v, snd tv = Speed.Fin v /\ 0 <= v) sp.
Proof.
  intros Hfps Hs Hl. unfold Main.speed_series.
  destruct (Nat.ltb_spec (length traj) 3); [lia|].
  destruct traj as [|p r]; [cbn in Hl; lia|]. exact (speed_loop_sorted fps p r Hfps Hs).
Qed.

End MainProps.

Section MainTotal.
Local Open Scope R_scope.

Lemma xy_some (p : obs) : (2 <= length p)%nat -> exists c, Main.xy p = Some c.
Proof. destruct p as [|a [|b r]]; cbn [length]; intros H; try lia. eexists; reflexivity. Qed.

Lemma track_step_some (ppc dt : R) (frame : nat) (points : list obs) :
  Forall (fun o => (2 <= length o)%nat) points ->
  exists r, Main.track_step ppc dt frame points = Some r.
Proof.
  intros Hw. unfold Main.track_step.
  destruct (Nat.leb_spec 2 (length points)) as [Hl|]; [|eexists; reflexivity].
  destruct (xy_some (nth (length points - 2) points []))
    as [[a b] E1]; [apply (proj1 (Forall_forall _ _) Hw), nth_In; lia|].
  destruct (xy_some (nth (length points - 1) points []))
    as [[c d] E2]; [apply (proj1 (Forall_forall _ _) Hw), nth_In; lia|].
  rewrite E1, E2. cbn [obind]. eexists; reflexivity.
Qed.

Lemma record_frame_some (ppc dt : R) (frame : nat) (items : dict (list obs))
    (traj : dict (list (R * R * nat))) :
  (forall oid pts, In (oid, pts) items -> Forall (fun o => (2 <= length o)%nat) pts) ->
  exists r, Main.record_frame ppc dt frame items traj = Some r.
Proof.
  revert traj. induction items as [|[oid pts] rest IH]; intros traj Hw; cbn [Main.record_frame];
    [eexists; reflexivity|].
  destruct (track_step_some ppc dt frame pts) as [st E]; [apply (Hw oid), in_eq|].
  rewrite E. cbn [obind].
  assert (Hw' : forall oid' pts', In (oid', pts') rest -> Forall (fun o => (2 <= length o)%nat) pts')
    by (intros oid' pts' H; apply (Hw oid'), in_cons, H).
  destruct st as [[[[x y] f] v]|]; [|exact (IH traj Hw')].
  destruct (IH (dict_set oid ((match dict_get oid traj with Some t => t | None => [] end) ++ [(x, y, f)]) traj) Hw')
    as [res Er].
  rewrite Er. cbn [obind]. eexists; reflexivity.
Qed.

Lemma main_loop_some (P : obs -> Prop) (s : tracker) (ppc : option R) (dt : R) (fc : nat)
    (traj : dict (list (R * R * nat))) (inputs : list (option (list (R * R)) * list obs)) :
  (forall a b, P a -> P b -> exists v, fnorm (firstn 2 a) (firstn 2 b) = Some v) ->
  (forall o, P o -> (2 <= length o)%nat) ->
  inv s ->
  (forall k h, dict_get k (paths s) = Some h -> h <> [] /\ Forall P h) ->
  Forall (fun inp => Forall P (snd inp)) inputs ->
  exists r, Main.main_loop s ppc dt fc traj inputs = Some r.
Proof.
  intros Hf HP2. revert s ppc fc traj. induction inputs as [|[lines dets] rest IH];
    intros s ppc fc traj Hinv Hs Hin; cbn [Main.main_loop]; [eexists; reflexivity|].
  inversion Hin as [|? ? Hd Hrest]; subst. cbn [snd] in Hd.
  destruct (update_total_P P s dets Hinv Hs Hd Hf) as [s1 Eu]. rewrite Eu. cbn [obind].
  assert (Hinv1 := proj1 (update_spec _ _ _ Hinv Eu)).
  assert (Hs1 := update_hist _ _ _ _ Hinv Eu Hs Hd).
  set (ppc1 := match ppc with None => Main.estimate_scale lines | Some p => Some p end).
  assert (Hst : exists res, Main.main_step ppc1 dt (S fc) (paths s1) traj = Some res).
  { unfold Main.main_step. destruct ppc1 as [p|]; [|eexists; reflexivity].
    destruct (Req_dec_T p 0); [eexists; reflexivity|].
    apply record_frame_some. intros oid pts H.
    apply (In_dict_get oid pts (paths s1) (inv_nodup _ Hinv1)) in H.
    eapply Forall_impl; [exact HP2|exact (proj2 (Hs1 oid pts H))]. }
  destruct Hst as [res Es]. rewrite Es. cbn [obind].
  exact (IH s1 ppc1 (S fc) (fst res) Hinv1 Hs1 Hrest).
Qed.

End MainTotal.

Section ScaleProps.

Lemma insert_uniq_In (x z : Z) (l : list Z) : In z (Main.insert_uniq x l) -> z = x \/ In z l.
Proof.
  induction l as [|y r IH]; cbn [Main.insert_uniq]; [intros [<-|[]]; left; reflexivity|].
  destruct (Z.ltb x y); [intros [<-|H]; [left; reflexivity|right; exact H]|].
  destruct (Z.eqb x y); [intros H; right; exact H|].
  intros [<-|H]; [right; left; reflexivity|]. destruct (IH H) as [->|H']; [left; reflexivity|].
  right; right; exact H'.
Qed.

Lemma insert_uniq_sorted (x : Z) (l : list Z) :
  StronglySorted Z.lt l -> StronglySorted Z.lt (Main.insert_uniq x l).
Proof.
  induction l as [|y r IH]; intros Hs; cbn [Main.insert_uniq]; [repeat constructor|].
  inversion Hs as [|? ? Hs' Hf]; subst.
  destruct (Z.ltb_spec x y) as [Hlt|Hge].
  - constructor; [exact Hs|]. constructor; [exact Hlt|].
    eapply Forall_impl; [|exact Hf]. intros z Hz. lia.
  - destruct (Z.eqb_spec x y) as [_|Hne]; [exact Hs|]. constructor; [exact (IH Hs')|].
    apply Forall_forall. intros z Hz. apply insert_uniq_In in Hz. destruct Hz as [->|Hz]; [lia|].
    exact (proj1 (Forall_forall _ _) Hf z Hz).
Qed.
End ScaleProps.

Section MedianProps.

Lemma sorted_set_sorted (xs : list Z) : StronglySorted Z.lt (Main.sorted_set xs).
Proof.
  unfold Main.sorted_set. induction xs as [|x r IH]; cbn [fold_right]; [constructor|].
  apply insert_uniq_sorted, IH.
Qed.

Lemma diff_pos (l : list Z) : StronglySorted Z.lt l -> Forall (fun d => (0 < d)%Z) (Main.diff l).
Proof.
  induction l as [|x r IH]; intros Hs; [constructor|].
  destruct r as [|y r']; [constructor|].
  inversion Hs as [|? ? Hs' Hf]; subst. inversion Hf as [|? ? Hxy _]; subst.
  cbn [Main.diff]. constructor; [lia|exact (IH Hs')].
Qed.

Lemma diff_length (l : list Z) : length (Main.diff l) = (length l - 1)%nat.
Proof.
  induction l as [|x r IH]; [reflexivity|].
  destruct r as [|y r']; [reflexivity|]. cbn [Main.diff length] in *. rewrite IH. lia.
Qed.

Lemma insert_sorted_In (x z : Z) (l : list Z) : In z (Main.insert_sorted x l) -> z = x \/ In z l.
Proof.
  induction l as [|y r IH]; cbn [Main.insert_sorted]; [intros [<-|[]]; left; reflexivity|].
  destruct (Z.leb x y); [intros [<-|H]; [left; reflexivity|right; exact H]|].
  intros [<-|H]; [right; left; reflexivity|]. destruct (IH H) as [->|H']; [left; reflexivity|].
  right; right; exact H'.
Qed.

Lemma insert_sorted_length (x : Z) (l : list Z) : length (Main.insert_sorted x l) = S (length l).
Proof.
  induction l as [|y r IH]; cbn [Main.insert_sorted]; [reflexivity|].
  destruct (Z.leb x y); cbn [length]; [reflexivity|]. rewrite IH. reflexivity.
Qed.

Lemma sort_In (z : Z) (l : list Z) : In z (Main.sort l) -> In z l.
Proof.
  unfold Main.sort. induction l as [|x r IH]; cbn [fold_right]; [tauto|].
  intros H. apply insert_sorted_In in H. destruct H as [->|H]; [left; reflexivity|right; exact (IH H)].
Qed.

Lemma sort_length (l : list Z) : length (Main.sort l) = length l.
Proof.
  unfold Main.sort. induction l as [|x r IH]; cbn [fold_right]; [reflexivity|].
  rewrite insert_sorted_length, IH. reflexivity.
Qed.

Lemma median_pos (l : list Z) : l <> [] -> Forall (fun d => (0 < d)%Z) l -> (0 < Main.median l)%R.
Proof.
  intros Hne Hp. unfold Main.median.
  set (s := Main.sort l). set (n := length s).
  assert (Hn : (1 <= n)%nat) by (unfold n, s; rewrite sort_length; destruct l; [congruence|cbn; lia]).
  assert (Hh : (n / 2 < n)%nat) by (apply Nat.div_lt; lia).
  assert (Hel : forall i, (i < n)%nat -> (0 < IZR (nth i s 0%Z))%R).
  { intros i Hi. apply IZR_lt. apply (proj1 (Forall_forall _ _) Hp). apply sort_In. apply nth_In. exact Hi. }
  destruct (Nat.even n) eqn:Ev.
  - assert (H1 := Hel (n / 2 - 1)%nat ltac:(lia)). assert (H2 := Hel (n / 2)%nat Hh). lra.
  - exact (Hel _ Hh).
Qed.

Lemma estimate_scale_pos (lines : option (list (R * R))) (p : R) :
  Main.estimate_scale lines = Some p -> (0 < p)%R.
Proof.
  unfold Main.estimate_scale. destruct lines as [ls|]; [|discriminate].
  set (u := Main.sorted_set _).
  destruct (Nat.leb_spec 2 (length u)) as [Hl|]; [|discriminate].
  intros H. injection H as <-. unfold Main.GRID_SQUARE_CM.
  apply Rdiv_lt_0_compat; [|lra]. apply median_pos.
  - intros E. assert (Hd := diff_length u). rewrite E in Hd. cbn [length] in Hd. lia.
  - apply diff_pos, sorted_set_sorted.
Qed.

End MedianProps.

Section MainAux.
Local Open Scope R_scope.

Lemma extract_detections_In (results : list (list Main.box)) (d : R * R * R * Z) :
  In d (Main.extract_detections results) ->
  exists boxes b, In boxes results /\ In b boxes /\ Main.bcls b = 0%Z
    /\ Main.AREA_THRESHOLD < (Main.bx2 b - Main.bx1 b) * (Main.by2 b - Main.by1 b)
    /\ d = ((Main.bx1 b + Main.bx2 b) / 2, (Main.by1 b + Main.by2 b) / 2, Main.bconf b, 0%Z).
Proof.
  unfold Main.extract_detections. intros H.
  apply in_flat_map in H. destruct H as (boxes & Hb & H).
  apply in_flat_map in H. destruct H as (b & Hbb & H).
  exists boxes, b. split; [exact Hb|split; [exact Hbb|]].
  unfold Main.box_detection in H.
  destruct (Z.eqb_spec (Main.bcls b) 0) as [Hc|]; [|destruct H].
  destruct (Rlt_dec _ _) as [Ha|]; [|destruct H].
  destruct H as [<-|[]]. split; [exact Hc|split; [exact Ha|rewrite Hc; reflexivity]].
Qed.

Lemma main_loop_scale (s : tracker) (ppc : option R) (dt : R) (fc : nat)
    (traj : dict (list (R * R * nat))) (inputs : list (option (list (R * R)) * list obs))
    (s' : tracker) (ppc' : option R) (fc' : nat) (traj' : dict (list (R * R * nat))) :
  Main.main_loop s ppc dt fc traj inputs = Some (s', ppc', fc', traj') ->
  (forall p, ppc = Some p -> ppc' = Some p)
  /\ (ppc = None -> ppc' = None \/ exists p, ppc' = Some p /\ 0 < p).
Proof.
  revert s ppc fc traj. induction inputs as [|[lines dets] rest IH];
    intros s ppc fc traj Hm; cbn [Main.main_loop] in Hm.
  - injection Hm as _ <- _ _. split; [intros p Hp; exact Hp|intros Hp; left; exact Hp].
  - destruct (update s dets) as [s1|]; cbn [obind] in Hm; [|discriminate].
    set (ppc1 := match ppc with None => Main.estimate_scale lines | Some p => Some p end) in *.
    destruct (Main.main_step ppc1 dt (S fc) (paths s1) traj) as [res|]; cbn [obind] in Hm; [|discriminate].
    destruct (IH _ _ _ _ Hm) as [A B]. split.
    + intros p Hp. apply A. unfold ppc1. rewrite Hp. reflexivity.
    + intros Hp. unfold ppc1 in A, B. rewrite Hp in A, B.
      destruct (Main.estimate_scale lines) as [p|] eqn:E.
      * right. exists p. split; [exact (A p eq_refl)|exact (estimate_scale_pos _ _ E)].
      * exact (B eq_refl).
Qed.

Lemma py_round_IZR (z : Z) : Main.py_round (IZR z) = z.
Proof.
  unfold Main.py_round.
  assert (Hu : up (IZR z) = (z + 1)%Z).
  { symmetry. apply tech_up; rewrite plus_IZR; lra. }
  assert (Hi : Int_part (IZR z) = z) by (unfold Int_part; rewrite Hu; lia).
  rewrite Hi. destruct (Rlt_dec (IZR z - IZR z) (1 / 2)) as [_|H]; [reflexivity|lra].
Qed.

End MainAux.

(** Extra property: [calculate_speed] reads only the last two points of the
    list it is given. *)
Theorem calculate_speed_last_two (pre : list (R * R)) (p1 p2 : R * R) (time_diff : R) :
  Speed.calculate_speed (pre ++ [p1; p2]) time_diff = Speed.calculate_speed [p1; p2] time_diff.
Proof. exact (calculate_speed_last_two_aux pre p1 p2 time_diff). Qed.

(** Extra property: for a track with two points or more, a positive scale
    and a positive frame interval, the loop body of lines 204-220 records
    the last centroid divided by the scale, with the frame number, and the
    speed of the last displacement in cm/s: its length in pixels divided by
    [pixel_per_cm * dt]. *)
Theorem track_step_speed_cm (ppc dt : R) (frame : nat) (pre : list obs) (x1 y1 x2 y2 : Z) (r1 r2 : list Z) :
  (0 < ppc)%R -> (0 < dt)%R ->
  Main.track_step ppc dt frame (pre ++ [x1 :: y1 :: r1; x2 :: y2 :: r2])
  = Some (Some (IZR x2 / ppc, IZR y2 / ppc, frame,
                Speed.Fin (Speed.hypot (IZR x2 - IZR x1) (IZR y2 - IZR y1) / (ppc * dt))))%R.
Proof. exact (track_step_cm_aux ppc dt frame pre x1 y1 x2 y2 r1 r2). Qed.

(** Extra property: the loop body of lines 204-220 skips a track with fewer
    than two points, and raises (unpacking [p[:2]]) when one of its last two
    observations has fewer than two fields. *)
Theorem track_step_short_input (ppc dt : R) (frame : nat) :
  (forall points, (length points < 2)%nat -> Main.track_step ppc dt frame points = Some None)
  /\ (forall pre p1 p2, (length p1 < 2 \/ length p2 < 2)%nat ->
        Main.track_step ppc dt frame (pre ++ [p1; p2]) = None).
Proof. exact (track_step_edges_aux ppc dt frame). Qed.

(** Extra property: at the end of the main loop started as the script starts
    it, [frame_count] is the number of frames read, and every trajectory of
    [trajectories_cm] has at most one sample per frame, in increasing frame
    order, with frame numbers between 1 and [frame_count]. *)
Theorem main_loop_trajectory_frames (dt : R) (inputs : list (option (list (R * R)) * list obs))
    (s' : tracker) (ppc' : option R) (fc : nat) (traj : dict (list (R * R * nat))) :
  Main.main_loop tracker_new None dt 0 [] inputs = Some (s', ppc', fc, traj) ->
  fc = length inputs
  /\ forall k t, dict_get k traj = Some t ->
       StronglySorted lt (map snd t) /\ Forall (fun q => (1 <= snd q <= fc)%nat) t.
Proof.
  intros H. destruct (main_loop_traj _ _ _ _ _ _ _ _ _ _ inv_new H) as [E T].
  - intros k t Hk. discriminate.
  - split; [exact E|exact T].
Qed.

(** Extra property: with a positive frame rate, the speed plot of lines
    264-283 keeps every sample of a trajectory the main loop has built: for a
    trajectory of three samples or more it raises no exception and yields one
    speed per sample after the first, at that sample's time [frame / fps];
    the [df > 0] guard never drops a sample. *)
Theorem main_loop_speed_series (s : tracker) (ppc : option R) (dt : R) (fc : nat)
    (traj : dict (list (R * R * nat))) (inputs : list (option (list (R * R)) * list obs))
    (s' : tracker) (ppc' : option R) (fc' : nat) (traj' : dict (list (R * R * nat)))
    (fps : R) (k : nat) (t : list (R * R * nat)) :
  inv s ->
  (forall k t, dict_get k traj = Some t ->
     StronglySorted lt (map snd t) /\ Forall (fun q => (1 <= snd q <= fc)%nat) t) ->
  Main.main_loop s ppc dt fc traj inputs = Some (s', ppc', fc', traj') ->
  (0 < fps)%R -> dict_get k traj' = Some t -> (3 <= length t)%nat ->
  exists sp, Main.speed_series fps t = Some sp
    /\ map fst sp = map (fun q => INR (snd q) / fps)%R (tl t).
Proof.
  intros Hinv Ht Hm Hfps Hk Hl.
  destruct (main_loop_traj _ _ _ _ _ _ _ _ _ _ Hinv Hm Ht) as [_ T].
  destruct (speed_series_sorted fps t Hfps (proj1 (T k t Hk)) Hl) as (sp & E & M & _).
  exists sp. split; [exact E|exact M].
Qed.

(** Extra property: the main loop started from a fresh tracker raises no
    exception, whatever the scale, the frame interval and the line
    detections, when every detection has at least two fields and numpy's
    distance computation succeeds between any two of the detections given
    (first two fields of each). *)
Theorem main_loop_no_error_on_wellformed (ppc : option R) (dt : R) (fc : nat)
    (traj : dict (list (R * R * nat))) (inputs : list (option (list (R * R)) * list obs)) :
  Forall (fun inp => Forall (fun o => (2 <= length o)%nat) (snd inp)) inputs ->
  (forall a b, In a (concat (map snd inputs)) -> In b (concat (map snd inputs)) ->
     exists v, fnorm (firstn 2 a) (firstn 2 b) = Some v) ->
  exists r, Main.main_loop tracker_new ppc dt fc traj inputs = Some r.
Proof.
  intros H2 Hf.
  apply (main_loop_some (fun o => In o (concat (map snd inputs)) /\ (2 <= length o)%nat)).
  - intros a b [Ha _] [Hb _]. exact (Hf a b Ha Hb).
  - intros o [_ Ho]. exact Ho.
  - exact inv_new.
  - intros k h E. discriminate.
  - apply Forall_forall. intros inp Hinp. apply Forall_forall. intros o Ho. split.
    + apply in_concat. exists (snd inp). split; [apply in_map, Hinp|exact Ho].
    + exact (proj1 (Forall_forall _ _) (proj1 (Forall_forall _ _) H2 inp Hinp) o Ho).
Qed.

(** Extra property: the scale computed from the grid lines, when there is
    one, is positive. *)
Theorem estimate_scale_positive (lines : option (list (R * R))) (p : R) :
  Main.estimate_scale lines = Some p -> (0 < p)%R.
Proof. exact (estimate_scale_pos lines p). Qed.

(** Extra property: over the main loop, [pixel_per_cm] is set at most once:
    once it holds a value it keeps it, and starting unset it ends unset or
    holding a positive value. *)
Theorem main_loop_scale_fixed (s : tracker) (ppc : option R) (dt : R) (fc : nat)
    (traj : dict (list (R * R * nat))) (inputs : list (option (list (R * R)) * list obs))
    (s' : tracker) (ppc' : option R) (fc' : nat) (traj' : dict (list (R * R * nat))) :
  Main.main_loop s ppc dt fc traj inputs = Some (s', ppc', fc', traj') ->
  (forall p, ppc = Some p -> ppc' = Some p)
  /\ (ppc = None -> ppc' = None \/ exists p, ppc' = Some p /\ (0 < p)%R).
Proof. exact (main_loop_scale s ppc dt fc traj inputs s' ppc' fc' traj'). Qed.

(** Extra property: every detection the script hands to the tracker comes
    from a box of class 0 whose area exceeds [AREA_THRESHOLD], and is that
    box's centre, confidence and class. *)
Theorem extract_detections_filter (results : list (list Main.box)) (d : R * R * R * Z) :
  In d (Main.extract_detections results) ->
  exists boxes b, In boxes results /\ In b boxes /\ Main.bcls b = 0%Z
    /\ (Main.AREA_THRESHOLD < (Main.bx2 b - Main.bx1 b) * (Main.by2 b - Main.by1 b))%R
    /\ d = ((Main.bx1 b + Main.bx2 b) / 2, (Main.by1 b + Main.by2 b) / 2, Main.bconf b, 0%Z)%R.
Proof. exact (extract_detections_In results d). Qed.

End TrackerProofs.

(* ------------------------------------------------------------------ *)
(** * Concrete runs, with exact Euclidean distances *)

Section ExactRuns.
#[local] Existing Instance exact_model.

(** Comparison of squared distances obeys the laws of float64 comparison
    on values that are never nan. *)
Lemma exact_model_laws : @DistLaws exact_model.
Proof.
  split; cbn.
  - intros x. apply Z.ltb_irrefl.
  - intros x y z H1 H2. apply Z.ltb_lt in H1, H2. apply Z.ltb_lt. lia.
  - intros x y z _ H. apply Z.ltb_lt in H.
    destruct (Z.ltb x y) eqn:E; [left; reflexivity|right].
    apply Z.ltb_ge in E. apply Z.ltb_lt. lia.
  - intros x y H. discriminate.
Qed.

(** The spec's scenario of section 8, with [max_disappeared = 2]. *)
Example scenario_run :
  run (mk_tracker [] [] 0 2) [[[0;0;9;0]]; [[10;10;9;0]]; []; []]
  = Some (mk_tracker [(0%nat, [[0;0;9;0]; [10;10;9;0]])] [(0%nat, 2%nat)] 1 2).
Proof. reflexivity. Qed.

Example scenario_removed :
  option_map paths (run (mk_tracker [] [] 0 2) [[[0;0;9;0]]; [[10;10;9;0]]; []; []; []])
  = Some [].
Proof. reflexivity. Qed.

(** The scale of [scale_inputs]: the median gap between the grid's rows,
    in pixels per cm. *)
Lemma scale_lines_estimate :
  Main.estimate_scale (Some [(10%R, (PI / 2)%R); (20%R, (PI / 2)%R)])
    = Some (Main.median [10%Z] / Main.GRID_SQUARE_CM)%R.
Proof.
  unfold Main.estimate_scale. cbn [filter snd map fst].
  rewrite sin_PI2, Rabs_R1.
  destruct (Rlt_dec (9 / 10) 1) as [_|]; [|lra].
  cbn [map fst]. rewrite (py_round_IZR 10), (py_round_IZR 20). reflexivity.
Qed.

Lemma scale_value_pos : (0 < Main.median [10%Z] / Main.GRID_SQUARE_CM)%R.
Proof. unfold Main.median, Main.GRID_SQUARE_CM. simpl. lra. Qed.

(** The main loop on [scale_inputs]: the scale is set at the first frame,
    and the object's trajectory gets a sample at frames 2, 3 and 4. *)
Lemma scale_run :
  exists s' t, Main.main_loop tracker_new None 1 0 [] scale_inputs
    = Some (s', Some (Main.median [10%Z] / Main.GRID_SQUARE_CM)%R, 4%nat, [(0%nat, t)])
    /\ map snd t = [2; 3; 4]%nat.
Proof.
  unfold scale_inputs. cbn [Main.main_loop]. rewrite scale_lines_estimate.
  unfold Main.main_step.
  destruct (Req_dec_T (Main.median [10%Z] / Main.GRID_SQUARE_CM) 0) as [E|_];
    [pose proof scale_value_pos; lra|].
  simpl. do 2 eexists. split; reflexivity.
Qed.

(** Claims on concrete runs. *)

Lemma paths_disappeared_same_keys_witness :
  run tracker_new [[[0; 0]]] = Some (mk_tracker [(0%nat, [[0; 0]])] [(0%nat, 0%nat)] 1 10)
  /\ keys [(0%nat, [[0; 0]])] = keys [(0%nat, 0%nat)].
Proof.
  split; [reflexivity|].
  exact (proj1 (paths_disappeared_same_keys [[[0; 0]]]
                  (mk_tracker [(0%nat, [[0; 0]])] [(0%nat, 0%nat)] 1 10) eq_refl)).
Defined.

Lemma update_empty_detections_witness :
  run tracker_new [[[0; 0]]] = Some (mk_tracker [(0%nat, [[0; 0]])] [(0%nat, 0%nat)] 1 10)
  /\ exists s', update (mk_tracker [(0%nat, [[0; 0]])] [(0%nat, 0%nat)] 1 10) [] = Some s'
       /\ next_id s' = 1%nat /\ max_disappeared s' = 10%nat
       /\ dict_get 0 (disappeared s') = Some 1%nat.
Proof.
  split; [reflexivity|].
  destruct (update_empty_detections [[[0; 0]]]
              (mk_tracker [(0%nat, [[0; 0]])] [(0%nat, 0%nat)] 1 10) eq_refl)
    as (s' & Hu & Hn & Hm & Hk).
  exists s'. split; [exact Hu|split; [exact Hn|split; [exact Hm|]]].
  rewrite (proj1 (Hk O)). reflexivity.
Defined.

Lemma update_cold_start_witness :
  run tracker_new [] = Some tracker_new /\ paths tracker_new = []
  /\ exists s', update tracker_new [[1; 2]; [3; 4]] = Some s'
       /\ paths s' = [(0%nat, [[1; 2]]); (1%nat, [[3; 4]])]
       /\ disappeared s' = [(0%nat, 0%nat); (1%nat, 0%nat)]
       /\ next_id s' = 2%nat.
Proof.
  split; [reflexivity|split; [reflexivity|]].
  exact (update_cold_start [] tracker_new [[1; 2]; [3; 4]] eq_refl eq_refl).
Defined.

Lemma track_removed_after_max_disappeared_witness :
  exists sts, run_trace tracker_new ([[[0; 0]]] ++ repeat [] 12) = Some sts
    /\ dict_get 0 (paths (nth 1 sts tracker_new)) = Some [[0; 0]]
    /\ dict_get 0 (paths (nth 12 sts tracker_new)) = None
    /\ dict_get 0 (paths (nth 13 sts tracker_new)) = None.
Proof.
  eexists. split; [vm_compute; reflexivity|].
  assert (H := track_removed_after_max_disappeared _ _
                 (eq_refl : run_trace tracker_new ([[[0; 0]]] ++ repeat [] 12) = Some _)).
  destruct H as [_ H].
  assert (Hw : forall j, (1 <= j < 1 + S (max_disappeared tracker_new))%nat ->
    dict_get 0 (paths (nth (S j) (match run_trace tracker_new ([[[0; 0]]] ++ repeat [] 12)
                                  with Some l => l | None => [] end) tracker_new)) = None
    \/ dict_get 0 (paths (nth (S j) (match run_trace tracker_new ([[[0; 0]]] ++ repeat [] 12)
                                  with Some l => l | None => [] end) tracker_new))
       = dict_get 0 (paths (nth j (match run_trace tracker_new ([[[0; 0]]] ++ repeat [] 12)
                                  with Some l => l | None => [] end) tracker_new))).
  { intros j Hj. simpl in Hj.
    destruct j as [|j]; [lia|].
    do 11 (destruct j as [|j]; [vm_compute; auto|]). lia. }
  split; [vm_compute; reflexivity|].
  split; apply (H 1%nat 0%nat [[0; 0]]); [vm_compute; reflexivity|exact Hw|simpl; lia
                                          |vm_compute; reflexivity|exact Hw|simpl; lia].
Defined.

Lemma ids_never_reissued_witness :
  exists sts, run_trace tracker_new ([[[0; 0]]] ++ repeat [] 11 ++ [[[0; 0]]]) = Some sts
    /\ issued sts = [0%nat; 1%nat] /\ NoDup (issued sts).
Proof.
  eexists. split; [vm_compute; reflexivity|]. split; [vm_compute; reflexivity|].
  exact (proj1 (ids_never_reissued _ _
                  (eq_refl : run_trace tracker_new ([[[0; 0]]] ++ repeat [] 11 ++ [[[0; 0]]]) = Some _))).
Defined.

Lemma update_matching_one_to_one_witness :
  run tracker_new [[[0; 0]]] = Some (mk_tracker [(0%nat, [[0; 0]])] [(0%nat, 0%nat)] 1 10)
  /\ exists log : list (nat * nat), NoDup (map fst log) /\ NoDup (map snd log).
Proof.
  split; [reflexivity|].
  destruct (@update_matching_one_to_one exact_model [[[0; 0]]]
              (mk_tracker [(0%nat, [[0; 0]])] [(0%nat, 0%nat)] 1 10)
              (mk_tracker [(0%nat, [[0; 0]; [3; 4]]); (1%nat, [[500; 500]])]
                          [(0%nat, 0%nat); (1%nat, 0%nat)] 2 10)
              [[3; 4]; [500; 500]] eq_refl eq_refl)
    as (log & NF & NS & _).
  exists log. split; assumption.
Defined.
Lemma calculate_speed_degenerate_witness :
  Speed.calculate_speed [(0%R, 0%R)] 1%R = Speed.Fin 0%R
  /\ Speed.calculate_speed [(1%R, 1%R); (1%R, 1%R)] 0%R = Speed.NaN.
Proof.
  split.
  - apply (proj1 (calculate_speed_degenerate [(0%R, 0%R)] 1%R)). simpl. lia.
  - apply (proj2 (proj2 (calculate_speed_degenerate [(1%R, 1%R); (1%R, 1%R)] 0%R)
                   ltac:(simpl; lia) eq_refl)).
    reflexivity.
Defined.

Lemma update_general_is_greedy_witness :
  run tracker_new [[[0; 0]]] = Some (mk_tracker [(0%nat, [[0; 0]])] [(0%nat, 0%nat)] 1 10)
  /\ update (mk_tracker [(0%nat, [[0; 0]])] [(0%nat, 0%nat)] 1 10) [[3; 4]; [500; 500]; [600; 600]]
     = Some (mk_tracker [(0%nat, [[0; 0]; [3; 4]]); (1%nat, [[500; 500]]); (2%nat, [[600; 600]])]
                        [(0%nat, 0%nat); (1%nat, 0%nat); (2%nat, 0%nat)] 3 10)
  /\ exists rows' cols' s1 log,
       greedy [0%nat] [[3; 4]; [500; 500]; [600; 600]]
         (track_dist [0%nat] [(0%nat, [[0; 0]])] [[3; 4]; [500; 500]; [600; 600]])
         (is_min (track_dist [0%nat] [(0%nat, [[0; 0]])] [[3; 4]; [500; 500]; [600; 600]]))
         [0%nat] [0%nat; 1%nat; 2%nat] (mk_tracker [(0%nat, [[0; 0]])] [(0%nat, 0%nat)] 1 10)
         rows' cols' s1 log
       /\ NoDup cols' /\ length cols' = 2%nat
       /\ forall i, (i < length cols')%nat ->
            dict_get (1 + i) [(0%nat, [[0; 0]; [3; 4]]); (1%nat, [[500; 500]]); (2%nat, [[600; 600]])]
            = Some [nth (nth i cols' O) [[3; 4]; [500; 500]; [600; 600]] []].
Proof.
  split; [reflexivity|split; [reflexivity|]].
  destruct (@update_general_is_greedy exact_model exact_model_laws [[[0; 0]]]
              (mk_tracker [(0%nat, [[0; 0]])] [(0%nat, 0%nat)] 1 10)
              (mk_tracker [(0%nat, [[0; 0]; [3; 4]]); (1%nat, [[500; 500]]); (2%nat, [[600; 600]])]
                          [(0%nat, 0%nat); (1%nat, 0%nat); (2%nat, 0%nat)] 3 10)
              [[3; 4]; [500; 500]; [600; 600]] eq_refl ltac:(discriminate) ltac:(discriminate) eq_refl)
    as (rows' & cols' & s1 & log & Hg & _ & ND & _ & Nid & Sd).
  exists rows', cols', s1, log.
  split; [exact Hg|split; [exact ND|split]].
  - simpl in Nid. lia.
  - intros i Hi. exact (proj1 (Sd i Hi)).
Defined.

Lemma match_threshold_strict_witness :
  update (mk_tracker [(0%nat, [[0; 0]])] [(0%nat, 0%nat)] 1 10) [[60; 80]; [59; 80]]
    = Some (mk_tracker [(0%nat, [[0; 0]; [59; 80]]); (1%nat, [[60; 80]])]
                       [(0%nat, 0%nat); (1%nat, 0%nat)] 2 10)
  /\ track_dist [0%nat] [(0%nat, [[0; 0]])] [[60; 80]; [59; 80]] 0 0 = fthreshold
  /\ exists log,
       (forall r c, In (r, c) log ->
          flt (track_dist [0%nat] [(0%nat, [[0; 0]])] [[60; 80]; [59; 80]] r c) fthreshold = true)
       /\ ~ In (0%nat, 0%nat) log.
Proof.
  split; [reflexivity|split; [reflexivity|]].
  destruct (@match_threshold_strict exact_model exact_model_laws [[[0; 0]]]
              (mk_tracker [(0%nat, [[0; 0]])] [(0%nat, 0%nat)] 1 10)
              (mk_tracker [(0%nat, [[0; 0]; [59; 80]]); (1%nat, [[60; 80]])]
                          [(0%nat, 0%nat); (1%nat, 0%nat)] 2 10)
              [[60; 80]; [59; 80]] (fun _ _ _ _ => eq_refl) eq_refl
              ltac:(discriminate) ltac:(discriminate) eq_refl)
    as (rows' & cols' & s1 & log & _ & Hlog & _).
  exists log. split.
  - intros r c H. exact (proj1 (Hlog r c H)).
  - intros H. apply (proj1 (proj2 (Hlog 0%nat 0%nat H))). reflexivity.
Defined.

Lemma update_no_input_validation_witness :
  update tracker_new [[]] = Some (seed [[]] tracker_new)
  /\ update (mk_tracker [(0%nat, [[0; 0]])] [(0%nat, 0%nat)] 1 10) [[]] = None
  /\ update (mk_tracker [(0%nat, [[0; 0]])] [(0%nat, 0%nat)] 1 10) [[5]] <> None.
Proof.
  split; [|split].
  - apply (proj1 (update_no_input_validation [] tracker_new [[]] eq_refl));
      [reflexivity|discriminate].
  - apply (proj2 (proj2 (update_no_input_validation [[[0; 0]]]
                           (mk_tracker [(0%nat, [[0; 0]])] [(0%nat, 0%nat)] 1 10) [[]] eq_refl))
             ltac:(discriminate) ltac:(discriminate)).
    exists 0%nat, [[0; 0]], []. split; [reflexivity|split; [left; reflexivity|reflexivity]].
  - intros Hn.
    apply (proj2 (proj2 (update_no_input_validation [[[0; 0]]]
                           (mk_tracker [(0%nat, [[0; 0]])] [(0%nat, 0%nat)] 1 10) [[5]] eq_refl))
             ltac:(discriminate) ltac:(discriminate)) in Hn.
    destruct Hn as (k & h & d & Hh & Hd & Hf). simpl in Hh.
    destruct (Nat.eqb k 0); [|discriminate]. injection Hh as <-.
    destruct Hd as [<-|[]]. discriminate Hf.
Defined.

(** C9 (as stated, refuted): a detection with a single field is not
    rejected: on a fresh tracker it seeds a track, on a live track numpy
    broadcasts it and it is matched; and an empty detection seeds a track
    on a fresh tracker.  No invalid-input result is produced. *)
Lemma update_accepts_malformed :
  run tracker_new [[[0; 0]]; [[5]]]
    = Some (mk_tracker [(0%nat, [[0; 0]; [5]])] [(0%nat, 0%nat)] 1 10)
  /\ update tracker_new [[]] = Some (mk_tracker [(0%nat, [[]])] [(0%nat, 0%nat)] 1 10).
Proof. split; reflexivity. Qed.

(** Extra properties on concrete runs. *)

Lemma run_no_error_on_wellformed_witness :
  exists s, run tracker_new [[[1; 2]; [5]]; []; [[3; 4; 9]]] = Some s.
Proof.
  apply run_no_error_on_wellformed.
  intros a b Ha Hb. cbn in Ha, Hb.
  destruct Ha as [Ha|[Ha|[Ha|[]]]]; destruct Hb as [Hb|[Hb|[Hb|[]]]]; subst;
    eexists; reflexivity.
Defined.

Lemma main_loop_no_error_on_wellformed_witness :
  exists r, Main.main_loop tracker_new (Some 2%R) 1%R 0 []
              [(None, [[1; 2; 5]]); (None, [[3; 4]; [100; 100]])] = Some r.
Proof.
  apply main_loop_no_error_on_wellformed.
  - repeat constructor; cbn; lia.
  - intros a b Ha Hb. cbn in Ha, Hb.
    destruct Ha as [Ha|[Ha|[Ha|[]]]]; destruct Hb as [Hb|[Hb|[Hb|[]]]]; subst;
      eexists; reflexivity.
Defined.

Lemma main_loop_trajectory_frames_witness :
  exists s' p traj, Main.main_loop tracker_new None 1 0 [] scale_inputs = Some (s', Some p, 4%nat, traj)
    /\ (0 < p)%R
    /\ 4%nat = length scale_inputs
    /\ (exists t, dict_get 0 traj = Some t /\ map snd t = [2; 3; 4]%nat)
    /\ forall k t, dict_get k traj = Some t ->
         StronglySorted lt (map snd t) /\ Forall (fun q => (1 <= snd q <= 4)%nat) t.
Proof.
  destruct scale_run as (s' & t & H & M).
  destruct (main_loop_trajectory_frames _ _ _ _ _ _ H) as [E T].
  exists s', (Main.median [10%Z] / Main.GRID_SQUARE_CM)%R, [(0%nat, t)].
  split; [exact H|split; [exact scale_value_pos|split; [exact E|split; [|exact T]]]].
  exists t. split; [reflexivity|exact M].
Defined.

Lemma main_loop_speed_series_witness :
  exists t sp,
    (exists s' p, Main.main_loop tracker_new None 1 0 [] scale_inputs = Some (s', Some p, 4%nat, [(0%nat, t)]))
    /\ map snd t = [2; 3; 4]%nat
    /\ Main.speed_series 30 t = Some sp
    /\ map fst sp = map (fun q => INR (snd q) / 30)%R (tl t).
Proof.
  destruct scale_run as (s' & t & H & M).
  assert (Hl : (3 <= length t)%nat) by (rewrite <- (length_map snd t), M; simpl; lia).
  destruct (main_loop_speed_series tracker_new None 1 0 [] scale_inputs s' _ 4 [(0%nat, t)] 30 0 t
              inv_new ltac:(intros k t' Hk; discriminate) H ltac:(lra) eq_refl Hl)
    as (sp & E & F).
  exists t, sp. split; [exists s', (Main.median [10%Z] / Main.GRID_SQUARE_CM)%R; exact H|].
  split; [exact M|split; [exact E|exact F]].
Defined.

Lemma main_loop_scale_fixed_witness :
  exists s' p traj, Main.main_loop tracker_new None 1 0 [] scale_inputs = Some (s', Some p, 4%nat, traj)
    /\ (0 < p)%R.
Proof.
  destruct scale_run as (s' & t & H & _).
  destruct (proj2 (main_loop_scale_fixed _ _ _ _ _ _ _ _ _ _ H) eq_refl) as [E|(p & E & Hp)];
    [discriminate|].
  injection E as E. rewrite E in H.
  exists s', p, [(0%nat, t)]. split; [exact H|exact Hp].
Defined.

Lemma update_history_origin_witness :
  run tracker_new [[[1; 2]]] = Some (mk_tracker [(0%nat, [[1; 2]])] [(0%nat, 0%nat)] 1 10)
  /\ update (mk_tracker [(0%nat, [[1; 2]])] [(0%nat, 0%nat)] 1 10) [[3; 4]]
     = Some (mk_tracker [(0%nat, [[1; 2]; [3; 4]])] [(0%nat, 0%nat)] 1 10)
  /\ ((exists h, dict_get 0 [(0%nat, [[1; 2]])] = Some h
        /\ ([[1; 2]; [3; 4]] = h \/ exists c, (c < 1)%nat /\ [[1; 2]; [3; 4]] = h ++ [nth c [[3; 4]] []]))
      \/ (dict_get 0 [(0%nat, [[1; 2]])] = None /\ (1 <= 0)%nat
          /\ exists c, (c < 1)%nat /\ [[1; 2]; [3; 4]] = [nth c [[3; 4]] []])).
Proof.
  split; [vm_compute; reflexivity|]. split; [vm_compute; reflexivity|].
  exact (@update_history_origin exact_model [[[1; 2]]] (mk_tracker [(0%nat, [[1; 2]])] [(0%nat, 0%nat)] 1 10)
           [[3; 4]] (mk_tracker [(0%nat, [[1; 2]; [3; 4]])] [(0%nat, 0%nat)] 1 10)
           ltac:(vm_compute; reflexivity) ltac:(vm_compute; reflexivity) 0 [[1; 2]; [3; 4]]
           ltac:(vm_compute; reflexivity)).
Defined.

Lemma run_history_provenance_witness :
  run tracker_new [[[1; 2]]; [[3; 4]]]
    = Some (mk_tracker [(0%nat, [[1; 2]; [3; 4]])] [(0%nat, 0%nat)] 1 10)
  /\ ([[1; 2]; [3; 4]] <> [] /\ Forall (fun o => In o (concat [[[1; 2]]; [[3; 4]]])) [[1; 2]; [3; 4]]).
Proof.
  split; [vm_compute; reflexivity|].
  exact (@run_history_provenance exact_model [[[1; 2]]; [[3; 4]]]
           (mk_tracker [(0%nat, [[1; 2]; [3; 4]])] [(0%nat, 0%nat)] 1 10)
           ltac:(vm_compute; reflexivity) 0 [[1; 2]; [3; 4]] ltac:(vm_compute; reflexivity)).
Defined.

Lemma run_ids_increasing_witness :
  run tracker_new [[[1; 2]; [50; 50]]; [[52; 50]]]
    = Some (mk_tracker [(0%nat, [[1; 2]]); (1%nat, [[50; 50]; [52; 50]])] [(0%nat, 1%nat); (1%nat, 0%nat)] 2 10)
  /\ StronglySorted lt (keys [(0%nat, [[1; 2]]); (1%nat, [[50; 50]; [52; 50]])]).
Proof.
  split; [vm_compute; reflexivity|].
  exact (@run_ids_increasing exact_model [[[1; 2]; [50; 50]]; [[52; 50]]]
           (mk_tracker [(0%nat, [[1; 2]]); (1%nat, [[50; 50]; [52; 50]])] [(0%nat, 1%nat); (1%nat, 0%nat)] 2 10)
           ltac:(vm_compute; reflexivity)).
Defined.

Lemma track_step_speed_cm_witness :
  (0 < 2)%R /\ (0 < 1)%R
  /\ Main.track_step 2 1 7 ([] ++ [[0; 0; 9; 0]; [3; 4; 9; 0]])
     = Some (Some (IZR 3 / 2, IZR 4 / 2, 7%nat,
                   Speed.Fin (Speed.hypot (IZR 3 - IZR 0) (IZR 4 - IZR 0) / (2 * 1))))%R.
Proof.
  assert (H1 : (0 < 2)%R) by lra. assert (H2 : (0 < 1)%R) by lra.
  split; [exact H1|split; [exact H2|]].
  exact (track_step_speed_cm 2 1 7 [] 0 0 3 4 [9; 0] [9; 0] H1 H2).
Defined.

Lemma track_step_short_input_witness :
  (length ([[1; 2]%Z] : list obs) < 2)%nat /\ Main.track_step 1 1 1 [[1; 2]] = Some None
  /\ (length ([1%Z] : obs) < 2 \/ length ([3; 4]%Z : obs) < 2)%nat
  /\ Main.track_step 1 1 1 ([] ++ [[1]; [3; 4]]) = None.
Proof.
  assert (H1 : (length ([[1; 2]%Z] : list obs) < 2)%nat) by (cbn; lia).
  assert (H2 : (length ([1%Z] : obs) < 2 \/ length ([3; 4]%Z : obs) < 2)%nat) by (cbn; lia).
  split; [exact H1|split; [exact (proj1 (track_step_short_input 1 1 1) _ H1)|]].
  split; [exact H2|exact (proj2 (track_step_short_input 1 1 1) [] [1] [3; 4] H2)].
Defined.

Lemma estimate_scale_positive_witness :
  Main.estimate_scale (Some [(10%R, (PI / 2)%R); (20%R, (PI / 2)%R)])
    = Some (Main.median [10%Z] / Main.GRID_SQUARE_CM)%R
  /\ (0 < Main.median [10%Z] / Main.GRID_SQUARE_CM)%R.
Proof.
  assert (H : Main.estimate_scale (Some [(10%R, (PI / 2)%R); (20%R, (PI / 2)%R)])
                = Some (Main.median [10%Z] / Main.GRID_SQUARE_CM)%R).
  { unfold Main.estimate_scale. cbn [filter snd map fst].
    rewrite sin_PI2, Rabs_R1.
    destruct (Rlt_dec (9 / 10) 1) as [_|]; [|lra].
    cbn [map fst]. rewrite (py_round_IZR 10), (py_round_IZR 20). reflexivity. }
  split; [exact H|exact (estimate_scale_positive _ _ H)].
Defined.

Lemma extract_detections_filter_witness :
  In ((0 + 100) / 2, (0 + 100) / 2, 9 / 10, 0%Z)%R
     (Main.extract_detections [[Main.mk_box 0 0 100 100 (9 / 10) 0]])
  /\ exists boxes b, In boxes [[Main.mk_box 0 0 100 100 (9 / 10) 0]] /\ In b boxes /\ Main.bcls b = 0%Z
    /\ (Main.AREA_THRESHOLD < (Main.bx2 b - Main.bx1 b) * (Main.by2 b - Main.by1 b))%R
    /\ ((0 + 100) / 2, (0 + 100) / 2, 9 / 10, 0%Z)%R
       = ((Main.bx1 b + Main.bx2 b) / 2, (Main.by1 b + Main.by2 b) / 2, Main.bconf b, 0%Z)%R.
Proof.
  assert (H : In ((0 + 100) / 2, (0 + 100) / 2, 9 / 10, 0%Z)%R
                 (Main.extract_detections [[Main.mk_box 0 0 100 100 (9 / 10) 0]])).
  { unfold Main.extract_detections, Main.box_detection. cbn [flat_map Main.bcls Main.bx1 Main.bx2
      Main.by1 Main.by2 Main.bconf Z.eqb].
    destruct (Rlt_dec Main.AREA_THRESHOLD ((100 - 0) * (100 - 0))) as [_|Hn];
      [left; reflexivity|unfold Main.AREA_THRESHOLD in Hn; lra]. }
  split; [exact H|exact (extract_detections_filter _ _ H)].
Defined.

End ExactRuns.
